(** * Words of Plainness editor: storage, chunking, analysis, suggestions

    A shallow embedding of [src/lib/storage.js] (the persistence helpers and
    the version ledger) and of the editor component that follows it in the
    same file ([prepareDocument], [analyzeContent], [acceptSuggestion],
    [renderContentWithHighlights]), with the properties the specification
    states about them.

    JavaScript strings are sequences of UTF-16 code units; they are modelled
    as lists of code units ([N]).  Offsets are JavaScript numbers that only
    ever hold integers here ([-1] included), modelled as [Z]. *)

From Stdlib Require Import ZArith NArith Lia Ascii String Decimal.
From stdpp Require Import base option list gmap strings sorting.

Local Open Scope Z_scope.

(** ** JavaScript strings *)

Module JS.

Abbreviation char := N (only parsing).
Abbreviation jsstring := (list N) (only parsing).

(** A literal of the source, for text that is plain ASCII. *)
Definition lit (s : string) : jsstring :=
  N_of_ascii <$> list_ascii_of_string s.

Definition NL : char := 10%N.
Definition SPACE : char := 32%N.
Definition QUOTE : char := 34%N.

(** [s.length] *)
Definition len (s : jsstring) : Z := Z.of_nat (length s).

(** The class [\s] of regular expressions, which is also what [trim]
    strips: WhiteSpace and LineTerminator code units. *)
Definition isSpace (c : char) : bool :=
  ((9 <=? c) && (c <=? 13) || (c =? 32) || (c =? 160) || (c =? 5760)
   || (8192 <=? c) && (c <=? 8202) || (c =? 8232) || (c =? 8233)
   || (c =? 8239) || (c =? 8287) || (c =? 12288) || (c =? 65279))%N.

(** The class [[\x00-\x1F\x7F]]. *)
Definition isControl (c : char) : bool := ((c <=? 31) || (c =? 127))%N.

Definition isNewline (c : char) : bool := (c =? NL)%N.

Fixpoint trimStart (s : jsstring) : jsstring :=
  match s with
  | c :: rest => if isSpace c then trimStart rest else s
  | [] => []
  end.

Definition trimEnd (s : jsstring) : jsstring := rev (trimStart (rev s)).

(** [s.trim()] *)
Definition trim (s : jsstring) : jsstring := trimEnd (trimStart s).

Definition clamp (n : Z) (s : jsstring) : nat := Z.to_nat (Z.min (Z.max n 0) (len s)).

(** [s.substring(a, b)]: both ends clamped to [0, s.length], swapped when
    [a > b]. *)
Definition substring (s : jsstring) (a b : Z) : jsstring :=
  let a' := clamp a s in
  let b' := clamp b s in
  take (Nat.max a' b' - Nat.min a' b') (drop (Nat.min a' b') s).

(** [s.slice(a, b)]: a negative end counts from the end of the string, and
    the result is empty when the ends cross. *)
Definition sliceIndex (n : Z) (s : jsstring) : nat :=
  Z.to_nat (if n <? 0 then Z.max (len s + n) 0 else Z.min n (len s)).

Definition slice (s : jsstring) (a b : Z) : jsstring :=
  let a' := sliceIndex a s in
  let b' := sliceIndex b s in
  take (b' - a') (drop a' s).

(** [s.substring(a)] *)
Definition substringFrom (s : jsstring) (a : Z) : jsstring :=
  substring s a (len s).

Fixpoint startsWith (pat s : jsstring) : bool :=
  match pat, s with
  | [], _ => true
  | p :: pat', c :: s' => (p =? c)%N && startsWith pat' s'
  | _ :: _, [] => false
  end.

(** First position at which [pat] occurs in [s]. *)
Fixpoint search (pat s : jsstring) : option nat :=
  if startsWith pat s then Some O
  else match s with
       | [] => None
       | _ :: s' => S <$> search pat s'
       end.

(** Last position at which [pat] occurs in [s]. *)
Fixpoint searchLast (pat s : jsstring) : option nat :=
  match s with
  | [] => if startsWith pat [] then Some O else None
  | _ :: s' =>
      match searchLast pat s' with
      | Some i => Some (S i)
      | None => if startsWith pat s then Some O else None
      end
  end.

(** [s.indexOf(pat)] and [s.lastIndexOf(pat)]: [-1] when absent. *)
Definition indexOf (s pat : jsstring) : Z :=
  match search pat s with Some i => Z.of_nat i | None => -1 end.

Definition lastIndexOf (s pat : jsstring) : Z :=
  match searchLast pat s with Some i => Z.of_nat i | None => -1 end.

(** [s.replace(/class/g, with)] for a one-character class. *)
Definition replaceAll (class : char → bool) (by_ : char) (s : jsstring) : jsstring :=
  (λ c, if class c then by_ else c) <$> s.

(** [parts.join(sep)] *)
Fixpoint join (sep : jsstring) (parts : list jsstring) : jsstring :=
  match parts with
  | [] => []
  | [p] => p
  | p :: rest => p ++ sep ++ join sep rest
  end.

(** [s.split(re)] for a regular expression without groups that never
    matches the empty string.  [matchAt s] is the length of the match of
    [re] anchored at the head of [s], [0] when there is none.  The scan
    goes left to right: a match closes the current piece and is skipped,
    any other character joins the piece; the piece open at the end of the
    text is always pushed, so the result is never empty. *)
Fixpoint splitLoop (matchAt : jsstring → nat) (skip : nat)
         (piece s : jsstring) : list jsstring :=
  match s with
  | [] => [piece]
  | c :: rest =>
      match skip with
      | S skip' => splitLoop matchAt skip' piece rest
      | O =>
          match matchAt s with
          | O => splitLoop matchAt 0 (piece ++ [c]) rest
          | S k => piece :: splitLoop matchAt k [] rest
          end
      end
  end.

Definition split (matchAt : jsstring → nat) (s : jsstring) : list jsstring :=
  splitLoop matchAt 0 [] s.

Fixpoint spanLength (class : char → bool) (s : jsstring) : nat :=
  match s with
  | c :: rest => if class c then S (spanLength class rest) else O
  | [] => O
  end.

(** [/\s+/] *)
Definition reSpaces (s : jsstring) : nat := spanLength isSpace s.

(** [/\n\n+/] *)
Definition reBlankLines (s : jsstring) : nat :=
  match s with
  | a :: b :: _ => if isNewline a && isNewline b then spanLength isNewline s else O
  | _ => O
  end.

Fixpoint digits (d : Decimal.uint) : jsstring :=
  match d with
  | Nil => []
  | D0 d => 48%N :: digits d
  | D1 d => 49%N :: digits d
  | D2 d => 50%N :: digits d
  | D3 d => 51%N :: digits d
  | D4 d => 52%N :: digits d
  | D5 d => 53%N :: digits d
  | D6 d => 54%N :: digits d
  | D7 d => 55%N :: digits d
  | D8 d => 56%N :: digits d
  | D9 d => 57%N :: digits d
  end.

(** [`${n}`] for a non-negative integer. *)
Definition ofNat (n : nat) : jsstring := digits (Nat.to_uint n).

Global Arguments lit : simpl never.
Global Arguments ofNat : simpl never.
Global Arguments substring : simpl never.
Global Arguments trim : simpl never.

End JS.

Import JS.

(** ** Persistent storage ([storage], [versioning]) *)

Record Version := mkVersion {
  v_id : Z;
  v_content : jsstring;
  v_label : jsstring;
  v_timestamp : jsstring;
  v_wordCount : nat;
}.

(** What [localStorage] holds under a key.  The ledger key is written only
    by [saveVersion] and [deleteVersion], always as [JSON.stringify] of the
    version array, and [JSON.parse] gives that array back: the model keeps
    the array.  [Text] is a string stored as it is; under the ledger key it
    stands for text that [JSON.parse] rejects. *)
Inductive item :=
| Text (s : jsstring)
| VersionsJson (vs : list Version).

Abbreviation localStorage := (gmap string item) (only parsing).

Module STORAGE_KEYS.
Definition CONTENT : string := "wop_editor_content".
Definition CHAT_HISTORY : string := "wop_chat_history".
Definition PREFERENCES : string := "wop_preferences".
Definition LAST_SAVED : string := "wop_last_saved".

(** [Object.values(STORAGE_KEYS)] *)
Definition values : list string := [CONTENT; CHAT_HISTORY; PREFERENCES; LAST_SAVED].
End STORAGE_KEYS.

Definition VERSION_KEY : string := "wop_versions".
Definition MAX_VERSIONS : nat := 5.

(** [JSON.stringify] and [JSON.parse] are the platform's.  The storage
    functions apply them to the version array, to the chat history (an
    array of messages) and to the preferences; a parse that throws, or
    gives [null], is [None]. *)
Class Json (Message Preferences : Type) := {
  stringifyVersions : list Version → jsstring;
  stringifyHistory : list Message → jsstring;
  parseHistory : jsstring → option (list Message);
  stringifyPreferences : Preferences → jsstring;
  parsePreferences : jsstring → option Preferences;
}.

Module storage.

(** [clearAll]: [removeItem] on every value of [STORAGE_KEYS], in order.
    [removeItem] does not throw, so the function returns [true]. *)
Definition clearAll (ls : localStorage) : bool * localStorage :=
  (true, foldl (λ acc key, delete key acc) ls STORAGE_KEYS.values).

(** What the browser supplies to the functions that write: the time stamp
    [new Date().toISOString()] and, for each [setItem] a call can make,
    whether it goes through (it throws when the quota is exceeded). *)
Record writes := mkWrites {
  isoNow : jsstring;
  contentOk : bool;
  lastSavedOk : bool;
  historyOk : bool;
  preferencesOk : bool;
}.

(** A backup as [exportAll] makes it; a field another program left out
    is [None]. *)
Record backup (Message Preferences : Type) := mkBackup {
  b_content : option jsstring;
  b_chatHistory : option (list Message);
  b_preferences : option Preferences;
  b_exportedAt : jsstring;
}.
Arguments mkBackup {Message Preferences}.
Arguments b_content {Message Preferences}.
Arguments b_chatHistory {Message Preferences}.
Arguments b_preferences {Message Preferences}.
Arguments b_exportedAt {Message Preferences}.

(** [value || null] and [value ? ... : null] on a string that may be
    [null]: the empty string is falsy. *)
Definition truthy (value : option jsstring) : option jsstring :=
  match value with
  | Some (c :: s) => Some (c :: s)
  | Some [] | None => None
  end.

Section Persistence.
Context {Message Preferences : Type} `{!Json Message Preferences}.

(** [localStorage.getItem(key)]: the string stored under [key]. *)
Definition getItem (ls : localStorage) (key : string) : option jsstring :=
  match ls !! key with
  | Some (Text s) => Some s
  | Some (VersionsJson vs) => Some (stringifyVersions vs)
  | None => None
  end.

Definition saveContent (w : writes) (content : jsstring) (ls : localStorage)
  : bool * localStorage :=
  if contentOk w
  then
    let ls := <[STORAGE_KEYS.CONTENT := Text content]> ls in
    if lastSavedOk w
    then (true, <[STORAGE_KEYS.LAST_SAVED := Text (isoNow w)]> ls)
    else (false, ls)
  else (false, ls).

Definition loadContent (ls : localStorage) : option jsstring :=
  truthy (getItem ls STORAGE_KEYS.CONTENT).

Definition saveChatHistory (w : writes) (history : list Message) (ls : localStorage)
  : bool * localStorage :=
  let trimmed := drop (length history - 50) history in
  if historyOk w
  then (true, <[STORAGE_KEYS.CHAT_HISTORY := Text (stringifyHistory trimmed)]> ls)
  else (false, ls).

Definition loadChatHistory (ls : localStorage) : option (list Message) :=
  match truthy (getItem ls STORAGE_KEYS.CHAT_HISTORY) with
  | Some data => parseHistory data
  | None => None
  end.

Definition savePreferences (w : writes) (prefs : Preferences) (ls : localStorage)
  : bool * localStorage :=
  if preferencesOk w
  then (true, <[STORAGE_KEYS.PREFERENCES := Text (stringifyPreferences prefs)]> ls)
  else (false, ls).

Definition loadPreferences (ls : localStorage) : option Preferences :=
  match truthy (getItem ls STORAGE_KEYS.PREFERENCES) with
  | Some data => parsePreferences data
  | None => None
  end.

Definition exportAll (exportedAt : jsstring) (ls : localStorage)
  : backup Message Preferences :=
  {| b_content := loadContent ls;
     b_chatHistory := loadChatHistory ls;
     b_preferences := loadPreferences ls;
     b_exportedAt := exportedAt |}.

(** [importAll(data)]: reading a field of [null] throws, which is caught;
    the three saves catch their own errors, so nothing else does. *)
Definition importAll (w : writes) (data : option (backup Message Preferences))
           (ls : localStorage) : bool * localStorage :=
  match data with
  | None => (false, ls)
  | Some data =>
      let ls := match truthy (b_content data) with
                | Some content => (saveContent w content ls).2
                | None => ls
                end in
      let ls := match b_chatHistory data with
                | Some history => (saveChatHistory w history ls).2
                | None => ls
                end in
      let ls := match b_preferences data with
                | Some prefs => (savePreferences w prefs ls).2
                | None => ls
                end in
      (true, ls)
  end.

End Persistence.

End storage.

(** [s.trim().split(/\s+/).filter(w => w.length > 0).length] *)
Definition wordCount (s : jsstring) : nat :=
  length (filter (λ w, (0 < len w)) (split reSpaces (trim s))).

Module versioning.

Definition getVersions (ls : localStorage) : list Version :=
  match ls !! VERSION_KEY with
  | Some (VersionsJson vs) => vs
  | Some (Text _) => []
  | None => []
  end.

(** [while (versions.length > MAX_VERSIONS) versions.pop()], run for as
    many rounds as there are versions in excess. *)
Fixpoint popExcess (rounds : nat) (versions : list Version) : list Version :=
  match rounds with
  | O => versions
  | S rounds' =>
      if Nat.ltb MAX_VERSIONS (length versions)
      then popExcess rounds' (removelast versions)
      else versions
  end.

(** What the browser supplies to one call: [Date.now()], [new
    Date().toISOString()], and whether [localStorage.setItem] goes through
    (it throws when the quota is exceeded). *)
Record env := mkEnv { now : Z; isoNow : jsstring; setItemOk : bool }.

Definition saveVersion (e : env) (content label : jsstring)
           (ls : localStorage) : option Version * localStorage :=
  let versions := getVersions ls in
  let newVersion :=
    {| v_id := now e;
       v_content := content;
       v_label := match label with
                  | [] => lit "Version " ++ ofNat (length versions + 1)
                  | _ => label
                  end;
       v_timestamp := isoNow e;
       v_wordCount := wordCount content |} in
  let versions := newVersion :: versions in
  let versions := popExcess (length versions - MAX_VERSIONS) versions in
  if setItemOk e
  then (Some newVersion, <[VERSION_KEY := VersionsJson versions]> ls)
  else (None, ls).

Definition restoreVersion (id : Z) (ls : localStorage) : option jsstring :=
  v_content <$> find (λ v, bool_decide (v_id v = id)) (getVersions ls).

Definition deleteVersion (setOk : bool) (id : Z) (ls : localStorage)
  : bool * localStorage :=
  let versions := filter (λ v, v_id v ≠ id) (getVersions ls) in
  if setOk then (true, <[VERSION_KEY := VersionsJson versions]> ls)
  else (false, ls).

End versioning.

(** ** The text-completion service *)

(** What one [fetch('/api/claude', ...)] followed by [response.json()] comes
    to.  [Rejected] is a promise that rejects or a body of another shape (the
    message is the one of the error thrown).  [HttpError] is [!response.ok]:
    [err] is [errorData.error], absent when the body does not parse or has
    no such field.  [HttpOk] carries [data.content]; an item may lack
    [text]. *)
Inductive response :=
| Rejected (message : jsstring)
| HttpError (status : nat) (err : option jsstring)
| HttpOk (items : list (option jsstring)).

(** The outcome of an [async] function: the value it resolves to or the
    message of the [Error] it throws. *)
Inductive outcome (A : Type) :=
| Return (a : A)
| Throw (message : jsstring).
Arguments Return {A} a.
Arguments Throw {A} message.

(** [a || b] on a string that may be [undefined]: the empty string is falsy
    too. *)
Definition orElse (a : option jsstring) (b : jsstring) : jsstring :=
  match a with
  | Some (c :: s) => c :: s
  | Some [] | None => b
  end.

(** [data.content.map(item => item.text || '').join(sep)] *)
Definition itemsText (sep : jsstring) (items : list (option jsstring)) : jsstring :=
  join sep ((λ item, orElse item []) <$> items).

(** ** Chunking planner and [prepareDocument] *)

Definition MAX_WORDS_PER_CHUNK : nat := 1500.

Definition blankLine : jsstring := [NL; NL].

(** [para.trim().split(/\s+/).length] *)
Definition paraWords (para : jsstring) : nat :=
  length (split reSpaces (trim para)).

Record planner := mkPlanner {
  chunks : list jsstring;
  currentChunk : list jsstring;
  currentWordCount : nat;
}.

(** One round of the loop over the paragraphs, for a budget of [W] words. *)
Definition planStep (W : nat) (p : planner) (para : jsstring) : planner :=
  let paraWords := paraWords para in
  if Nat.ltb W (currentWordCount p + paraWords)
     && Nat.ltb 0 (length (currentChunk p))
  then {| chunks := chunks p ++ [join blankLine (currentChunk p)];
          currentChunk := [para];
          currentWordCount := paraWords |}
  else {| chunks := chunks p;
          currentChunk := currentChunk p ++ [para];
          currentWordCount := currentWordCount p + paraWords |}.

(** The segments of [text] for a budget of [W] words per segment. *)
Definition planChunks (W : nat) (text : jsstring) : list jsstring :=
  let paragraphs := split reBlankLines text in
  let p := foldl (planStep W) (mkPlanner [] [] 0) paragraphs in
  if Nat.ltb 0 (length (currentChunk p))
  then chunks p ++ [join blankLine (currentChunk p)]
  else chunks p.

Definition HOURGLASS : char := 9203%N.
Definition CHECK : char := 10003%N.
Definition BULLET : char := 8226%N.
Definition ARROW : char := 8594%N.
Definition DASH : char := 8212%N.

Definition wholePrompt : jsstring :=
  lit "Please prepare this document by converting footnotes to MLA inline citations and aligning terminology with the Church Style Guide:" ++ blankLine.

Definition sectionPrompt : jsstring :=
  lit "Please prepare this section of a longer document. Convert footnotes to MLA inline citations and align terminology with the Church Style Guide. Return ONLY the transformed text:" ++ blankLine.

(** The loop over the segments.  [fetch i body] is the answer to the
    [i]-th request of the operation, whose user message is [body].  The
    first component is the list of progress messages passed to
    [onProgress], in order. *)
Fixpoint processChunks (fetch : nat → jsstring → response) (total i : nat)
         (todo processedChunks : list jsstring)
  : list jsstring * outcome jsstring :=
  match todo with
  | [] => ([], Return (join blankLine processedChunks))
  | chunk :: rest =>
      let progress :=
        lit "Processing section " ++ ofNat (i + 1) ++ lit " of "
        ++ ofNat total ++ lit "..." in
      match fetch i (sectionPrompt ++ chunk) with
      | Rejected message => ([progress], Throw message)
      | HttpError status err =>
          ([progress],
           Throw (orElse err (lit "API error: " ++ ofNat status
                              ++ lit " on section " ++ ofNat (i + 1))))
      | HttpOk items =>
          let processedText := trim (itemsText [] items) in
          let '(later, result) :=
            processChunks fetch total (i + 1) rest
                          (processedChunks ++ [processedText]) in
          (progress :: later, result)
      end
  end.

Definition prepareDocumentWith (W : nat) (fetch : nat → jsstring → response)
           (text : jsstring) : list jsstring * outcome jsstring :=
  let chunks := planChunks W text in
  if Nat.eqb (length chunks) 1
  then
    let progress := lit "Processing document..." in
    match fetch O (wholePrompt ++ text) with
    | Rejected message => ([progress], Throw message)
    | HttpError status err =>
        ([progress], Throw (orElse err (lit "API error: " ++ ofNat status)))
    | HttpOk items => ([progress], Return (trim (itemsText [] items)))
    end
  else processChunks fetch (length chunks) 0 chunks [].

Definition prepareDocument := prepareDocumentWith MAX_WORDS_PER_CHUNK.

(** ** The editor component *)

Record Suggestion := mkSuggestion {
  s_id : nat;
  s_original : jsstring;
  s_suggestion : jsstring;
  s_reason : jsstring;
  s_mode : jsstring;
  s_start : Z;
  s_end : Z;
}.

Inductive role := user | assistant.

Record ChatMessage := mkMessage { m_role : role; m_content : jsstring }.

(** The state of the component that the operations below read or write:
    the [useState] cells and the browser's [localStorage]. *)
Record Editor := mkEditor {
  content : jsstring;
  suggestions : list Suggestion;
  error : option jsstring;
  chatHistory : list ChatMessage;
  versions : list Version;
  isAnalyzing : bool;
  isPreparing : bool;
  showPrepareConfirm : bool;
  store : gmap string item;
}.

Definition setContent (c : jsstring) (st : Editor) : Editor :=
  mkEditor c (suggestions st) (error st) (chatHistory st) (versions st)
           (isAnalyzing st) (isPreparing st) (showPrepareConfirm st) (store st).
Definition setSuggestions (f : list Suggestion → list Suggestion) (st : Editor) : Editor :=
  mkEditor (content st) (f (suggestions st)) (error st) (chatHistory st) (versions st)
           (isAnalyzing st) (isPreparing st) (showPrepareConfirm st) (store st).
Definition setError (e : option jsstring) (st : Editor) : Editor :=
  mkEditor (content st) (suggestions st) e (chatHistory st) (versions st)
           (isAnalyzing st) (isPreparing st) (showPrepareConfirm st) (store st).
Definition setChatHistory (f : list ChatMessage → list ChatMessage) (st : Editor) : Editor :=
  mkEditor (content st) (suggestions st) (error st) (f (chatHistory st)) (versions st)
           (isAnalyzing st) (isPreparing st) (showPrepareConfirm st) (store st).
Definition setVersions (vs : list Version) (st : Editor) : Editor :=
  mkEditor (content st) (suggestions st) (error st) (chatHistory st) vs
           (isAnalyzing st) (isPreparing st) (showPrepareConfirm st) (store st).
Definition setIsAnalyzing (b : bool) (st : Editor) : Editor :=
  mkEditor (content st) (suggestions st) (error st) (chatHistory st) (versions st)
           b (isPreparing st) (showPrepareConfirm st) (store st).
Definition setIsPreparing (b : bool) (st : Editor) : Editor :=
  mkEditor (content st) (suggestions st) (error st) (chatHistory st) (versions st)
           (isAnalyzing st) b (showPrepareConfirm st) (store st).
Definition setShowPrepareConfirm (b : bool) (st : Editor) : Editor :=
  mkEditor (content st) (suggestions st) (error st) (chatHistory st) (versions st)
           (isAnalyzing st) (isPreparing st) b (store st).
Definition setStore (ls : gmap string item) (st : Editor) : Editor :=
  mkEditor (content st) (suggestions st) (error st) (chatHistory st) (versions st)
           (isAnalyzing st) (isPreparing st) (showPrepareConfirm st) ls.

(** [setChatHistory(prev => [...prev, {role: 'assistant', content}])] *)
Definition say (text : jsstring) : Editor → Editor :=
  setChatHistory (λ prev, prev ++ [mkMessage assistant text]).

Definition SAMPLE_TEXT : jsstring :=
  lit "Paste your chapter content here to begin editing..." ++ blankLine ++
  lit "The Words of Plainness Editorial Canvas is designed to help you refine your ministry writings with precision and care. Simply replace this text with your content and select an editorial focus area to begin.".

(** [!content.trim() || content === SAMPLE_TEXT] *)
Definition nothingToEdit (c : jsstring) : bool :=
  bool_decide (trim c = []) || bool_decide (c = SAMPLE_TEXT).

(** [newHistory[newHistory.length - 1] = m] on a copy of [prev]: on an empty
    array this sets the property [-1] and adds no element. *)
Definition replaceLast (m : ChatMessage) (prev : list ChatMessage) : list ChatMessage :=
  match prev with
  | [] => []
  | _ :: _ => removelast prev ++ [m]
  end.

Definition onProgress (progressMsg : jsstring) : Editor → Editor :=
  setChatHistory (replaceLast (mkMessage assistant (HOURGLASS :: SPACE :: progressMsg))).

Definition preparedMessage : jsstring :=
  [CHECK] ++ lit " Document prepared successfully!" ++ blankLine ++
  lit "**Changes applied:**" ++ [NL] ++
  [BULLET] ++ lit " Footnotes converted to MLA inline citations" ++ [NL] ++
  [BULLET] ++ lit " Terminology aligned with Church Style Guide (August 2018)" ++ blankLine ++
  lit "A backup of your original text was saved to version history. You can now proceed with editorial analysis using the focus areas above.".

(** [handlePrepareDocument], for a budget of [W] words per segment. *)
Definition handlePrepareDocumentWith (W : nat) (e : versioning.env)
           (fetch : nat → jsstring → response) (st : Editor) : Editor :=
  if nothingToEdit (content st)
  then setError (Some (lit "Please paste your chapter content before preparing.")) st
  else
    let text := content st in
    let st := setShowPrepareConfirm false st in
    let st := setIsPreparing true st in
    let st := setError None st in
    let st := setStore (versioning.saveVersion e text (lit "Before preparation") (store st)).2 st in
    let st := setVersions (versioning.getVersions (store st)) st in
    let st := say ([HOURGLASS] ++ lit " Preparing document: Converting footnotes to MLA inline citations and aligning terminology with Church Style Guide...") st in
    let '(progress, result) := prepareDocumentWith W fetch text in
    let st := foldl (λ st msg, onProgress msg st) st progress in
    let st :=
      match result with
      | Return preparedText =>
          say preparedMessage (setSuggestions (λ _, []) (setContent preparedText st))
      | Throw message =>
          say (lit "I encountered an issue during preparation: " ++ message ++ blankLine
               ++ lit "Your original text is unchanged. Would you like to try again?")
              (setError (Some (lit "Document preparation failed: " ++ message)) st)
      end in
    setIsPreparing false st.

Definition handlePrepareDocument := handlePrepareDocumentWith MAX_WORDS_PER_CHUNK.

(** [callClaudeAPI], from the answer to its one request. *)
Definition callClaudeAPI (r : response) : outcome jsstring :=
  match r with
  | Rejected message => Throw message
  | HttpError status err => Throw (orElse err (lit "API error: " ++ ofNat status))
  | HttpOk items => Return (itemsText [NL] items)
  end.

(** An element of the array the model is asked for. *)
Record RawSuggestion := mkRaw {
  original : jsstring;
  suggestion : jsstring;
  reason : jsstring;
  mode : jsstring;
}.

(** [preview.substring(0, 300).replace(/\n/g, ' ')] *)
Definition preview (s : jsstring) : jsstring :=
  replaceAll isNewline SPACE (substring s 0 300).

(** The callback of [parsedSuggestions.map]: [None] is [null]. *)
Definition anchor (content : jsstring) (idx : nat) (s : RawSuggestion) : option Suggestion :=
  let start := indexOf content (original s) in
  if start =? -1 then None
  else Some {| s_id := idx + 1;
               s_original := original s;
               s_suggestion := suggestion s;
               s_reason := reason s;
               s_mode := mode s;
               s_start := start;
               s_end := start + len (original s) |}.

(** [parsedSuggestions.map(...).filter(s => s !== null)] *)
Definition processSuggestions (content : jsstring) (parsed : list RawSuggestion)
  : list Suggestion :=
  omap id (imap (anchor content) parsed).

Definition analysisDone (n : nat) : jsstring :=
  if Nat.ltb 0 n
  then lit "Analysis complete. I found " ++ ofNat n ++ lit " suggestion"
       ++ (if Nat.eqb n 1 then [] else lit "s")
       ++ lit " based on your selected editorial focus areas." ++ blankLine
       ++ lit "Review them in the margin" ++ [DASH]
       ++ lit "hover over highlighted text to see the connection. Accept or dismiss each as you see fit."
  else lit "Analysis complete. The text looks strong for your selected focus areas." ++ blankLine
       ++ lit "Would you like to try different focus areas, or discuss specific aspects of the writing?".

Section Analysis.

(** [JSON.parse] is the platform's.  It is applied to text that starts with
    [[] and ends with []], so a value it returns is an array; the model
    covers arrays of suggestion objects with string fields, which is what
    the prompt asks for.  [Throw] carries [parseError.message]. *)
Variable JSON_parse : jsstring → outcome (list RawSuggestion).

(** The body of the [try] of [analyzeContent], after the service answered
    with [response]. *)
Definition extractSuggestions (content response : jsstring)
  : outcome (list Suggestion) :=
  let startBracket := indexOf response (lit "[") in
  let endBracket := lastIndexOf response (lit "]") in
  if (startBracket =? -1) || (endBracket =? -1)
  then Throw (lit "No JSON array found. Response was: " ++ [QUOTE]
              ++ preview response ++ lit "..." ++ [QUOTE])
  else
    let jsonString := substring response startBracket (endBracket + 1) in
    let jsonString := replaceAll isControl SPACE jsonString in
    match JSON_parse jsonString with
    | Throw message =>
        Throw (lit "JSON parse failed: " ++ message ++ lit ". JSON started with: "
               ++ [QUOTE] ++ preview jsonString ++ lit "..." ++ [QUOTE])
    | Return parsedSuggestions =>
        Return (processSuggestions content parsedSuggestions)
    end.

(** The text handed to [JSON.parse]: from the first [[] to the last []] of
    the response, control characters replaced by spaces. *)
Definition jsonText (response : jsstring) : jsstring :=
  replaceAll isControl SPACE
    (substring response (indexOf response (lit "[")) (lastIndexOf response (lit "]") + 1)).

(** The whole [try] of [analyzeContent]: the request, then the above. *)
Definition requestSuggestions (r : response) (content : jsstring)
  : outcome (list Suggestion) :=
  match callClaudeAPI r with
  | Throw message => Throw message
  | Return response => extractSuggestions content response
  end.

(** [analyzeContent], where [r] is the answer to its request. *)
Definition analyzeContent (r : response) (st : Editor) : Editor :=
  if nothingToEdit (content st)
  then setError (Some (lit "Please paste your chapter content before analyzing.")) st
  else
    let text := content st in
    let st := setIsAnalyzing true st in
    let st := setError None st in
    let st := setSuggestions (λ _, []) st in
    let st :=
      match requestSuggestions r text with
      | Return processedSuggestions =>
          say (analysisDone (length processedSuggestions))
              (setSuggestions (λ _, processedSuggestions) st)
      | Throw message =>
          say (lit "I encountered an issue during analysis: " ++ message)
              (setError (Some (lit "Analysis failed: " ++ message)) st)
      end in
    setIsAnalyzing false st.

End Analysis.

(** [`${s.substring(0, 50)}${s.length > 50 ? '...' : ''}`] *)
Definition excerpt (s : jsstring) : jsstring :=
  substring s 0 50 ++ (if 50 <? len s then lit "..." else []).

Definition acceptSuggestion (s : Suggestion) (st : Editor) : Editor :=
  let newContent :=
    substring (content st) 0 (s_start s) ++ s_suggestion s
    ++ substringFrom (content st) (s_end s) in
  let st := setContent newContent st in
  let st := setSuggestions (filter (λ t, s_id t ≠ s_id s)) st in
  say ([CHECK] ++ lit " Applied: " ++ [QUOTE] ++ excerpt (s_original s) ++ [QUOTE]
       ++ [SPACE; ARROW; SPACE] ++ [QUOTE] ++ excerpt (s_suggestion s) ++ [QUOTE]) st.

Definition dismissSuggestion (s : Suggestion) (st : Editor) : Editor :=
  let st := setSuggestions (filter (λ t, s_id t ≠ s_id s)) st in
  say (lit "Dismissed suggestion. Your original phrasing preserved.") st.

(** ** Rendering *)

(** The elements [renderContentWithHighlights] pushes: plain text (keyed
    [text-idx] or [text-end]) and the highlight of a suggestion. *)
Inductive span :=
| TextSpan (key : jsstring) (text : jsstring)
| Highlight (s : Suggestion) (text : jsstring).

Inductive rendered :=
| Plain (text : jsstring)
| Spans (result : list span).

(** [Array.prototype.sort] with [(a, b) => a.start - b.start]: the sort is
    stable, so the result is the one of inserting each element, from the
    last to the first, before the first element that does not start
    earlier. *)
Fixpoint insertByStart (a : Suggestion) (sorted : list Suggestion) : list Suggestion :=
  match sorted with
  | [] => [a]
  | b :: rest =>
      if s_start a <=? s_start b then a :: b :: rest
      else b :: insertByStart a rest
  end.

Definition sortByStart (l : list Suggestion) : list Suggestion :=
  foldr insertByStart [] l.

(** The [forEach] over the sorted suggestions: the spans pushed from the
    one of index [idx] on, and the final [lastIndex]. *)
Fixpoint renderLoop (content : jsstring) (idx : nat) (lastIndex : Z)
         (sorted : list Suggestion) : list span * Z :=
  match sorted with
  | [] => ([], lastIndex)
  | s :: rest =>
      let before :=
        if lastIndex <? s_start s
        then [TextSpan (lit "text-" ++ ofNat idx) (substring content lastIndex (s_start s))]
        else [] in
      let here := Highlight s (substring content (s_start s) (s_end s)) in
      let '(later, final) := renderLoop content (idx + 1) (s_end s) rest in
      (before ++ here :: later, final)
  end.

Definition renderContentWithHighlights (st : Editor) : rendered :=
  match suggestions st with
  | [] => Plain (content st)
  | _ :: _ =>
      let sortedSuggestions := sortByStart (suggestions st) in
      let '(result, lastIndex) := renderLoop (content st) 0 0 sortedSuggestions in
      Spans (result ++
             (if lastIndex <? len (content st)
              then [TextSpan (lit "text-end") (substringFrom (content st) lastIndex)]
              else []))
  end.

(** The text a span shows. *)
Definition spanText (sp : span) : jsstring :=
  match sp with
  | TextSpan _ text => text
  | Highlight _ text => text
  end.

(** The suggestions shown as highlights, in display order. *)
Definition highlightOf (sp : span) : option Suggestion :=
  match sp with
  | Highlight s _ => Some s
  | TextSpan _ _ => None
  end.

Definition highlighted (r : rendered) : list Suggestion :=
  match r with
  | Plain _ => []
  | Spans result => omap highlightOf result
  end.

(** All the text shown, in display order. *)
Definition displayedText (r : rendered) : jsstring :=
  match r with
  | Plain text => text
  | Spans result => concat (spanText <$> result)
  end.

(** Every call that writes the ledger key, with what the browser supplies
    to it, and a run of such calls. *)
Inductive ledgerCall :=
| CallSave (e : versioning.env) (content label : jsstring)
| CallDelete (setOk : bool) (id : Z).

Definition ledgerStep (ls : gmap string item) (c : ledgerCall) : gmap string item :=
  match c with
  | CallSave e content label => (versioning.saveVersion e content label ls).2
  | CallDelete setOk id => (versioning.deleteVersion setOk id ls).2
  end.

Definition runLedger (calls : list ledgerCall) (ls : gmap string item) : gmap string item :=
  foldl ledgerStep ls calls.

(** [processSuggestions] from position [k] of the array on: the elements
    are numbered [k + 1], [k + 2], ... *)
Definition processFrom (content : jsstring) (k : nat) (parsed : list RawSuggestion)
  : list Suggestion :=
  omap id (imap (λ i, anchor content (k + i)) parsed).

(** The element [raw] of the array can be anchored in [content]. *)
Definition found (content : jsstring) (raw : RawSuggestion) : Prop :=
  indexOf content (original raw) ≠ -1.

(** The suggestions, taken in the order given, lie one after the other
    between [lastIndex] and [upto]: each starts at or after the end of the
    one before and ends no earlier than it starts. *)
Fixpoint inOrderFrom (lastIndex : Z) (sorted : list Suggestion) (upto : Z) : Prop :=
  match sorted with
  | [] => lastIndex ≤ upto
  | s :: rest =>
      lastIndex ≤ s_start s ∧ s_start s ≤ s_end s ∧ inOrderFrom (s_end s) rest upto
  end.

(** The request did not succeed. *)
Definition failed (r : response) : bool :=
  match r with
  | HttpOk _ => false
  | Rejected _ | HttpError _ _ => true
  end.

(** The message of the error thrown on a request that did not succeed,
    where [fallback status] is the text used when the answer names no
    error. *)
Definition failureOf (fallback : nat → jsstring) (r : response) : option jsstring :=
  match r with
  | Rejected message => Some message
  | HttpError status err => Some (orElse err (fallback status))
  | HttpOk _ => None
  end.

(** The user message of the request for the segment [chunk], and the
    fallback error text of the request number [i]: a document of one
    segment is sent whole. *)
Definition requestBody (W : nat) (text chunk : jsstring) : jsstring :=
  if Nat.eqb (length (planChunks W text)) 1 then wholePrompt ++ text
  else sectionPrompt ++ chunk.

Definition requestFallback (W : nat) (text : jsstring) (i status : nat) : jsstring :=
  if Nat.eqb (length (planChunks W text)) 1 then lit "API error: " ++ ofNat status
  else lit "API error: " ++ ofNat status ++ lit " on section " ++ ofNat (i + 1).

(** [s] starts, or ends, with a newline. *)
Definition startsNL (s : jsstring) : bool :=
  match s with
  | c :: _ => isNewline c
  | [] => false
  end.

Fixpoint endsNL (s : jsstring) : bool :=
  match s with
  | [] => false
  | [c] => isNewline c
  | _ :: rest => endsNL rest
  end.

(** Pieces that a blank-line join keeps apart: none holds a blank line,
    none but the last ends with a newline, none but the first starts with
    one, and only the last may be empty after another piece. *)
Fixpoint joinable (pieces : list jsstring) : Prop :=
  match pieces with
  | [] => True
  | p :: rest =>
      search blankLine p = None
      ∧ match rest with
        | [] => True
        | q :: rest' =>
            endsNL p = false ∧ startsNL q = false ∧ (q = [] → rest' = [])
        end
      ∧ joinable rest
  end.

(** ** Sample data *)

Module Sample.

(** One version per call, stamped [t]. *)
Definition at_ (t : Z) : versioning.env :=
  versioning.mkEnv t (lit "2025-01-01T00:00:00.000Z") true.

Definition saves : list ledgerCall :=
  [CallSave (at_ 1) (lit "one") [];
   CallSave (at_ 2) (lit "one two") [];
   CallSave (at_ 3) (lit "three") [];
   CallSave (at_ 4) (lit "four") [];
   CallSave (at_ 5) (lit "five") []].

(** The store after five saves, with some content saved too. *)
Definition fiveSaved : gmap string item :=
  <[STORAGE_KEYS.CONTENT := Text (lit "five")]> (runLedger saves ∅).

Definition blank : Editor :=
  mkEditor [] [] None [] [] false false false ∅.

Definition fooDocument : jsstring := lit "A foo B foo C".

Definition fooToQuux : Suggestion :=
  mkSuggestion 1 (lit "foo") (lit "quux") (lit "x") (lit "clarity") 2 5.

Definition lastLetter : Suggestion :=
  mkSuggestion 2 (lit "C") (lit "D") (lit "y") (lit "clarity") 12 13.

Definition fooEditor : Editor :=
  setSuggestions (λ _, [fooToQuux; lastLetter]) (setContent fooDocument blank).

(** JSON text of an array of suggestion objects. *)
Definition quoted (s : jsstring) : jsstring := [QUOTE] ++ s ++ [QUOTE].

Definition jsonObject (raw : RawSuggestion) : jsstring :=
  lit "{" ++ quoted (lit "original") ++ lit ":" ++ quoted (original raw)
  ++ lit "," ++ quoted (lit "suggestion") ++ lit ":" ++ quoted (suggestion raw)
  ++ lit "," ++ quoted (lit "reason") ++ lit ":" ++ quoted (reason raw)
  ++ lit "," ++ quoted (lit "mode") ++ lit ":" ++ quoted (mode raw) ++ lit "}".

Definition jsonArray (arr : list RawSuggestion) : jsstring :=
  lit "[" ++ join (lit ",") (jsonObject <$> arr) ++ lit "]".

(** A [JSON.parse] that knows one text, the JSON of [arr]. *)
Definition parseOnly (arr : list RawSuggestion) (text : jsstring)
  : outcome (list RawSuggestion) :=
  if bool_decide (text = jsonArray arr) then Return arr
  else Throw (lit "Unexpected token").

Definition fooToBar : RawSuggestion :=
  mkRaw (lit "foo") (lit "bar") (lit "x") (lit "clarity").

Definition missing : RawSuggestion :=
  mkRaw (lit "zzz") (lit "yyy") (lit "x") (lit "clarity").

(** The service answering with the JSON of [arr] in one text item. *)
Definition answering (arr : list RawSuggestion) : response :=
  HttpOk [Some (jsonArray arr)].

(** Two suggestions whose texts overlap in the document. *)
Definition overlapDocument : jsstring := lit "abcdef".

Definition overlapping : list RawSuggestion :=
  [mkRaw (lit "abcd") (lit "ABCD") (lit "x") (lit "clarity");
   mkRaw (lit "cdef") (lit "CDEF") (lit "y") (lit "tone")].

Definition overlapEditor : Editor :=
  analyzeContent (parseOnly overlapping) (answering overlapping)
                 (setContent overlapDocument blank).

(** Three paragraphs, the first separator being three newlines. *)
Definition threeParagraphs : jsstring :=
  lit "a b" ++ [NL; NL; NL] ++ lit "c d e f" ++ blankLine ++ lit "g".

Definition plainParagraphs : jsstring :=
  lit "a b" ++ blankLine ++ lit "c d e f" ++ blankLine ++ lit "g".

(** A service that is overloaded at its second request. *)
Definition secondFails (i : nat) (body : jsstring) : response :=
  if Nat.eqb i 1 then HttpError 529 None else HttpOk [Some body].

End Sample.

(** ** Further definitions *)

(** The words of a group of paragraphs, as the planner counts them. *)
Definition groupWords (g : list jsstring) : nat := sum_list (paraWords <$> g).

(** Each group is closed only because the first paragraph of the next one
    did not fit. *)
Fixpoint packed (W : nat) (groups : list (list jsstring)) : Prop :=
  match groups with
  | [] => True
  | g :: rest =>
      match rest with
      | (para :: _) :: _ => (W < groupWords g + paraWords para)%nat
      | _ => True
      end
      ∧ packed W rest
  end.

(** The text [prepareDocument] keeps of an answer. *)
Definition answerOf (r : response) : jsstring :=
  match r with
  | HttpOk items => trim (itemsText [] items)
  | Rejected _ | HttpError _ _ => []
  end.

(** The contents saved by a run of ledger calls, oldest first, and the
    runs made of saves whose write goes through. *)
Definition savedContents (calls : list ledgerCall) : list jsstring :=
  omap (λ c, match c with
             | CallSave _ content _ => Some content
             | CallDelete _ _ => None
             end) calls.

Definition savedOk (c : ledgerCall) : Prop :=
  match c with
  | CallSave e _ _ => versioning.setItemOk e = true
  | CallDelete _ _ => False
  end.

(** ** The rest of the editor component *)

Definition WELCOME_MESSAGE : ChatMessage :=
  mkMessage assistant
    (lit "Welcome to your Words of Plainness Editorial Canvas, Aaron. I'm here to help you refine your ministry writings."
     ++ blankLine
     ++ lit "**First-pass preparation:** When you paste new content, click "
     ++ [QUOTE] ++ lit "Prepare Document" ++ [QUOTE] ++ lit " to automatically:" ++ [NL]
     ++ [BULLET] ++ lit " Convert footnotes to MLA inline citations" ++ [NL]
     ++ [BULLET] ++ lit " Align terminology with the Church Style Guide (August 2018)"
     ++ blankLine
     ++ lit "After preparation, select editorial focus areas and click "
     ++ [QUOTE] ++ lit "Analyze" ++ [QUOTE]
     ++ lit " for nuanced suggestions. Your work auto-saves continuously.").

(** The preferences that are saved: [{ activeModes }]. *)
Record Preferences := mkPreferences { p_activeModes : list jsstring }.

(** The component's state: the cells of [Editor] and the other [useState]
    cells that the operations below read or write. *)
Record Session := mkSession {
  editor : Editor;
  activeModes : list jsstring;
  chatInput : jsstring;
  isChatLoading : bool;
  showExportMenu : bool;
  showVersionMenu : bool;
}.

Definition setEditor (f : Editor → Editor) (s : Session) : Session :=
  mkSession (f (editor s)) (activeModes s) (chatInput s) (isChatLoading s)
            (showExportMenu s) (showVersionMenu s).
Definition setActiveModes (f : list jsstring → list jsstring) (s : Session) : Session :=
  mkSession (editor s) (f (activeModes s)) (chatInput s) (isChatLoading s)
            (showExportMenu s) (showVersionMenu s).
Definition setChatInput (text : jsstring) (s : Session) : Session :=
  mkSession (editor s) (activeModes s) text (isChatLoading s)
            (showExportMenu s) (showVersionMenu s).
Definition setIsChatLoading (b : bool) (s : Session) : Session :=
  mkSession (editor s) (activeModes s) (chatInput s) b
            (showExportMenu s) (showVersionMenu s).
Definition setShowExportMenu (b : bool) (s : Session) : Session :=
  mkSession (editor s) (activeModes s) (chatInput s) (isChatLoading s)
            b (showVersionMenu s).
Definition setShowVersionMenu (b : bool) (s : Session) : Session :=
  mkSession (editor s) (activeModes s) (chatInput s) (isChatLoading s)
            (showExportMenu s) b.

(** The initial values of the [useState] cells, read from the store. *)
Definition initialSession `{!Json ChatMessage Preferences} (ls : gmap string item)
  : Session :=
  {| editor :=
       {| content := match storage.loadContent ls with
                     | Some saved => saved
                     | None => SAMPLE_TEXT
                     end;
          suggestions := [];
          error := None;
          chatHistory := match storage.loadChatHistory ls with
                         | Some saved => saved
                         | None => [WELCOME_MESSAGE]
                         end;
          versions := versioning.getVersions ls;
          isAnalyzing := false;
          isPreparing := false;
          showPrepareConfirm := false;
          store := ls |};
     activeModes := match storage.loadPreferences ls with
                    | Some {| p_activeModes := modes |} => modes
                    | None => [lit "clarity"]
                    end;
     chatInput := [];
     isChatLoading := false;
     showExportMenu := false;
     showVersionMenu := false |}.

(** [prev.includes(modeId) ? prev.filter(m => m !== modeId) : [...prev, modeId]] *)
Definition toggled (modeId : jsstring) (prev : list jsstring) : list jsstring :=
  if bool_decide (modeId ∈ prev)
  then filter (λ m, m ≠ modeId) prev
  else prev ++ [modeId].

Definition toggleMode (modeId : jsstring) : Session → Session :=
  setActiveModes (toggled modeId).

(** [saveVersion] of the component; [label] is what [prompt] returned,
    [None] when the dialog was cancelled. *)
Definition saveVersion (e : versioning.env) (label : option jsstring) (st : Editor)
  : Editor :=
  match label with
  | None => st
  | Some label =>
      match versioning.saveVersion e (content st) label (store st) with
      | (Some newVersion, ls) =>
          say ([CHECK] ++ lit " Saved version: " ++ [QUOTE] ++ v_label newVersion
               ++ [QUOTE] ++ lit " (" ++ ofNat (v_wordCount newVersion) ++ lit " words)")
              (setVersions (versioning.getVersions ls) (setStore ls st))
      | (None, ls) => setStore ls st
      end
  end.

(** [restoreVersion] of the component: an empty content is falsy. *)
Definition restoreVersion (id : Z) (s : Session) : Session :=
  match versioning.restoreVersion id (store (editor s)) with
  | Some (c :: rest) =>
      setEditor (say ([CHECK] ++ lit " Version restored."))
        (setShowVersionMenu false
           (setEditor (λ st, setSuggestions (λ _, []) (setContent (c :: rest) st)) s))
  | Some [] | None => s
  end.

(** [startNewDocument]; [confirmClear] is the answer to [window.confirm],
    asked only when there is work to lose. *)
Definition startNewDocument `{!Json ChatMessage Preferences} (confirmClear : bool)
           (e : versioning.env) (w : storage.writes) (st : Editor) : Editor :=
  let unsaved :=
    negb (bool_decide (content st = SAMPLE_TEXT))
    && negb (bool_decide (trim (content st) = [])) in
  if unsaved && negb confirmClear then st
  else
    let st :=
      if unsaved
      then
        let ls := (versioning.saveVersion e (content st)
                     (lit "Auto-save before new document") (store st)).2 in
        setVersions (versioning.getVersions ls) (setStore ls st)
      else st in
    let st := setContent SAMPLE_TEXT st in
    let st := setSuggestions (λ _, []) st in
    let st := setChatHistory (λ _, [WELCOME_MESSAGE]) st in
    let st := setError None st in
    let st := setStore (storage.saveContent w [] (store st)).2 st in
    setStore (storage.saveChatHistory w [WELCOME_MESSAGE] (store st)).2 st.

#[global] Instance role_eq_dec : EqDecision role.
Proof. solve_decision. Defined.

(** The system prompt of the chat: it quotes at most the first 3000
    characters of the document. *)
Definition chatSystemPrompt (content : jsstring) (pending : nat) : jsstring :=
  lit "You are an editorial collaborator helping Aaron refine his religious ministry writings for "
  ++ [QUOTE] ++ lit "Words of Plainness." ++ [QUOTE] ++ blankLine
  ++ lit "Context about Aaron:" ++ [NL]
  ++ lit "- Retired high school science teacher with 26 years experience" ++ [NL]
  ++ lit "- Ordained Elder in the Melchizedek Priesthood" ++ [NL]
  ++ lit "- Full-time RV traveling minister providing interfaith dialogue" ++ [NL]
  ++ lit "- Combines scientific background with spiritual insight" ++ blankLine
  ++ lit "The current document being edited:" ++ [NL]
  ++ [QUOTE; QUOTE; QUOTE] ++ [NL]
  ++ substring content 0 3000
  ++ (if 3000 <? len content then lit "...[truncated]" else []) ++ [NL]
  ++ [QUOTE; QUOTE; QUOTE] ++ blankLine
  ++ lit "Current suggestions pending: " ++ ofNat pending ++ blankLine
  ++ lit "Be conversational, warm, and collaborative. Offer specific editorial guidance when asked.".

(** The messages sent with a chat request: the last ten of the history,
    then the user's. *)
Definition conversationMessages (history : list ChatMessage) (userMessage : jsstring)
  : list ChatMessage :=
  let kept := filter (λ m, m_role m = user ∨ m_role m = assistant) history in
  let recent := drop (length kept - 10) kept in
  ((λ m, mkMessage (m_role m) (m_content m)) <$> recent)
  ++ [mkMessage user userMessage].

(** [handleChatSubmit]; [service messages systemPrompt] is the answer to
    the request. *)
Definition handleChatSubmit (service : list ChatMessage → jsstring → response)
           (s : Session) : Session :=
  if bool_decide (trim (chatInput s) = []) || isChatLoading s then s
  else
    let userMessage := trim (chatInput s) in
    let systemPrompt :=
      chatSystemPrompt (content (editor s)) (length (suggestions (editor s))) in
    let messages := conversationMessages (chatHistory (editor s)) userMessage in
    let s := setChatInput [] s in
    let s := setEditor (setChatHistory (λ prev, prev ++ [mkMessage user userMessage])) s in
    let s := setIsChatLoading true s in
    let s :=
      match callClaudeAPI (service messages systemPrompt) with
      | Return response =>
          setEditor (setChatHistory (λ prev, prev ++ [mkMessage assistant response])) s
      | Throw message =>
          setEditor (setChatHistory (λ prev, prev ++
            [mkMessage assistant
               (lit "I had trouble processing that request: " ++ message)])) s
      end in
    setIsChatLoading false s.

(** ** Export *)

Definition BACKSLASH : char := 92%N.
Definition LBRACE : char := 123%N.
Definition RBRACE : char := 125%N.

(** [s.replace(/c/g, by)] for one character [c]. *)
Definition replaceChar (c : char) (by_ : jsstring) (s : jsstring) : jsstring :=
  s ≫= (λ d, if (d =? c)%N then by_ else [d]).

Definition escapeRtf (text : jsstring) : jsstring :=
  replaceChar NL (lit "\par" ++ [NL])
    (replaceChar RBRACE [BACKSLASH; RBRACE]
       (replaceChar LBRACE [BACKSLASH; LBRACE]
          (replaceChar BACKSLASH [BACKSLASH; BACKSLASH] text))).

(** The separator ["\n"] of [content.split('\n')]. *)
Definition reNewline (s : jsstring) : nat :=
  match s with
  | c :: _ => if isNewline c then 1%nat else O
  | [] => O
  end.

(** The paragraph of the RTF body made from one line. *)
Definition rtfLine (line : jsstring) : jsstring :=
  let trimmed := trim line in
  if startsWith (lit "# ") trimmed
  then lit "{\pard\sb400\sa200\b\fs36 " ++ escapeRtf (substringFrom trimmed 2)
       ++ lit "\b0\par}" ++ [NL]
  else if startsWith (lit "## ") trimmed
  then lit "{\pard\sb300\sa150\b\fs28 " ++ escapeRtf (substringFrom trimmed 3)
       ++ lit "\b0\par}" ++ [NL]
  else if startsWith (lit "### ") trimmed
  then lit "{\pard\sb240\sa120\b\fs24 " ++ escapeRtf (substringFrom trimmed 4)
       ++ lit "\b0\par}" ++ [NL]
  else if startsWith [BULLET; SPACE] trimmed || startsWith (lit "- ") trimmed
          || startsWith (lit "* ") trimmed
  then lit "{\pard\li720\sa120 \bullet  " ++ escapeRtf (substringFrom trimmed 2)
       ++ lit "\par}" ++ [NL]
  else if bool_decide (trimmed = [])
  then lit "{\pard\sa200\par}" ++ [NL]
  else lit "{\pard\sa200\sl360\slmult1\qj " ++ escapeRtf line ++ lit "\par}" ++ [NL].

Definition rtfBody (content : jsstring) : jsstring :=
  foldl (λ rtfBody line, rtfBody ++ rtfLine line) [] (split reNewline content).

Definition rtfContent (content : jsstring) : jsstring :=
  lit "{\rtf1\ansi\deff0" ++ [NL]
  ++ lit "{\fonttbl{\f0\froman Georgia;}{\f1\fswiss Arial;}}" ++ [NL]
  ++ lit "{\colortbl;\red44\green36\blue22;}" ++ [NL]
  ++ lit "\paperw12240\paperh15840" ++ [NL]
  ++ lit "\margl1440\margr1440\margt1440\margb1440" ++ [NL]
  ++ lit "\f0\fs24\cf1" ++ [NL]
  ++ rtfBody content ++ [NL]
  ++ lit "}".

(** The element of the HTML body made from one line; a blank line gives
    the empty string, which is filtered out. *)
Definition htmlLine (line : jsstring) : jsstring :=
  let trimmed := trim line in
  if startsWith (lit "# ") trimmed
  then lit "<h1>" ++ substringFrom trimmed 2 ++ lit "</h1>"
  else if startsWith (lit "## ") trimmed
  then lit "<h2>" ++ substringFrom trimmed 3 ++ lit "</h2>"
  else if startsWith (lit "### ") trimmed
  then lit "<h3>" ++ substringFrom trimmed 4 ++ lit "</h3>"
  else if bool_decide (trimmed = []) then []
  else lit "<p>" ++ line ++ lit "</p>".

Definition htmlContent (content : jsstring) : jsstring :=
  join [NL] (filter (λ line, line ≠ []) (htmlLine <$> split reNewline content)).

Definition htmlDocument (content : jsstring) : jsstring :=
  lit "<!DOCTYPE html>" ++ [NL]
  ++ lit "<html lang=" ++ [QUOTE] ++ lit "en" ++ [QUOTE] ++ lit ">" ++ [NL]
  ++ lit "<head>" ++ [NL]
  ++ lit "  <meta charset=" ++ [QUOTE] ++ lit "UTF-8" ++ [QUOTE] ++ lit ">" ++ [NL]
  ++ lit "  <title>Words of Plainness</title>" ++ [NL]
  ++ lit "  <style>" ++ [NL]
  ++ lit "    body { font-family: Georgia, serif; max-width: 750px; margin: 60px auto; padding: 0 24px; line-height: 1.8; color: #2c2416; }" ++ [NL]
  ++ lit "    h1, h2, h3 { font-weight: 600; margin-top: 1.5em; }" ++ [NL]
  ++ lit "    p { margin-bottom: 1em; text-align: justify; }" ++ [NL]
  ++ lit "  </style>" ++ [NL]
  ++ lit "</head>" ++ [NL]
  ++ lit "<body>" ++ [NL]
  ++ htmlContent content ++ [NL]
  ++ lit "</body>" ++ [NL]
  ++ lit "</html>".

(** The file handed to the browser for download. *)
Record download := mkDownload {
  filename : jsstring;
  mimeType : jsstring;
  exportData : jsstring;
}.

Definition exportContent (format : jsstring) (s : Session) : download * Session :=
  let s := setShowExportMenu false s in
  let content := content (editor s) in
  if bool_decide (format = lit "docx") || bool_decide (format = lit "gdocs")
  then
    (mkDownload (lit "words-of-plainness-edited.rtf") (lit "application/rtf")
                (rtfContent content),
     setEditor (say (if bool_decide (format = lit "gdocs")
                     then [CHECK] ++ lit " RTF file created. Upload to Google Drive and open with Docs."
                     else [CHECK] ++ lit " RTF file created. Opens in Word, Pages, or LibreOffice.")) s)
  else
    let filename := lit "words-of-plainness-edited." ++ format in
    if bool_decide (format = lit "html")
    then (mkDownload filename (lit "text/html") (htmlDocument content), s)
    else (mkDownload filename (lit "text/plain") content, s).

(** The RTF reading of a text: a backslash takes the next character with
    it, an opening brace goes one group deeper, a closing brace one group
    up.  [None] is a closing brace met outside every group. *)
Fixpoint rtfScan (escaped : bool) (depth : nat) (s : jsstring) : option (bool * nat) :=
  match s with
  | [] => Some (escaped, depth)
  | c :: rest =>
      if escaped then rtfScan false depth rest
      else if (c =? BACKSLASH)%N then rtfScan true depth rest
      else if (c =? LBRACE)%N then rtfScan false (S depth) rest
      else if (c =? RBRACE)%N
           then match depth with
                | S depth' => rtfScan false depth' rest
                | O => None
                end
      else rtfScan false depth rest
  end.

(** The inverse of [escapeRtf] on what it produces. *)
Fixpoint unescapeRtf (fuel : nat) (s : jsstring) : jsstring :=
  match fuel with
  | O => []
  | S fuel' =>
      match s with
      | [] => []
      | c :: rest =>
          if (c =? BACKSLASH)%N
          then match rest with
               | d :: rest' =>
                   if (d =? 112)%N
                   then NL :: unescapeRtf fuel' (drop 3 rest')
                   else d :: unescapeRtf fuel' rest'
               | [] => []
               end
          else c :: unescapeRtf fuel' rest
      end
  end.

(** ** The operations of a session *)

(** What the user and the browser can make happen, each with what the
    platform supplies to it.  The three auto-saves are the debounced writes
    of [autoSaveContent], [autoSaveChatHistory] and [autoSavePreferences]:
    each writes, when its timer fires, a value it was called with. *)
Inductive action `{!Json ChatMessage Preferences} :=
| Typing (text : jsstring)
| AutoSave (w : storage.writes) (text : jsstring)
| AutoSaveChatHistory (w : storage.writes) (history : list ChatMessage)
| AutoSavePreferences (w : storage.writes) (prefs : Preferences)
| ToggleMode (modeId : jsstring)
| Analyze (JSON_parse : jsstring → outcome (list RawSuggestion)) (r : response)
| Prepare (e : versioning.env) (fetch : nat → jsstring → response)
| Accept (s : Suggestion)
| Dismiss (s : Suggestion)
| ClearSuggestions
| Chat (text : jsstring) (service : list ChatMessage → jsstring → response)
| SaveVersion (e : versioning.env) (label : option jsstring)
| RestoreVersion (id : Z)
| NewDocument (confirmClear : bool) (e : versioning.env) (w : storage.writes)
| Export (format : jsstring).

Definition step `{!Json ChatMessage Preferences} (s : Session) (a : action) : Session :=
  match a with
  | Typing text => setEditor (setContent text) s
  | AutoSave w text =>
      setEditor (λ st, setStore (storage.saveContent w text (store st)).2 st) s
  | AutoSaveChatHistory w history =>
      setEditor (λ st, setStore (storage.saveChatHistory w history (store st)).2 st) s
  | AutoSavePreferences w prefs =>
      setEditor (λ st, setStore (storage.savePreferences w prefs (store st)).2 st) s
  | ToggleMode modeId => toggleMode modeId s
  | Analyze JSON_parse r => setEditor (analyzeContent JSON_parse r) s
  | Prepare e fetch => setEditor (handlePrepareDocument e fetch) s
  | Accept sg => setEditor (acceptSuggestion sg) s
  | Dismiss sg => setEditor (dismissSuggestion sg) s
  | ClearSuggestions => setEditor (setSuggestions (λ _, [])) s
  | Chat text service => handleChatSubmit service (setChatInput text s)
  | SaveVersion e label => setEditor (saveVersion e label) s
  | RestoreVersion id => restoreVersion id s
  | NewDocument confirmClear e w => setEditor (startNewDocument confirmClear e w) s
  | Export format => (exportContent format s).2
  end.

Definition run `{!Json ChatMessage Preferences} (actions : list action) (s : Session)
  : Session :=
  foldl step s actions.

(** What the operations keep true of the editor: the version list shown is
    the stored ledger, and no two suggestions share an id. *)
Definition consistent (st : Editor) : Prop :=
  versions st = versioning.getVersions (store st)
  ∧ NoDup (s_id <$> suggestions st).

(** What the chat shows for the outcome of its request. *)
Definition chatAnswer (o : outcome jsstring) : jsstring :=
  match o with
  | Return response => response
  | Throw message => lit "I had trouble processing that request: " ++ message
  end.

(** What the four replacements of [escapeRtf] make of one character. *)
Definition escapeChar (c : char) : jsstring :=
  if (c =? BACKSLASH)%N then [BACKSLASH; BACKSLASH]
  else if (c =? LBRACE)%N then [BACKSLASH; LBRACE]
  else if (c =? RBRACE)%N then [BACKSLASH; RBRACE]
  else if (c =? NL)%N then lit "\par" ++ [NL]
  else [c].

(** ** More sample data *)

Module Scenario.

(** A document of spaces only. *)
Definition spaces : Editor := setContent (lit "   ") Sample.blank.

(** A service that answers every request with the same text. *)
Definition answersOk (i : nat) (body : jsstring) : response :=
  HttpOk [Some (lit "ok")].

Definition threeParagraphs : Editor := setContent Sample.plainParagraphs Sample.blank.

(** The suggestion an analysis of "A foo B foo C" anchors for "foo". *)
Definition fooToBarAnchored : Suggestion :=
  mkSuggestion 1 (lit "foo") (lit "bar") (lit "x") (lit "clarity") 2 5.

(** Every write goes through. *)
Definition allWrites : storage.writes :=
  storage.mkWrites (lit "2025-01-01T00:00:00.000Z") true true true true.

(** Fifty-one messages, and the fifty that are kept of them. *)
Definition again : ChatMessage := mkMessage assistant (lit "again").

Definition longChat : list ChatMessage :=
  mkMessage user (lit "first") :: replicate 50 again.

#[global] Instance ChatMessage_eq_dec : EqDecision ChatMessage.
Proof. solve_decision. Defined.

(** A [JSON] that knows one chat history and the text it is written as. *)
Definition knowing (history : list ChatMessage) (text : jsstring)
  : Json ChatMessage Preferences :=
  {| stringifyVersions := λ _, lit "[]";
     stringifyHistory := λ h, if bool_decide (h = history) then text else lit "null";
     parseHistory := λ t, if bool_decide (t = text) then Some history else None;
     stringifyPreferences := λ _, lit "{}";
     parsePreferences := λ _, None |}.

(** A session on "A foo B foo C" with the version menu open. *)
Definition shown : Session :=
  mkSession Sample.fooEditor [lit "clarity"] [] false false true.

End Scenario.

(** * Properties *)

(** ** The version ledger and [clearAll] *)

Section Ledger.
Import versioning.
Local Open Scope nat_scope.

Lemma getVersions_insert vs (ls : gmap string item) :
  getVersions (<[VERSION_KEY := VersionsJson vs]> ls) = vs.
Proof. unfold getVersions. by rewrite lookup_insert_eq. Qed.

Lemma popExcess_take rounds (vs : list Version) :
  length vs - MAX_VERSIONS ≤ rounds →
  popExcess rounds vs = take MAX_VERSIONS vs.
Proof.
  revert vs. induction rounds as [|rounds IH]; intros vs Hle; simpl.
  - symmetry. apply take_ge. lia.
  - destruct (Nat.ltb_spec MAX_VERSIONS (length vs)) as [Hlt|Hge].
    + rewrite IH.
      * rewrite removelast_firstn_len, take_take. f_equal. lia.
      * rewrite removelast_firstn_len, length_take. lia.
    + symmetry. apply take_ge. lia.
Qed.

Lemma saveVersion_ok e content label (ls : gmap string item) :
  setItemOk e = true →
  ∃ v, saveVersion e content label ls
       = (Some v, <[VERSION_KEY := VersionsJson (take MAX_VERSIONS (v :: getVersions ls))]> ls)
       ∧ v_content v = content ∧ v_id v = now e.
Proof.
  intros Hok. unfold saveVersion. rewrite Hok.
  rewrite popExcess_take by lia.
  eexists. split; [reflexivity|]. split; reflexivity.
Qed.

Lemma saveVersion_failed e content label (ls : gmap string item) :
  setItemOk e = false → saveVersion e content label ls = (None, ls).
Proof. intros Hko. unfold saveVersion. by rewrite Hko. Qed.

Lemma ledgerStep_bound (ls : gmap string item) c :
  length (getVersions ls) ≤ MAX_VERSIONS →
  length (getVersions (ledgerStep ls c)) ≤ MAX_VERSIONS.
Proof.
  intros Hle. destruct c as [e content label|setOk id]; simpl.
  - destruct (setItemOk e) eqn:Hok.
    + destruct (saveVersion_ok e content label ls Hok) as (v & -> & _).
      cbn [snd]. rewrite getVersions_insert, length_take. lia.
    + by rewrite saveVersion_failed.
  - unfold deleteVersion. destruct setOk; simpl; [|done].
    rewrite getVersions_insert.
    etrans; [apply length_filter|done].
Qed.

Lemma runLedger_bound calls (ls : gmap string item) :
  length (getVersions ls) ≤ MAX_VERSIONS →
  length (getVersions (runLedger calls ls)) ≤ MAX_VERSIONS.
Proof.
  revert ls. induction calls as [|c calls IH]; intros ls Hle; [done|].
  simpl. apply IH. by apply ledgerStep_bound.
Qed.

(** C7. A [saveVersion] call whose write goes through puts the new version
    first and leaves at most [MAX_VERSIONS] = 5 versions: the ledger becomes
    the first five of the new version followed by the old ones, so with five
    already held exactly the last (oldest) one is evicted.  A call whose
    write fails leaves the store as it was.  Hence no run of calls that
    write the ledger, started from an empty store, ever leaves more than
    five versions. *)
Theorem saveVersion_keeps_five e content label (ls : gmap string item) :
  let r := saveVersion e content label ls in
  let old := getVersions ls in
  (setItemOk e = true →
   ∃ v, r.1 = Some v ∧ v_content v = content
        ∧ getVersions r.2 = take MAX_VERSIONS (v :: old)
        ∧ head (getVersions r.2) = Some v
        ∧ length (getVersions r.2) ≤ 5
        ∧ (length old = 5 → getVersions r.2 = v :: removelast old))
  ∧ (setItemOk e = false → r = (None, ls))
  ∧ (length old ≤ 5 → length (getVersions r.2) ≤ 5)
  ∧ (∀ calls, length (getVersions (runLedger calls ∅)) ≤ 5).
Proof.
  intros r old. repeat split.
  - intros Hok. destruct (saveVersion_ok e content label ls Hok) as (v & Hr & Hc & _).
    exists v. subst r. rewrite Hr. cbn [fst snd]. rewrite getVersions_insert.
    fold old. change (take MAX_VERSIONS (v :: old)) with (v :: take 4 old).
    repeat split; try done.
    + cbn [length]. rewrite length_take. lia.
    + intros Hlen. f_equal. rewrite removelast_firstn_len. f_equal. lia.
  - apply saveVersion_failed.
  - intros Hle. apply (ledgerStep_bound ls (CallSave e content label) Hle).
  - intros calls. apply (runLedger_bound calls ∅). unfold getVersions.
    rewrite lookup_empty. simpl. lia.
Qed.

End Ledger.

Lemma VERSION_KEY_not_cleared : VERSION_KEY ∉ STORAGE_KEYS.values.
Proof.
  unfold STORAGE_KEYS.values. rewrite !not_elem_of_cons.
  repeat split; [discriminate..|apply not_elem_of_nil].
Qed.

Lemma clearAll_lookup (ls : gmap string item) (k : string) :
  (storage.clearAll ls).2 !! k
  = if bool_decide (k ∈ STORAGE_KEYS.values) then None else ls !! k.
Proof.
  unfold storage.clearAll, STORAGE_KEYS.values. cbn [foldl snd].
  rewrite !lookup_delete.
  case_bool_decide as Hin.
  - rewrite !elem_of_cons, elem_of_nil in Hin.
    destruct Hin as [->|[->|[->|[->|[]]]]]; repeat case_decide; done.
  - rewrite !not_elem_of_cons in Hin.
    destruct Hin as (? & ? & ? & ? & _); repeat case_decide; congruence.
Qed.

(** C10. [clearAll] removes the content, chat-history, preferences and
    last-saved keys and nothing else: the entry under the ledger key, and so
    the list of saved versions, is the same after it. *)
Theorem clearAll_keeps_ledger (ls : gmap string item) :
  let ls' := (storage.clearAll ls).2 in
  ls' !! VERSION_KEY = ls !! VERSION_KEY
  ∧ versioning.getVersions ls' = versioning.getVersions ls
  ∧ (∀ k, k ∈ STORAGE_KEYS.values → ls' !! k = None)
  ∧ (∀ k, k ∉ STORAGE_KEYS.values → ls' !! k = ls !! k).
Proof.
  intros ls'. subst ls'.
  assert (Hv : (storage.clearAll ls).2 !! VERSION_KEY = ls !! VERSION_KEY).
  { rewrite clearAll_lookup.
    by rewrite bool_decide_eq_false_2 by apply VERSION_KEY_not_cleared. }
  split; [done|]. split.
  - unfold versioning.getVersions. by rewrite Hv.
  - split; intros k Hk; rewrite clearAll_lookup.
    + by rewrite bool_decide_eq_true_2.
    + by rewrite bool_decide_eq_false_2.
Qed.

(** ** Joining and splitting *)

Section JoinSplit.
Local Open Scope nat_scope.
Implicit Types (sep piece s : list N) (parts : list (list N)).

Lemma join_cons sep p parts :
  parts ≠ [] → join sep (p :: parts) = p ++ sep ++ join sep parts.
Proof. destruct parts; [done|reflexivity]. Qed.

Lemma join_app sep parts1 parts2 :
  parts1 ≠ [] → parts2 ≠ [] →
  join sep (parts1 ++ parts2) = join sep parts1 ++ sep ++ join sep parts2.
Proof.
  intros H1 H2. induction parts1 as [|p [|q rest] IH]; [done| |].
  - simpl app at 1. by rewrite join_cons.
  - rewrite <- app_comm_cons, join_cons by done.
    rewrite IH by done. rewrite (join_cons sep p (q :: rest)) by done.
    by rewrite <- !app_assoc.
Qed.

Lemma join_concat sep (groups : list (list (list N))) :
  Forall (λ g, g ≠ []) groups →
  join sep (join sep <$> groups) = join sep (concat groups).
Proof.
  induction 1 as [|g groups Hg Hall IH]; [done|].
  destruct groups as [|g' groups].
  - simpl. by rewrite app_nil_r.
  - rewrite fmap_cons, join_cons by done. rewrite IH.
    change (concat (g :: g' :: groups)) with (g ++ concat (g' :: groups)).
    rewrite join_app; [done..|].
    inversion Hall as [|? ? Hg' _]; subst. simpl. destruct g'; done.
Qed.

Lemma splitLoop_nonempty matchAt skip piece s : splitLoop matchAt skip piece s ≠ [].
Proof.
  revert skip piece. induction s as [|c rest IH]; intros skip piece; simpl; [done|].
  destruct skip; [|apply IH]. destruct (matchAt (c :: rest)); [apply IH|done].
Qed.

(** A match of [k] characters is stepped over. *)
Lemma splitLoop_skip matchAt skip piece s :
  splitLoop matchAt skip piece s = splitLoop matchAt 0 piece (drop skip s).
Proof.
  revert skip. induction s as [|c rest IH]; intros [|skip]; try reflexivity.
  simpl splitLoop at 1. rewrite IH. reflexivity.
Qed.

(** The piece that is open goes in front of the first piece to come. *)
Lemma splitLoop_piece matchAt skip piece s :
  splitLoop matchAt skip piece s
  = match splitLoop matchAt skip [] s with
    | first :: later => (piece ++ first) :: later
    | [] => []
    end.
Proof.
  revert skip piece. induction s as [|c rest IH]; intros skip piece; simpl.
  - by rewrite app_nil_r.
  - destruct skip; [|apply IH]. destruct (matchAt (c :: rest)).
    + rewrite IH. rewrite (IH 0 [c]).
      pose proof (splitLoop_nonempty matchAt 0 [] rest) as Hne.
      destruct (splitLoop matchAt 0 [] rest); [done|]. by rewrite <- app_assoc.
    + by rewrite app_nil_r.
Qed.

Lemma join_splitLoop_piece sep matchAt skip piece s :
  join sep (splitLoop matchAt skip piece s)
  = piece ++ join sep (splitLoop matchAt skip [] s).
Proof.
  rewrite splitLoop_piece.
  pose proof (splitLoop_nonempty matchAt skip [] s) as Hne.
  destruct (splitLoop matchAt skip [] s) as [|first [|second later]]; [done|done|].
  rewrite !join_cons by done. by rewrite <- app_assoc.
Qed.

Lemma split_no_match matchAt c rest :
  matchAt (c :: rest) = 0 →
  split matchAt (c :: rest) = splitLoop matchAt 0 [c] rest.
Proof. intros H. unfold split. simpl. by rewrite H. Qed.

Lemma split_match matchAt c rest k :
  matchAt (c :: rest) = S k →
  split matchAt (c :: rest) = [] :: split matchAt (drop k rest).
Proof.
  intros H. unfold split. simpl. rewrite H. by rewrite splitLoop_skip.
Qed.

Lemma search_None_tail pat c s : search pat (c :: s) = None → search pat s = None.
Proof.
  simpl. destruct (startsWith pat (c :: s)); [done|].
  by destruct (search pat s).
Qed.

Lemma search_None_head pat s : search pat s = None → startsWith pat s = false.
Proof. destruct s; simpl; by destruct (startsWith pat _). Qed.

(** Where no three newlines follow one another, a separator is exactly one
    blank line, and splitting then joining gives the text back. *)
Lemma join_split_blankLines s :
  search [NL; NL; NL] s = None →
  join blankLine (split reBlankLines s) = s.
Proof.
  remember (length s) as n eqn:Hn. revert s Hn.
  induction n as [n IH] using lt_wf_ind. intros s Hn Hno.
  destruct s as [|c rest]; [done|].
  destruct (reBlankLines (c :: rest)) as [|k] eqn:Hm.
  - rewrite split_no_match by done. rewrite join_splitLoop_piece.
    simpl. f_equal. apply (IH (length rest)); [simpl in Hn; lia|done|].
    by apply search_None_tail in Hno.
  - rewrite (split_match _ _ _ k) by done.
    rewrite join_cons by apply splitLoop_nonempty.
    destruct rest as [|c' rest']; [done|].
    unfold reBlankLines in Hm.
    destruct (isNewline c) eqn:Hc; [|done].
    destruct (isNewline c') eqn:Hc'; [|done].
    cbn [andb spanLength] in Hm. rewrite Hc, Hc' in Hm.
    apply N.eqb_eq in Hc, Hc'. subst c c'.
    assert (Hspan : spanLength isNewline rest' = 0).
    { destruct rest' as [|c'' rest'']; [done|]. cbn [spanLength].
      destruct (isNewline c'') eqn:Hc''; [|done].
      apply N.eqb_eq in Hc''. subst c''.
      apply search_None_head in Hno. done. }
    rewrite Hspan in Hm. injection Hm as <-.
    cbn [drop]. unfold blankLine. simpl app. do 2 f_equal.
    apply (IH (length rest')); [simpl in Hn; lia|done|].
    by do 2 apply search_None_tail in Hno.
Qed.

End JoinSplit.

(** ** Paragraphs *)

Section Paragraphs.
Local Open Scope nat_scope.
Implicit Types (p q s t acc : list N) (pieces : list (list N)).

Lemma reBlankLines_match c rest k :
  reBlankLines (c :: rest) = S k →
  c = NL ∧ startsNL rest = true ∧ k = spanLength isNewline rest.
Proof.
  destruct rest as [|d rest]; [done|]. unfold reBlankLines.
  destruct (isNewline c) eqn:Hc; [|done]. destruct (isNewline d) eqn:Hd; [|done].
  cbn [andb spanLength startsNL]. rewrite Hc, Hd. intros [= <-].
  apply N.eqb_eq in Hc. done.
Qed.

Lemma reBlankLines_no_match c rest :
  reBlankLines (c :: rest) = 0 → isNewline c = false ∨ startsNL rest = false.
Proof.
  destruct rest as [|d rest]; [by right|]. unfold reBlankLines.
  destruct (isNewline c) eqn:Hc; [|by left]. destruct (isNewline d) eqn:Hd; [|by right].
  cbn [andb spanLength]. by rewrite Hc.
Qed.

Lemma startsNL_false_no_match t : startsNL t = false → spanLength isNewline t = 0.
Proof. destruct t as [|c t]; [done|]. simpl. by intros ->. Qed.

Lemma spanLength_greedy s : startsNL (drop (spanLength isNewline s) s) = false.
Proof.
  induction s as [|c s IH]; [done|]. cbn [spanLength].
  destruct (isNewline c) eqn:Hc; [exact IH|]. exact Hc.
Qed.

(** The first piece is a prefix of the text. *)
Lemma splitLoop_first matchAt s : ∀ acc,
  ∃ first later, splitLoop matchAt 0 acc s = (acc ++ first) :: later
                 ∧ first `prefix_of` s.
Proof.
  induction s as [|c rest IH]; intros acc.
  - exists [], []. by rewrite app_nil_r.
  - cbn [splitLoop]. destruct (matchAt (c :: rest)) as [|k].
    + destruct (IH (acc ++ [c])) as (first & later & -> & Hp).
      exists (c :: first), later. rewrite <- app_assoc. split; [done|].
      by apply prefix_cons.
    + exists [], (splitLoop matchAt k [] rest). rewrite app_nil_r.
      split; [done|apply prefix_nil].
Qed.

Lemma split_empty_first s q later :
  split reBlankLines s = [] :: q :: later → startsNL s = true.
Proof.
  destruct s as [|c rest]; [done|].
  destruct (reBlankLines (c :: rest)) as [|k] eqn:Hm.
  - rewrite split_no_match by done.
    destruct (splitLoop_first reBlankLines rest [c]) as (first & later' & -> & _).
    done.
  - apply reBlankLines_match in Hm as (-> & _). done.
Qed.

(** A separator of three or more newlines comes back as two: the joined
    paragraphs are then shorter than the text. *)
Lemma join_split_shorter s :
  length (join blankLine (split reBlankLines s)) ≤ length s
  ∧ (search [NL; NL; NL] s ≠ None →
     length (join blankLine (split reBlankLines s)) < length s).
Proof.
  remember (length s) as n eqn:Hn. revert s Hn.
  induction n as [n IH] using lt_wf_ind. intros s Hn.
  destruct s as [|c rest].
  { subst n. split; [done|]. intros Hfound. by cbn in Hfound. }
  destruct (reBlankLines (c :: rest)) as [|k] eqn:Hm.
  - rewrite split_no_match by done. rewrite join_splitLoop_piece.
    fold (split reBlankLines rest).
    destruct (IH (length rest) ltac:(simpl in Hn; lia) rest eq_refl) as [Hle Hlt].
    cbn [app length]. split; [simpl in Hn; lia|].
    intros Hfound. cbn [search] in Hfound.
    destruct (startsWith [NL; NL; NL] (c :: rest)) eqn:Hsw.
    + exfalso. destruct rest as [|d rest].
      { cbn [startsWith] in Hsw. by rewrite andb_false_r in Hsw. }
      cbn [startsWith] in Hsw. apply andb_true_iff in Hsw as [Hc Hsw].
      apply andb_true_iff in Hsw as [Hd _]. apply N.eqb_eq in Hc, Hd. subst c d.
      apply reBlankLines_no_match in Hm as [Hc|Hr]; done.
    + assert (search [NL; NL; NL] rest ≠ None) as Hrest
        by (by destruct (search [NL; NL; NL] rest)).
      specialize (Hlt Hrest). simpl in Hn. lia.
  - rewrite (split_match _ _ _ k) by done.
    rewrite join_cons by apply splitLoop_nonempty.
    apply reBlankLines_match in Hm as (-> & Hs & ->).
    destruct rest as [|d rest]; [done|]. cbn [startsNL] in Hs.
    apply N.eqb_eq in Hs. subst d.
    cbn [spanLength]. change (isNewline NL) with true. cbv iota. cbn [drop].
    destruct (IH (length (drop (spanLength isNewline rest) rest))
                ltac:(rewrite length_drop; simpl in Hn; lia) _ eq_refl) as [Hle Hlt].
    rewrite length_drop in Hle, Hlt.
    assert (Hspan : spanLength isNewline rest ≤ length rest).
    { clear. induction rest as [|e rest IH]; simpl; [lia|].
      destruct (isNewline e); simpl; lia. }
    unfold blankLine in *. cbn [app length]. simpl in Hn.
    split; [lia|]. intros Hfound.
    destruct (spanLength isNewline rest) as [|k] eqn:Hk; [|lia].
    cbn [drop] in *.
    assert (Hrest : search [NL; NL; NL] rest ≠ None); [|specialize (Hlt Hrest); lia].
    cbn [search] in Hfound.
    destruct rest as [|e rest]; [done|].
    cbn [spanLength] in Hk. destruct (isNewline e) eqn:He; [done|].
    cbn [startsWith] in Hfound. unfold isNewline in He. rewrite N.eqb_sym in He.
    rewrite He, !andb_false_r in Hfound. cbn [andb] in Hfound.
    destruct (search [NL; NL; NL] (e :: rest)); done.
Qed.

Lemma joinable_app pieces1 pieces2 :
  joinable (pieces1 ++ pieces2) → joinable pieces1 ∧ joinable pieces2.
Proof.
  induction pieces1 as [|p pieces1 IH]; [done|].
  cbn [app joinable]. intros (Hp & Hnext & Hrest).
  destruct (IH Hrest) as [H1 H2]. split; [|done].
  split; [done|]. split; [|done].
  destruct pieces1 as [|q pieces1]; [done|].
  cbn [app] in Hnext. destruct Hnext as (He & Hs & Hlast).
  do 2 (split; [done|]). intros Hq. by destruct (app_eq_nil _ _ (Hlast Hq)).
Qed.

Lemma joinable_groups (groups : list (list (list N))) :
  joinable (concat groups) → Forall joinable groups.
Proof.
  induction groups as [|g groups IH]; [constructor|].
  cbn [concat]. intros [Hg Hrest]%joinable_app. constructor; [done|by apply IH].
Qed.

(** What [split] cuts at blank lines can be joined again. *)
Lemma split_joinable s : joinable (split reBlankLines s).
Proof.
  remember (length s) as n eqn:Hn. revert s Hn.
  induction n as [n IH] using lt_wf_ind. intros s Hn.
  destruct s as [|c rest]; [done|].
  destruct (reBlankLines (c :: rest)) as [|k] eqn:Hm.
  - rewrite split_no_match by done.
    pose proof (IH (length rest) ltac:(simpl in Hn; lia) rest eq_refl) as Hj.
    destruct (splitLoop_first reBlankLines rest []) as (first & later & Hsplit & Hp).
    rewrite splitLoop_piece. fold (split reBlankLines rest) in *.
    rewrite Hsplit in *. cbn [app] in *.
    destruct Hj as (Hfirst & Hnext & Hlater).
    cbn [joinable]. split; [|split; [|done]].
    + cbn [search]. rewrite Hfirst.
      destruct (startsWith blankLine (c :: first)) eqn:Hsw; [|by destruct first].
      exfalso. destruct first as [|d first].
      { unfold blankLine in Hsw. cbn [startsWith] in Hsw.
        by rewrite andb_false_r in Hsw. }
      unfold blankLine in Hsw. cbn [startsWith] in Hsw.
      apply andb_true_iff in Hsw as [Hc Hd].
      rewrite andb_true_r in Hd. apply N.eqb_eq in Hc, Hd. subst c d.
      destruct Hp as [t ->].
      apply reBlankLines_no_match in Hm as [Hc|Hr]; done.
    + destruct later as [|q later]; [done|].
      destruct Hnext as (He & Hs & Hlast). split; [|done].
      destruct first as [|d first]; [|exact He].
      apply split_empty_first in Hsplit.
      apply reBlankLines_no_match in Hm as [Hc|Hr]; [exact Hc|congruence].
  - rewrite (split_match _ _ _ k) by done.
    apply reBlankLines_match in Hm as (-> & _ & ->).
    pose proof (spanLength_greedy rest) as Hgreedy.
    pose proof (IH (length (drop (spanLength isNewline rest) rest))
                  ltac:(rewrite length_drop; simpl in Hn; lia) _ eq_refl) as Hj.
    destruct (splitLoop_first reBlankLines (drop (spanLength isNewline rest) rest) [])
      as (first & later & Hsplit & Hp).
    fold (split reBlankLines (drop (spanLength isNewline rest) rest)) in Hsplit.
    rewrite Hsplit in *. cbn [app] in *.
    split; [done|]. split; [|done].
    split; [done|]. split.
    + destruct first as [|d first]; [done|]. destruct Hp as [t Ht].
      rewrite Ht in Hgreedy. exact Hgreedy.
    + intros ->. destruct later as [|q later]; [done|].
      apply split_empty_first in Hsplit. congruence.
Qed.

Lemma split_one_piece p : ∀ acc,
  search blankLine p = None → splitLoop reBlankLines 0 acc p = [acc ++ p].
Proof.
  induction p as [|c p IH]; intros acc Hno; cbn [splitLoop].
  - by rewrite app_nil_r.
  - destruct (reBlankLines (c :: p)) as [|k] eqn:Hm.
    + rewrite IH by (by apply search_None_tail in Hno). by rewrite <- app_assoc.
    + apply reBlankLines_match in Hm as (-> & Hs & _).
      apply search_None_head in Hno. destruct p as [|d p]; [done|].
      cbn [app startsNL] in Hs. apply N.eqb_eq in Hs. subst d. done.
Qed.

(** Scanning a piece that is followed by a blank line. *)
Lemma splitLoop_walk p : ∀ acc t,
  search blankLine p = None → endsNL p = false → startsNL t = false →
  splitLoop reBlankLines 0 acc (p ++ NL :: NL :: t)
  = (acc ++ p) :: splitLoop reBlankLines 0 [] t.
Proof.
  induction p as [|c p IH]; intros acc t Hno Hend Ht.
  - cbn [app splitLoop reBlankLines]. change (isNewline NL) with true.
    cbn [andb spanLength]. change (isNewline NL) with true. cbv iota.
    rewrite (startsNL_false_no_match t Ht), app_nil_r.
    destruct t; reflexivity.
  - cbn [app splitLoop].
    destruct (reBlankLines (c :: p ++ NL :: NL :: t)) as [|k] eqn:Hm.
    + rewrite IH; [by rewrite <- app_assoc|by apply search_None_tail in Hno| |done].
      destruct p as [|d p]; [done|exact Hend].
    + apply reBlankLines_match in Hm as (-> & Hs & _).
      apply search_None_head in Hno. destruct p as [|d p]; [done|].
      cbn [app startsNL] in Hs. apply N.eqb_eq in Hs. subst d. done.
Qed.

Lemma split_join_joinable pieces :
  pieces ≠ [] → joinable pieces →
  split reBlankLines (join blankLine pieces) = pieces.
Proof.
  induction pieces as [|p [|q rest] IH]; [done| |]; intros _ Hj.
  - destruct Hj as (Hp & _). apply (split_one_piece p [] Hp).
  - destruct Hj as (Hp & (He & Hs & Hlast) & Hrest).
    rewrite join_cons by done. unfold split, blankLine. cbn [app].
    rewrite splitLoop_walk; [|done..|].
    + cbn [app]. f_equal. by apply IH.
    + destruct q as [|d q]; [by rewrite (Hlast eq_refl)|].
      destruct rest; exact Hs.
Qed.

End Paragraphs.

(** ** The chunking planner *)

Section Planner.
Local Open Scope nat_scope.

(** The planner only ever closes a group of whole paragraphs: what it has
    pushed are the joins of consecutive non-empty groups, and those groups
    followed by the open one are the paragraphs seen so far. *)
Lemma planStep_groups W paragraphs : ∀ p groups,
  chunks p = join blankLine <$> groups →
  Forall (λ g, g ≠ []) groups →
  ∃ groups',
    chunks (foldl (planStep W) p paragraphs) = join blankLine <$> groups'
    ∧ Forall (λ g, g ≠ []) groups'
    ∧ concat groups' ++ currentChunk (foldl (planStep W) p paragraphs)
      = concat groups ++ currentChunk p ++ paragraphs.
Proof.
  induction paragraphs as [|para rest IH]; intros p groups Hch Hne.
  - exists groups. by rewrite app_nil_r.
  - simpl foldl. remember (planStep W p para) as p' eqn:Hp'.
    unfold planStep in Hp'. cbv zeta in Hp'.
    destruct (Nat.ltb W (currentWordCount p + paraWords para)
              && Nat.ltb 0 (length (currentChunk p))) eqn:Hflush; subst p'.
    + apply andb_true_iff in Hflush as [_ Hcur%Nat.ltb_lt].
      edestruct (IH {| chunks := chunks p ++ [join blankLine (currentChunk p)];
                       currentChunk := [para];
                       currentWordCount := paraWords para |}
                    (groups ++ [currentChunk p])) as (groups' & H1 & H2 & H3).
      * simpl. by rewrite fmap_app, Hch.
      * apply Forall_app. split; [done|]. apply Forall_singleton.
        destruct (currentChunk p); [simpl in Hcur; lia|done].
      * exists groups'. split; [done|]. split; [done|].
        rewrite H3. simpl. rewrite concat_app. simpl.
        by rewrite app_nil_r, <- !app_assoc.
    + edestruct (IH {| chunks := chunks p;
                       currentChunk := currentChunk p ++ [para];
                       currentWordCount := currentWordCount p + paraWords para |}
                    groups) as (groups' & H1 & H2 & H3); [done..|].
      exists groups'. split; [done|]. split; [done|].
      rewrite H3. simpl. by rewrite <- !app_assoc.
Qed.

Lemma planChunks_groups W text :
  ∃ groups,
    planChunks W text = join blankLine <$> groups
    ∧ concat groups = split reBlankLines text
    ∧ Forall (λ g, g ≠ []) groups.
Proof.
  unfold planChunks.
  destruct (planStep_groups W (split reBlankLines text) (mkPlanner [] [] 0) [])
    as (groups & H1 & H2 & H3); [done..|].
  simpl in H3.
  destruct (Nat.ltb_spec 0 (length (currentChunk
      (foldl (planStep W) (mkPlanner [] [] 0) (split reBlankLines text))))) as [Hlt|Hge].
  - exists (groups ++ [currentChunk
      (foldl (planStep W) (mkPlanner [] [] 0) (split reBlankLines text))]).
    split; [|split].
    + by rewrite fmap_app, H1.
    + rewrite concat_app. simpl. by rewrite app_nil_r.
    + apply Forall_app. split; [done|]. apply Forall_singleton.
      intros Heq. rewrite Heq in Hlt. simpl in Hlt. lia.
  - exists groups. split; [done|]. split; [|done].
    destruct (currentChunk _); [by rewrite app_nil_r in H3|simpl in Hge; lia].
Qed.

(** C9. For every document and every budget [W], the segments are the
    blank-line joins of consecutive, non-empty groups of whole paragraphs,
    and these groups, put end to end, are exactly the paragraphs of the
    document: every paragraph lies whole in one segment and in no other,
    whatever its length.  Cutting a segment at its blank lines gives back
    the paragraphs of its group and nothing else. *)
Theorem planChunks_keeps_paragraphs_whole (W : nat) (text : list N) :
  ∃ groups : list (list (list N)),
    planChunks W text = join blankLine <$> groups
    ∧ concat groups = split reBlankLines text
    ∧ Forall (λ g, g ≠ []) groups
    ∧ Forall (λ g, split reBlankLines (join blankLine g) = g) groups
    ∧ concat (split reBlankLines <$> planChunks W text) = split reBlankLines text.
Proof.
  destruct (planChunks_groups W text) as (groups & Hchunks & Hconcat & Hne).
  assert (Hback : Forall (λ g, split reBlankLines (join blankLine g) = g) groups).
  { pose proof (split_joinable text) as Hj. rewrite <- Hconcat in Hj.
    apply joinable_groups in Hj.
    eapply Forall_impl; [apply Forall_and; split; [exact Hne|exact Hj]|].
    intros g [Hg Hjg]. by apply split_join_joinable. }
  exists groups. do 4 (split; [done|]).
  rewrite Hchunks, <- list_fmap_compose, <- Hconcat. f_equal.
  rewrite <- (list_fmap_id groups) at 2. by apply Forall_fmap_ext.
Qed.

Lemma join_planChunks W text :
  join blankLine (planChunks W text) = join blankLine (split reBlankLines text).
Proof.
  destruct (planChunks_groups W text) as (groups & -> & <- & Hne).
  by apply join_concat.
Qed.

(** C3, amended. Joining the segments with blank lines gives the paragraphs
    of the document joined with blank lines, for every budget; this is the
    document itself when it has no run of three or more newlines, and only
    then. *)
Theorem planChunks_join_roundtrip (W : nat) (text : list N) :
  join blankLine (planChunks W text) = join blankLine (split reBlankLines text)
  ∧ (indexOf text [NL; NL; NL] = (-1)%Z →
     join blankLine (planChunks W text) = text)
  ∧ (join blankLine (planChunks W text) = text →
     indexOf text [NL; NL; NL] = (-1)%Z).
Proof.
  split; [apply join_planChunks|]. rewrite join_planChunks. split.
  - intros Hno. apply join_split_blankLines.
    unfold indexOf in Hno. destruct (search _ text); [lia|done].
  - intros Hback. unfold indexOf.
    destruct (search [NL; NL; NL] text) as [i|] eqn:Hsearch; [|done].
    destruct (join_split_shorter text) as [_ Hlt].
    rewrite Hback, Hsearch in Hlt. specialize (Hlt ltac:(done)). lia.
Qed.

End Planner.

(** ** Searching and cutting strings *)

Section Search.
Local Open Scope nat_scope.
Implicit Types (pat s : list N).

Lemma startsWith_prefix pat s : startsWith pat s = true ↔ pat `prefix_of` s.
Proof.
  revert s. induction pat as [|p pat IH]; intros s; simpl.
  - split; [intros _; apply prefix_nil|done].
  - destruct s as [|c s].
    + split; [done|]. intros [k Hk]. discriminate.
    + rewrite andb_true_iff, N.eqb_eq, IH. split.
      * intros [-> H]. by apply prefix_cons.
      * intros H. split; [by eapply prefix_cons_inv_1|by eapply prefix_cons_inv_2].
Qed.

Lemma search_Some pat s i :
  search pat s = Some i →
  pat `prefix_of` drop i s
  ∧ (∀ j, j < i → ¬ pat `prefix_of` drop j s)
  ∧ i + length pat ≤ length s.
Proof.
  revert i. induction s as [|c s IH]; intros i; simpl.
  - destruct (startsWith pat []) eqn:Hsw; [|done]. intros [= <-].
    apply startsWith_prefix in Hsw. split; [done|]. split; [lia|].
    apply prefix_length in Hsw. simpl in *. lia.
  - destruct (startsWith pat (c :: s)) eqn:Hsw.
    + intros [= <-]. apply startsWith_prefix in Hsw. split; [done|].
      split; [lia|]. apply prefix_length in Hsw. simpl in *. lia.
    + destruct (search pat s) as [i'|]; [|done]. intros [= <-].
      destruct (IH i' eq_refl) as (Hp & Hfirst & Hlen).
      split; [done|]. split; [|lia].
      intros [|j] Hj; simpl.
      * rewrite <- startsWith_prefix. by rewrite Hsw.
      * apply Hfirst. lia.
Qed.

Lemma search_singleton_None c s :
  search [c] s = None ↔ c ∉ s.
Proof.
  induction s as [|d s IH]; simpl.
  - split; [intros _; apply not_elem_of_nil|done].
  - rewrite not_elem_of_cons. destruct (N.eqb_spec c d) as [->|Hne]; simpl.
    + split; [done|]. by intros [? _].
    + destruct (search [c] s); simpl.
      * split; [done|]. intros [_ H]. by apply IH in H.
      * split; [|done]. intros _. split; [done|]. by apply IH.
Qed.

Lemma searchLast_singleton_None c s :
  searchLast [c] s = None ↔ c ∉ s.
Proof.
  induction s as [|d s IH]; simpl.
  - split; [intros _; apply not_elem_of_nil|done].
  - rewrite not_elem_of_cons. destruct (searchLast [c] s); simpl.
    + split; [done|]. intros [_ H]. by apply IH in H.
    + destruct (N.eqb_spec c d) as [->|Hne]; simpl.
      * split; [done|]. by intros [? _].
      * split; [|done]. intros _. split; [done|]. by apply IH.
Qed.

Lemma indexOf_singleton_absent c s : indexOf s [c] = (-1)%Z ↔ c ∉ s.
Proof.
  rewrite <- search_singleton_None. unfold indexOf.
  destruct (search [c] s); split; (done || lia).
Qed.

Lemma lastIndexOf_singleton_absent c s : lastIndexOf s [c] = (-1)%Z ↔ c ∉ s.
Proof.
  rewrite <- searchLast_singleton_None. unfold lastIndexOf.
  destruct (searchLast [c] s); split; (done || lia).
Qed.

Lemma clamp_of_nat i s : i ≤ length s → clamp (Z.of_nat i) s = i.
Proof. intros H. unfold clamp, len. lia. Qed.

Lemma substring_range s i n :
  i + n ≤ length s →
  substring s (Z.of_nat i) (Z.of_nat i + Z.of_nat n) = take n (drop i s).
Proof.
  intros H. unfold substring. rewrite <- Nat2Z.inj_add.
  rewrite !clamp_of_nat by lia.
  rewrite Nat.min_l, Nat.max_r by lia. f_equal. lia.
Qed.

Lemma substring_prefix s i : i ≤ length s → substring s 0 (Z.of_nat i) = take i s.
Proof. intros H. apply (substring_range s 0 i H). Qed.

Lemma substringFrom_drop s i : i ≤ length s → substringFrom s (Z.of_nat i) = drop i s.
Proof.
  intros H. unfold substringFrom, len.
  replace (Z.of_nat (length s)) with (Z.of_nat i + Z.of_nat (length s - i))%Z by lia.
  rewrite substring_range by lia. apply take_ge. rewrite length_drop. lia.
Qed.

Lemma sliceIndex_of_nat i s : sliceIndex (Z.of_nat i) s = i `min` length s.
Proof.
  unfold sliceIndex, len. destruct (Z.ltb_spec (Z.of_nat i) 0); lia.
Qed.

Lemma slice_window s i n :
  slice s (Z.of_nat i) (Z.of_nat i + Z.of_nat n) = take n (drop i s).
Proof.
  unfold slice. rewrite <- Nat2Z.inj_add. rewrite !sliceIndex_of_nat.
  destruct (Nat.le_gt_cases i (length s)) as [Hle|Hgt].
  - rewrite (Nat.min_l i) by lia.
    destruct (Nat.le_gt_cases (i + n) (length s)).
    + rewrite Nat.min_l by lia. f_equal. lia.
    + rewrite Nat.min_r by lia. rewrite !take_ge; [done|rewrite length_drop; lia..].
  - rewrite !Nat.min_r by lia. rewrite !drop_ge by lia. by rewrite !take_nil.
Qed.

Lemma take_prefix_eq pat s : pat `prefix_of` s → take (length pat) s = pat.
Proof. intros [k ->]. by rewrite take_app_length. Qed.

End Search.

(** ** Analysis *)

Section AnalysisProps.
Local Open Scope nat_scope.

Lemma anchor_Some content idx raw T :
  anchor content idx raw = Some T →
  s_id T = idx + 1 ∧ s_original T = original raw
  ∧ s_suggestion T = suggestion raw ∧ s_reason T = reason raw
  ∧ s_mode T = mode raw
  ∧ s_start T = indexOf content (original raw)
  ∧ s_start T ≠ (-1)%Z
  ∧ s_end T = (s_start T + len (original raw))%Z.
Proof.
  unfold anchor. destruct (Z.eqb_spec (indexOf content (original raw)) (-1)); [done|].
  intros [= <-]. simpl. by repeat split.
Qed.

Lemma anchor_None content idx raw :
  anchor content idx raw = None ↔ ¬ found content raw.
Proof.
  unfold anchor, found.
  destruct (Z.eqb_spec (indexOf content (original raw)) (-1)); split; (done || lia).
Qed.

Lemma processFrom_cons content k raw rest :
  processFrom content k (raw :: rest)
  = match anchor content k raw with
    | Some T => T :: processFrom content (S k) rest
    | None => processFrom content (S k) rest
    end.
Proof.
  unfold processFrom. rewrite imap_cons. cbn [omap list_omap].
  replace (k + 0) with k by lia.
  rewrite (imap_ext _ (λ i, anchor content (S k + i))).
  - by destruct (anchor content k raw).
  - intros i x _. simpl. f_equal. lia.
Qed.

Lemma processSuggestions_from content arr :
  processSuggestions content arr = processFrom content 0 arr.
Proof. reflexivity. Qed.

(** What is returned keeps the order of the array, and each element carries
    its position in the array, counted from one. *)
Lemma processFrom_lookup content arr : ∀ k n T,
  processFrom content k arr !! n = Some T →
  ∃ idx raw, arr !! idx = Some raw ∧ n ≤ idx
             ∧ anchor content (k + idx) raw = Some T
             ∧ (Forall (found content) (take idx arr) → idx = n).
Proof.
  induction arr as [|raw0 rest IH]; intros k n T; [done|].
  rewrite processFrom_cons. destruct (anchor content k raw0) as [T0|] eqn:Ha.
  - destruct n as [|n]; simpl.
    + intros [= <-]. exists 0, raw0. replace (k + 0) with k by lia. by repeat split.
    + intros (idx & raw & Hl & Hle & Hanchor & Hall)%IH.
      exists (S idx), raw. replace (k + S idx) with (S k + idx) by lia.
      repeat split; [done|lia|done|].
      intros Hf. simpl in Hf. apply Forall_cons in Hf as [_ Hf]. f_equal. by apply Hall.
  - intros (idx & raw & Hl & Hle & Hanchor & Hall)%IH.
    exists (S idx), raw. replace (k + S idx) with (S k + idx) by lia.
    repeat split; [done|lia|done|].
    intros Hf. simpl in Hf. apply Forall_cons in Hf as [Hf0 _].
    by apply anchor_None in Ha.
Qed.

Lemma processFrom_sorted content arr : ∀ k,
  Forall (λ T, k < s_id T) (processFrom content k arr)
  ∧ StronglySorted (λ a b, s_id a < s_id b) (processFrom content k arr).
Proof.
  induction arr as [|raw0 rest IH]; intros k.
  - split; constructor.
  - rewrite processFrom_cons. destruct (IH (S k)) as [Hall Hsorted].
    destruct (anchor content k raw0) as [T0|] eqn:Ha.
    + apply anchor_Some in Ha as (Hid & _). split.
      * constructor; [lia|]. eapply Forall_impl; [done|]. simpl. lia.
      * constructor; [done|]. eapply Forall_impl; [done|]. simpl. lia.
    + split; [|done]. eapply Forall_impl; [done|]. simpl. lia.
Qed.

Lemma processFrom_length content arr : ∀ k,
  length (processFrom content k arr) ≤ length arr.
Proof.
  induction arr as [|raw0 rest IH]; intros k; [done|].
  rewrite processFrom_cons. specialize (IH (S k)).
  destruct (anchor content k raw0); simpl; lia.
Qed.

Lemma processFrom_all_found content arr : ∀ k,
  Forall (found content) arr →
  s_id <$> processFrom content k arr = seq (k + 1) (length arr).
Proof.
  induction arr as [|raw0 rest IH]; intros k Hall; [done|].
  apply Forall_cons in Hall as [H0 Hall].
  rewrite processFrom_cons.
  destruct (anchor content k raw0) as [T0|] eqn:Ha.
  - apply anchor_Some in Ha as (Hid & _). simpl. rewrite IH by done.
    rewrite Hid. f_equal.
  - by apply anchor_None in Ha.
Qed.

(** An anchored suggestion covers the first occurrence of its text. *)
Lemma anchor_first_occurrence content idx raw T :
  anchor content idx raw = Some T →
  (0 ≤ s_start T ≤ s_end T)%Z ∧ (s_end T ≤ len content)%Z
  ∧ slice content (s_start T) (s_end T) = s_original T
  ∧ substring content (s_start T) (s_end T) = s_original T
  ∧ ∀ j : Z, (0 ≤ j < s_start T)%Z →
      slice content j (j + len (s_original T)) ≠ s_original T.
Proof.
  intros (_ & Ho & _ & _ & _ & Hs & Hfound & He)%anchor_Some.
  rewrite <- Ho in *. unfold indexOf in Hs.
  destruct (search (s_original T) content) as [i|] eqn:Hsearch; [|lia].
  apply search_Some in Hsearch as (Hp & Hfirst & Hlen).
  rewrite He, Hs. unfold len.
  split; [lia|]. split; [lia|].
  rewrite slice_window, substring_range by done.
  rewrite take_prefix_eq by done. do 2 (split; [done|]).
  intros j Hj. replace j with (Z.of_nat (Z.to_nat j)) by lia.
  rewrite slice_window. intros Heq. apply (Hfirst (Z.to_nat j)); [lia|].
  rewrite <- Heq at 1. apply prefix_take.
Qed.

Variable JSON_parse : list N → outcome (list RawSuggestion).

Lemma extractSuggestions_no_array content response :
  indexOf response (lit "[") = (-1)%Z ∨ lastIndexOf response (lit "]") = (-1)%Z →
  extractSuggestions JSON_parse content response
  = Throw (lit "No JSON array found. Response was: " ++ [QUOTE]
           ++ preview response ++ lit "..." ++ [QUOTE]).
Proof.
  intros H. unfold extractSuggestions.
  destruct (Z.eqb_spec (indexOf response (lit "[")) (-1)%Z); [done|].
  destruct (Z.eqb_spec (lastIndexOf response (lit "]")) (-1)%Z); [done|].
  by destruct H.
Qed.

Lemma extractSuggestions_array content response :
  indexOf response (lit "[") ≠ (-1)%Z →
  lastIndexOf response (lit "]") ≠ (-1)%Z →
  extractSuggestions JSON_parse content response
  = match JSON_parse (jsonText response) with
    | Throw message =>
        Throw (lit "JSON parse failed: " ++ message ++ lit ". JSON started with: "
               ++ [QUOTE] ++ preview (jsonText response) ++ lit "..." ++ [QUOTE])
    | Return arr => Return (processSuggestions content arr)
    end.
Proof.
  intros H1 H2. unfold extractSuggestions.
  destruct (Z.eqb_spec (indexOf response (lit "[")) (-1)%Z); [done|].
  destruct (Z.eqb_spec (lastIndexOf response (lit "]")) (-1)%Z); [done|].
  reflexivity.
Qed.

(** A call succeeds exactly when the service answered, the answer has both
    brackets and [JSON.parse] accepted the text between them. *)
Lemma requestSuggestions_Return r content l :
  requestSuggestions JSON_parse r content = Return l →
  ∃ items arr,
    r = HttpOk items
    ∧ indexOf (itemsText [NL] items) (lit "[") ≠ (-1)%Z
    ∧ lastIndexOf (itemsText [NL] items) (lit "]") ≠ (-1)%Z
    ∧ JSON_parse (jsonText (itemsText [NL] items)) = Return arr
    ∧ l = processSuggestions content arr.
Proof.
  unfold requestSuggestions. destruct r as [m|status err|items]; simpl; [done..|].
  intros Hex. exists items.
  destruct (Z.eq_dec (indexOf (itemsText [NL] items) (lit "[")) (-1)%Z) as [H1|H1].
  { rewrite extractSuggestions_no_array in Hex by auto. done. }
  destruct (Z.eq_dec (lastIndexOf (itemsText [NL] items) (lit "]")) (-1)%Z) as [H2|H2].
  { rewrite extractSuggestions_no_array in Hex by auto. done. }
  rewrite extractSuggestions_array in Hex by done.
  destruct (JSON_parse (jsonText (itemsText [NL] items))) as [arr|m] eqn:Hp; [|done].
  exists arr. injection Hex as <-. done.
Qed.

Lemma analyzeContent_Return r st l :
  nothingToEdit (content st) = false →
  requestSuggestions JSON_parse r (content st) = Return l →
  analyzeContent JSON_parse r st
  = setIsAnalyzing false
      (say (analysisDone (length l))
         (setSuggestions (λ _, l)
            (setSuggestions (λ _, []) (setError None (setIsAnalyzing true st))))).
Proof.
  intros Hguard Hreq. unfold analyzeContent. rewrite Hguard. cbv zeta.
  by rewrite Hreq.
Qed.

Lemma analyzeContent_Throw r st message :
  nothingToEdit (content st) = false →
  requestSuggestions JSON_parse r (content st) = Throw message →
  analyzeContent JSON_parse r st
  = setIsAnalyzing false
      (say (lit "I encountered an issue during analysis: " ++ message)
         (setError (Some (lit "Analysis failed: " ++ message))
            (setSuggestions (λ _, []) (setError None (setIsAnalyzing true st))))).
Proof.
  intros Hguard Hreq. unfold analyzeContent. rewrite Hguard. cbv zeta.
  by rewrite Hreq.
Qed.

Lemma preview_bounded s : length (preview s) ≤ 300.
Proof.
  unfold preview, replaceAll, substring. rewrite length_fmap, length_take.
  unfold clamp. lia.
Qed.

(** C2, amended. When the response has no [[] or no []], the analysis ends
    with the error "Analysis failed: No JSON array found. Response was: ..."
    quoting at most the first 300 characters of the response; the document
    and the stored data are as before, and the Suggestion Set, emptied when
    the analysis started, is empty. *)
Theorem analyze_without_array (items : list (option (list N))) (st : Editor) :
  nothingToEdit (content st) = false →
  91%N ∉ itemsText [NL] items ∨ 93%N ∉ itemsText [NL] items →
  let response := itemsText [NL] items in
  let st' := analyzeContent JSON_parse (HttpOk items) st in
  error st'
  = Some (lit "Analysis failed: " ++ lit "No JSON array found. Response was: "
          ++ [QUOTE] ++ preview response ++ lit "..." ++ [QUOTE])
  ∧ length (preview response) ≤ 300
  ∧ content st' = content st
  ∧ suggestions st' = []
  ∧ store st' = store st
  ∧ versions st' = versions st.
Proof.
  intros Hguard Hno response st'. subst st'.
  erewrite analyzeContent_Throw; [|done|].
  2:{ unfold requestSuggestions. cbn [callClaudeAPI].
      apply extractSuggestions_no_array.
      change (lit "[") with [91%N]. change (lit "]") with [93%N].
      rewrite indexOf_singleton_absent, lastIndexOf_singleton_absent. exact Hno. }
  split; [reflexivity|]. split; [apply preview_bounded|]. by repeat split.
Qed.

(** C4, amended. After a successful analysis the Suggestion Set lists, in
    the order of the model's array, the elements whose text occurs in the
    document.  Each carries as id its position in that array counted from
    one, so ids increase strictly and the [n]-th suggestion returned has an
    id of at least [n]; the id is [n] when no element before it was
    dropped.  Each is anchored at [indexOf(original)] and ends
    [len(original)] further. *)
Theorem analyze_ids_are_array_positions (r : response) (st : Editor) (l : list Suggestion) :
  nothingToEdit (content st) = false →
  requestSuggestions JSON_parse r (content st) = Return l →
  ∃ items arr,
    r = HttpOk items
    ∧ JSON_parse (jsonText (itemsText [NL] items)) = Return arr
    ∧ suggestions (analyzeContent JSON_parse r st) = l
    ∧ StronglySorted (λ a b, s_id a < s_id b) l
    ∧ (Forall (found (content st)) arr → s_id <$> l = seq 1 (length arr))
    ∧ ∀ n T, l !! n = Some T →
        ∃ idx raw,
          arr !! idx = Some raw ∧ s_id T = idx + 1 ∧ n ≤ idx
          ∧ (Forall (found (content st)) (take idx arr) → idx = n)
          ∧ s_original T = original raw ∧ s_suggestion T = suggestion raw
          ∧ s_reason T = reason raw ∧ s_mode T = mode raw
          ∧ s_start T = indexOf (content st) (s_original T)
          ∧ s_start T ≠ (-1)%Z
          ∧ s_end T = (s_start T + len (s_original T))%Z.
Proof.
  intros Hguard Hreq.
  destruct (requestSuggestions_Return _ _ _ Hreq) as (items & arr & -> & _ & _ & Hp & ->).
  exists items, arr. split; [done|]. split; [done|].
  split; [by rewrite (analyzeContent_Return _ _ _ Hguard Hreq)|].
  rewrite processSuggestions_from.
  split; [apply processFrom_sorted|].
  split; [apply processFrom_all_found|].
  intros n T (idx & raw & Hl & Hle & Ha & Hall)%processFrom_lookup.
  exists idx, raw. apply anchor_Some in Ha as (? & Ho & ? & ? & ? & ? & ? & ?).
  rewrite Ho. by repeat split.
Qed.

(** C5. When the response holds an array that [JSON.parse] accepts, the
    analysis raises no error and returns at most as many suggestions as the
    array has elements.  Each returned suggestion spans its own text in the
    document, [document.slice(start, end) = original], at the first place
    where that text occurs.  An element whose text does not occur in the
    document is left out and nothing else happens. *)
Theorem analyze_anchors_first_occurrence
        (items : list (option (list N))) (arr : list RawSuggestion) (st : Editor) :
  nothingToEdit (content st) = false →
  indexOf (itemsText [NL] items) (lit "[") ≠ (-1)%Z →
  lastIndexOf (itemsText [NL] items) (lit "]") ≠ (-1)%Z →
  JSON_parse (jsonText (itemsText [NL] items)) = Return arr →
  let st' := analyzeContent JSON_parse (HttpOk items) st in
  error st' = None
  ∧ content st' = content st
  ∧ length (suggestions st') ≤ length arr
  ∧ (∀ T, T ∈ suggestions st' →
       slice (content st) (s_start T) (s_end T) = s_original T
       ∧ s_start T = indexOf (content st) (s_original T)
       ∧ ∀ j : Z, (0 ≤ j < s_start T)%Z →
           slice (content st) j (j + len (s_original T)) ≠ s_original T)
  ∧ (∀ idx raw, arr !! idx = Some raw →
       (found (content st) raw → ∃ T, T ∈ suggestions st' ∧ s_id T = idx + 1
                                      ∧ s_original T = original raw)
       ∧ (¬ found (content st) raw → ∀ T, T ∈ suggestions st' → s_id T ≠ idx + 1)).
Proof.
  intros Hguard H1 H2 Hp st'. subst st'.
  assert (Hreq : requestSuggestions JSON_parse (HttpOk items) (content st)
                 = Return (processSuggestions (content st) arr)).
  { unfold requestSuggestions. cbn [callClaudeAPI].
    rewrite extractSuggestions_array by done. by rewrite Hp. }
  rewrite (analyzeContent_Return _ _ _ Hguard Hreq).
  cbn [error content suggestions setIsAnalyzing say setChatHistory setSuggestions setError].
  split; [done|]. split; [done|].
  rewrite processSuggestions_from.
  split; [apply processFrom_length|]. split.
  - intros T (n & Hn)%list_elem_of_lookup.
    apply processFrom_lookup in Hn as (idx & raw & _ & _ & Ha & _).
    apply anchor_first_occurrence in Ha as Hocc.
    destruct Hocc as (_ & _ & Hslice & _ & Hfirst).
    apply anchor_Some in Ha as (_ & Ho & _ & _ & _ & Hs & _).
    rewrite <- Ho in Hs. done.
  - intros idx raw Hl. split.
    + intros Hf. destruct (anchor (content st) idx raw) as [T|] eqn:Ha;
        [|by apply anchor_None in Ha].
      exists T. apply anchor_Some in Ha as Hfields.
      destruct Hfields as (Hid & Ho & _). split; [|done].
      unfold processFrom. apply list_elem_of_omap. exists (Some T). split; [|done].
      apply elem_of_lookup_imap. exists idx, raw. done.
    + intros Hnf T (n & Hn)%list_elem_of_lookup Hid.
      apply processFrom_lookup in Hn as (idx' & raw' & Hl' & _ & Ha & _).
      apply anchor_Some in Ha as (Hid' & _ & _ & _ & _ & Hs & Hne & _).
      assert (idx' = idx) as -> by (simpl in *; lia).
      rewrite Hl in Hl'. injection Hl' as <-.
      apply Hnf. unfold found. by rewrite <- Hs.
Qed.

End AnalysisProps.

(** ** Accepting a suggestion *)

Section Accept.
Local Open Scope nat_scope.

(** After [c[0:a] + repl + c[b:]], what stood at [p] and beyond [b] stands
    [length repl - (b - a)] further. *)
Lemma splice_shift (c repl : list N) a b p n :
  a ≤ b → b ≤ p → p + n ≤ length c →
  take n (drop (p - b + a + length repl) (take a c ++ repl ++ drop b c))
  = take n (drop p c).
Proof.
  intros Hab Hbp Hpn. f_equal.
  rewrite drop_app_ge by (rewrite length_take; lia).
  rewrite length_take, Nat.min_l by lia.
  rewrite drop_app_ge by lia.
  rewrite drop_drop. f_equal. lia.
Qed.

Lemma acceptSuggestion_content (S : Suggestion) (st : Editor) :
  content (acceptSuggestion S st)
  = substring (content st) 0 (s_start S) ++ s_suggestion S
    ++ substringFrom (content st) (s_end S).
Proof. reflexivity. Qed.

Lemma acceptSuggestion_suggestions (S : Suggestion) (st : Editor) :
  suggestions (acceptSuggestion S st)
  = filter (λ T, s_id T ≠ s_id S) (suggestions st).
Proof. reflexivity. Qed.

(** C1, amended. Accepting [S] replaces its region by the replacement text
    and removes the suggestions of that id; every other pending suggestion
    stays in the set exactly as it was, offsets included.  The text that a
    later suggestion [T] covered is then found
    [len(replacement) - len(original)] further than [T]'s offsets say. *)
Theorem acceptSuggestion_leaves_offsets (S : Suggestion) (st : Editor) :
  let st' := acceptSuggestion S st in
  let delta := (len (s_suggestion S) - len (s_original S))%Z in
  suggestions st' = filter (λ T, s_id T ≠ s_id S) (suggestions st)
  ∧ (∀ T, T ∈ suggestions st' ↔ T ∈ suggestions st ∧ s_id T ≠ s_id S)
  ∧ content st' = substring (content st) 0 (s_start S) ++ s_suggestion S
                  ++ substringFrom (content st) (s_end S)
  ∧ (∀ T, (0 ≤ s_start S)%Z →
          s_end S = (s_start S + len (s_original S))%Z →
          (s_end S ≤ s_start T ≤ s_end T)%Z →
          (s_end T ≤ len (content st))%Z →
          substring (content st') (s_start T + delta) (s_end T + delta)
          = substring (content st) (s_start T) (s_end T)).
Proof.
  intros st' delta. subst st'.
  rewrite acceptSuggestion_suggestions, acceptSuggestion_content.
  split; [done|].
  split; [intros T; rewrite list_elem_of_filter; tauto|].
  split; [done|]. intros T HS0 HSe HT HTlen.
  unfold len in *.
  remember (Z.to_nat (s_start S)) as a eqn:Ha.
  remember (Z.to_nat (s_end S)) as b eqn:Hb.
  remember (Z.to_nat (s_start T)) as p eqn:Hp.
  remember (Z.to_nat (s_end T) - p) as n eqn:Hn.
  replace (s_start S) with (Z.of_nat a) in * by lia.
  replace (s_end S) with (Z.of_nat b) in * by lia.
  replace (s_start T) with (Z.of_nat p) in * by lia.
  replace (s_end T) with (Z.of_nat p + Z.of_nat n)%Z in * by lia.
  rewrite substring_prefix, substringFrom_drop by lia.
  rewrite (substring_range (content st) p n) by lia.
  subst delta.
  replace (Z.of_nat p + (Z.of_nat (length (s_suggestion S)) - Z.of_nat (length (s_original S))))%Z
    with (Z.of_nat (p - b + a + length (s_suggestion S))) by lia.
  replace (Z.of_nat p + Z.of_nat n + (Z.of_nat (length (s_suggestion S)) - Z.of_nat (length (s_original S))))%Z
    with (Z.of_nat (p - b + a + length (s_suggestion S)) + Z.of_nat n)%Z by lia.
  rewrite substring_range.
  - apply splice_shift; lia.
  - rewrite !length_app, length_take, length_drop. lia.
Qed.

End Accept.

(** ** Rendering *)

Section Rendering.

Lemma insertByStart_perm a l : insertByStart a l ≡ₚ a :: l.
Proof.
  induction l as [|b l IH]; simpl; [done|].
  destruct (s_start a <=? s_start b); [done|].
  rewrite IH. apply Permutation_swap.
Qed.

Lemma sortByStart_perm l : sortByStart l ≡ₚ l.
Proof.
  induction l as [|a l IH]; simpl; [done|].
  by rewrite insertByStart_perm, IH.
Qed.

Lemma insertByStart_sorted a l :
  Sorted (λ x y, s_start x ≤ s_start y) l →
  Sorted (λ x y, s_start x ≤ s_start y) (insertByStart a l).
Proof.
  induction 1 as [|b l Hs IH Hhd]; simpl.
  - by repeat constructor.
  - destruct (Z.leb_spec (s_start a) (s_start b)).
    + by repeat constructor.
    + constructor; [done|]. destruct Hhd as [|c l Hbc]; simpl.
      * constructor. lia.
      * destruct (Z.leb_spec (s_start a) (s_start c)); constructor; lia.
Qed.

Lemma sortByStart_sorted l :
  Sorted (λ x y, s_start x ≤ s_start y) (sortByStart l).
Proof.
  induction l as [|a l IH]; simpl; [constructor|]. by apply insertByStart_sorted.
Qed.

(** The sort is stable: suggestions with the same start keep their order. *)
Lemma insertByStart_stable v a l :
  filter (λ x, s_start x = v) (insertByStart a l)
  = filter (λ x, s_start x = v) (a :: l).
Proof.
  induction l as [|b l IH]; simpl; [done|].
  destruct (Z.leb_spec (s_start a) (s_start b)) as [Hle|Hlt]; [done|].
  rewrite filter_cons, IH, !filter_cons.
  repeat case_decide; try done. lia.
Qed.

Lemma sortByStart_stable v l :
  filter (λ x, s_start x = v) (sortByStart l) = filter (λ x, s_start x = v) l.
Proof.
  induction l as [|a l IH]; simpl; [done|].
  by rewrite insertByStart_stable, !filter_cons, IH.
Qed.

Lemma renderLoop_highlights c l : ∀ idx lastIndex,
  omap highlightOf (renderLoop c idx lastIndex l).1 = l.
Proof.
  induction l as [|s l IH]; intros idx lastIndex; [done|].
  cbn [renderLoop]. specialize (IH (idx + 1)%nat (s_end s)).
  destruct (renderLoop c (idx + 1) (s_end s) l) as [later final].
  cbn [fst] in *. rewrite omap_app. cbn [omap list_omap highlightOf]. rewrite IH.
  by destruct (lastIndex <? s_start s).
Qed.

End Rendering.

Section RenderingText.

Lemma substring_Z (c : list N) (a b : Z) :
  0 ≤ a ≤ b → b ≤ len c →
  substring c a b = take (Z.to_nat (b - a)) (drop (Z.to_nat a) c).
Proof.
  intros Hab Hb. unfold len in Hb.
  replace a with (Z.of_nat (Z.to_nat a)) at 1 by lia.
  replace b with (Z.of_nat (Z.to_nat a) + Z.of_nat (Z.to_nat (b - a))) at 1 by lia.
  apply substring_range. lia.
Qed.

Lemma substring_empty (c : list N) (a : Z) : 0 ≤ a ≤ len c → substring c a a = [].
Proof.
  intros H. rewrite substring_Z by lia. by rewrite Z.sub_diag.
Qed.

Lemma substring_app (c : list N) (a b d : Z) :
  0 ≤ a ≤ b → b ≤ d → d ≤ len c →
  substring c a b ++ substring c b d = substring c a d.
Proof.
  intros Hab Hbd Hd. rewrite !substring_Z by lia.
  replace (Z.to_nat b) with (Z.to_nat a + Z.to_nat (b - a))%nat by lia.
  rewrite <- drop_drop, take_take_drop. f_equal. lia.
Qed.

Lemma substring_whole (c : list N) : substring c 0 (len c) = c.
Proof.
  rewrite substring_Z by (unfold len; lia). simpl. apply take_ge. unfold len. lia.
Qed.

Lemma renderLoop_text c l : ∀ idx lastIndex,
  0 ≤ lastIndex → inOrderFrom lastIndex l (len c) →
  concat (spanText <$> (renderLoop c idx lastIndex l).1)
  = substring c lastIndex (renderLoop c idx lastIndex l).2
  ∧ lastIndex ≤ (renderLoop c idx lastIndex l).2 ≤ len c.
Proof.
  induction l as [|s l IH]; intros idx lastIndex H0 Hin.
  - cbn in *. by rewrite substring_empty by lia.
  - cbn [renderLoop]. destruct Hin as (H1 & H2 & Hin).
    destruct (IH (idx + 1)%nat (s_end s)) as [IHtext IHfinal]; [lia|done|].
    destruct (renderLoop c (idx + 1) (s_end s) l) as [later final].
    cbn [fst snd] in *. split; [|lia].
    rewrite fmap_app, concat_app, fmap_cons. cbn [concat spanText].
    rewrite IHtext, substring_app by lia.
    destruct (Z.ltb_spec lastIndex (s_start s)) as [Hlt|Hge].
    + cbn. rewrite app_nil_r. apply substring_app; lia.
    + cbn. by replace lastIndex with (s_start s) by lia.
Qed.

(** C6, amended. Rendering sorts the pending suggestions by start offset,
    ascending and keeping the order of equal starts, and shows one
    highlight for every one of them, overlapping or not.  When the
    suggestions, in that order, lie one after the other within the
    document, the display segments lie one after the other too: put end to
    end they are the document. *)
Theorem render_highlights_all_sorted (st : Editor) :
  highlighted (renderContentWithHighlights st) = sortByStart (suggestions st)
  ∧ sortByStart (suggestions st) ≡ₚ suggestions st
  ∧ Sorted (λ a b, s_start a ≤ s_start b) (sortByStart (suggestions st))
  ∧ (∀ v, filter (λ s, s_start s = v) (sortByStart (suggestions st))
          = filter (λ s, s_start s = v) (suggestions st))
  ∧ (inOrderFrom 0 (sortByStart (suggestions st)) (len (content st)) →
     displayedText (renderContentWithHighlights st) = content st).
Proof.
  split; [|split; [apply sortByStart_perm|split; [apply sortByStart_sorted|
          split; [intros v; apply sortByStart_stable|]]]].
  - unfold renderContentWithHighlights. destruct (suggestions st) as [|s l] eqn:Hs; [done|].
    pose proof (renderLoop_highlights (content st) (sortByStart (s :: l)) 0%nat 0) as Hh.
    destruct (renderLoop (content st) 0 0 (sortByStart (s :: l))) as [result lastIndex].
    cbn [highlighted fst] in *. rewrite omap_app, Hh.
    destruct (lastIndex <? len (content st)); cbn; by rewrite app_nil_r.
  - intros Hin. unfold renderContentWithHighlights.
    destruct (suggestions st) as [|s l] eqn:Hs; [done|].
    destruct (renderLoop_text (content st) (sortByStart (s :: l)) 0%nat 0)
      as [Htext Hfinal]; [lia|done|].
    destruct (renderLoop (content st) 0 0 (sortByStart (s :: l))) as [result lastIndex].
    cbn [displayedText fst snd] in *. rewrite fmap_app, concat_app, Htext.
    destruct (Z.ltb_spec lastIndex (len (content st))) as [Hlt|Hge].
    + cbn. rewrite app_nil_r. unfold substringFrom.
      rewrite substring_app by lia. apply substring_whole.
    + cbn. rewrite app_nil_r. replace lastIndex with (len (content st)) by lia.
      apply substring_whole.
Qed.

End RenderingText.

(** ** Preparing a document *)

Section Prepare.
Local Open Scope nat_scope.

Variable fetch : nat → list N → response.

Lemma failed_failureOf fallback r :
  failed r = true → ∃ message, failureOf fallback r = Some message.
Proof. destruct r; simpl; [eauto..|done]. Qed.

(** The loop stops at the first request that does not succeed, with the
    error of that request; later requests are not made. *)
Lemma processChunks_first_failure total todo : ∀ i0 processed,
  (∃ k chunk, todo !! k = Some chunk
              ∧ failed (fetch (i0 + k) (sectionPrompt ++ chunk)) = true) →
  ∃ k chunk message progress,
    todo !! k = Some chunk
    ∧ failureOf (λ status, lit "API error: " ++ ofNat status
                           ++ lit " on section " ++ ofNat (i0 + k + 1))
                (fetch (i0 + k) (sectionPrompt ++ chunk)) = Some message
    ∧ (∀ j c, j < k → todo !! j = Some c →
              failed (fetch (i0 + j) (sectionPrompt ++ c)) = false)
    ∧ processChunks fetch total i0 todo processed = (progress, Throw message)
    ∧ length progress = k + 1.
Proof.
  induction todo as [|chunk0 rest IH]; intros i0 processed (k & chunk & Hk & Hfail).
  { done. }
  cbn [processChunks].
  destruct (fetch i0 (sectionPrompt ++ chunk0)) as [m|status err|items] eqn:Hfetch.
  - exists 0, chunk0, m. eexists. rewrite Nat.add_0_r, Hfetch.
    repeat split; try done. intros j c Hj. lia.
  - exists 0, chunk0. eexists. eexists. rewrite !Nat.add_0_r, Hfetch.
    repeat split; try done. intros j c Hj. lia.
  - destruct k as [|k].
    { simpl in Hk. injection Hk as <-. rewrite Nat.add_0_r, Hfetch in Hfail. done. }
    destruct (IH (i0 + 1) (processed ++ [trim (itemsText [] items)]))
      as (k' & chunk' & message & progress & Hk' & Hmsg & Hfirst & Hrun & Hlen).
    { exists k, chunk. split; [done|]. by replace (i0 + 1 + k) with (i0 + S k) by lia. }
    exists (S k'), chunk', message. rewrite Hrun. eexists.
    replace (i0 + S k') with (i0 + 1 + k') by lia.
    repeat split; try done.
    + intros [|j] c Hj Hc.
      * simpl in Hc. injection Hc as <-. by rewrite Nat.add_0_r, Hfetch.
      * replace (i0 + S j) with (i0 + 1 + j) by lia. apply (Hfirst j c); [lia|done].
    + simpl. lia.
Qed.

Lemma prepareDocumentWith_first_failure W text :
  (∃ i chunk, planChunks W text !! i = Some chunk
              ∧ failed (fetch i (requestBody W text chunk)) = true) →
  ∃ i chunk message progress,
    planChunks W text !! i = Some chunk
    ∧ failureOf (requestFallback W text i) (fetch i (requestBody W text chunk))
      = Some message
    ∧ (∀ j c, j < i → planChunks W text !! j = Some c →
              failed (fetch j (requestBody W text c)) = false)
    ∧ prepareDocumentWith W fetch text = (progress, Throw message)
    ∧ length progress = i + 1.
Proof.
  unfold prepareDocumentWith, requestBody, requestFallback.
  destruct (Nat.eqb_spec (length (planChunks W text)) 1) as [Hone|Hmany].
  - intros (i & chunk & Hi & Hfail).
    assert (i = 0) as -> by (apply lookup_lt_Some in Hi; lia).
    exists 0, chunk.
    destruct (fetch 0 (wholePrompt ++ text)) as [m|status err|items]; [| |done].
    + exists m. eexists. repeat split; try done. intros j c Hj. lia.
    + eexists. eexists. repeat split; try done. intros j c Hj. lia.
  - intros Hfail. apply (processChunks_first_failure _ _ 0 []). exact Hfail.
Qed.

Lemma onProgress_frame progress : ∀ st,
  let st' := foldl (λ st msg, onProgress msg st) st progress in
  content st' = content st ∧ suggestions st' = suggestions st
  ∧ error st' = error st ∧ store st' = store st.
Proof.
  induction progress as [|msg progress IH]; intros st; [done|].
  cbn [foldl]. destruct (IH (onProgress msg st)) as (-> & -> & -> & ->). done.
Qed.

(** C8. When the request of some segment does not succeed, the operation
    stops at the first such request and throws its error: no later segment
    is requested and no text is returned.  The caller then reports that
    error and leaves the document, and the Suggestion Set, as they were
    before the operation began. *)
Theorem prepare_failure_is_atomic (W : nat) (e : versioning.env) (st : Editor) :
  nothingToEdit (content st) = false →
  (∃ i chunk, planChunks W (content st) !! i = Some chunk
              ∧ failed (fetch i (requestBody W (content st) chunk)) = true) →
  ∃ i chunk message progress,
    planChunks W (content st) !! i = Some chunk
    ∧ failureOf (requestFallback W (content st) i)
                (fetch i (requestBody W (content st) chunk)) = Some message
    ∧ (∀ j c, j < i → planChunks W (content st) !! j = Some c →
              failed (fetch j (requestBody W (content st) c)) = false)
    ∧ prepareDocumentWith W fetch (content st) = (progress, Throw message)
    ∧ length progress = i + 1
    ∧ content (handlePrepareDocumentWith W e fetch st) = content st
    ∧ suggestions (handlePrepareDocumentWith W e fetch st) = suggestions st
    ∧ error (handlePrepareDocumentWith W e fetch st)
      = Some (lit "Document preparation failed: " ++ message).
Proof.
  intros Hguard Hfail.
  destruct (prepareDocumentWith_first_failure W (content st) Hfail)
    as (i & chunk & message & progress & Hi & Hmsg & Hfirst & Hrun & Hlen).
  exists i, chunk, message, progress. do 5 (split; [done|]).
  unfold handlePrepareDocumentWith. rewrite Hguard. cbv zeta. rewrite Hrun.
  match goal with
  | |- context [foldl ?f ?s progress] =>
      destruct (onProgress_frame progress s) as (Hc & Hs & _)
  end.
  cbn [content suggestions error setIsPreparing say setChatHistory setError] in *.
  rewrite Hc, Hs. done.
Qed.

End Prepare.

(** ** The properties on sample data *)

Section Samples.
Import Sample versioning.

(** Saving a sixth version over five: the oldest one goes. *)
Lemma saveVersion_keeps_five_sixth :
  setItemOk (at_ 6) = true
  ∧ length (getVersions fiveSaved) = 5%nat
  ∧ ∃ v, (saveVersion (at_ 6) (lit "six") [] fiveSaved).1 = Some v
         ∧ v_id v = 6
         ∧ v_id <$> getVersions (saveVersion (at_ 6) (lit "six") [] fiveSaved).2
           = [6; 5; 4; 3; 2].
Proof.
  split; [reflexivity|]. split; [vm_compute; reflexivity|].
  destruct (saveVersion_keeps_five (at_ 6) (lit "six") [] fiveSaved) as [Hok _].
  destruct (Hok eq_refl) as (v & Hv & _ & _ & _ & _ & Hevict).
  exists v. split; [exact Hv|].
  assert (Hid : v_id v = 6) by (vm_compute in Hv; by injection Hv as <-).
  split; [exact Hid|].
  rewrite Hevict by (vm_compute; reflexivity).
  rewrite fmap_cons, Hid. f_equal.
Defined.

(** Clearing the stored data after five saves: the five versions stay. *)
Lemma clearAll_keeps_ledger_five :
  v_id <$> getVersions (storage.clearAll fiveSaved).2 = [5; 4; 3; 2; 1]
  ∧ (storage.clearAll fiveSaved).2 !! STORAGE_KEYS.CONTENT = None.
Proof.
  destruct (clearAll_keeps_ledger fiveSaved) as (_ & Hversions & Hgone & _).
  split.
  - rewrite Hversions. vm_compute. reflexivity.
  - apply Hgone. unfold STORAGE_KEYS.values. apply list_elem_of_here.
Defined.

(** C1 as stated fails: in "A foo B foo C", accepting "foo" -> "quux" at
    2-5 leaves the suggestion at 12-13 where it was, not at 13-14. *)
Lemma acceptSuggestion_shift_counterexample :
  ¬ (∀ T, T ∈ suggestions fooEditor → s_id T ≠ s_id fooToQuux →
          s_end fooToQuux < s_start T →
          ∃ T', T' ∈ suggestions (acceptSuggestion fooToQuux fooEditor)
                ∧ s_id T' = s_id T
                ∧ s_start T' = s_start T + (len (s_suggestion fooToQuux)
                                            - len (s_original fooToQuux))).
Proof.
  intros Hshift.
  destruct (Hshift lastLetter) as (T' & Hin & _ & Hstart).
  - apply list_elem_of_further, list_elem_of_here.
  - discriminate.
  - reflexivity.
  - change (suggestions (acceptSuggestion fooToQuux fooEditor)) with [lastLetter] in Hin.
    apply list_elem_of_singleton in Hin. subst T'. discriminate.
Qed.

Lemma acceptSuggestion_leaves_offsets_sample :
  suggestions (acceptSuggestion fooToQuux fooEditor) = [lastLetter]
  ∧ content (acceptSuggestion fooToQuux fooEditor) = lit "A quux B foo C"
  ∧ substring (content (acceptSuggestion fooToQuux fooEditor)) 12 13 = lit " "
  ∧ substring (content (acceptSuggestion fooToQuux fooEditor)) 13 14 = lit "C".
Proof.
  destruct (acceptSuggestion_leaves_offsets fooToQuux fooEditor)
    as (Hset & _ & Hcontent & Htext).
  split; [rewrite Hset; vm_compute; reflexivity|].
  split; [rewrite Hcontent; vm_compute; reflexivity|].
  split; [vm_compute; reflexivity|].
  apply (Htext lastLetter).
  - vm_compute. discriminate.
  - reflexivity.
  - vm_compute. split; discriminate.
  - vm_compute. discriminate.
Defined.

(** C2 as stated fails: an answer without brackets leaves the document but
    not the Suggestion Set, which is empty afterwards. *)
Lemma analyze_without_array_counterexample :
  ¬ (let st' := analyzeContent (parseOnly []) (HttpOk [Some (lit "I cannot help.")])
                               fooEditor in
     content st' = content fooEditor ∧ suggestions st' = suggestions fooEditor).
Proof. intros [_ Hs]. vm_compute in Hs. discriminate. Qed.

Lemma analyze_without_array_sample :
  suggestions (analyzeContent (parseOnly []) (HttpOk [Some (lit "I cannot help.")])
                              fooEditor) = []
  ∧ content (analyzeContent (parseOnly []) (HttpOk [Some (lit "I cannot help.")])
                            fooEditor) = fooDocument.
Proof.
  destruct (analyze_without_array (parseOnly []) [Some (lit "I cannot help.")] fooEditor)
    as (_ & _ & Hc & Hs & _).
  - vm_compute. reflexivity.
  - left. apply indexOf_singleton_absent. vm_compute. reflexivity.
  - split; [exact Hs|exact Hc].
Defined.

(** C3 as stated fails: three newlines between two paragraphs come back as
    two. *)
Lemma planChunks_join_counterexample :
  ¬ (join blankLine (planChunks MAX_WORDS_PER_CHUNK threeParagraphs) = threeParagraphs).
Proof. vm_compute. discriminate. Qed.

Lemma planChunks_join_roundtrip_sample :
  join blankLine (planChunks 2 plainParagraphs) = plainParagraphs.
Proof.
  destruct (planChunks_join_roundtrip 2 plainParagraphs) as (_ & Hback & _).
  apply Hback. vm_compute. reflexivity.
Defined.

(** C4 as stated fails: when the first element of the array is dropped, the
    first suggestion returned has id 2. *)
Lemma analyze_ids_counterexample :
  ¬ (∀ n T,
       suggestions (analyzeContent (parseOnly [missing; fooToBar])
                                   (answering [missing; fooToBar])
                                   (setContent fooDocument blank)) !! n = Some T →
       s_id T = (n + 1)%nat).
Proof.
  intros Hid.
  specialize (Hid 0%nat (mkSuggestion 2 (lit "foo") (lit "bar") (lit "x") (lit "clarity") 2 5)).
  discriminate Hid. vm_compute. reflexivity.
Qed.

Lemma analyze_ids_are_array_positions_sample :
  ∃ items arr,
    answering [missing; fooToBar] = HttpOk items
    ∧ parseOnly [missing; fooToBar] (jsonText (itemsText [NL] items)) = Return arr
    ∧ s_id <$> suggestions (analyzeContent (parseOnly [missing; fooToBar])
                                           (answering [missing; fooToBar])
                                           (setContent fooDocument blank)) = [2%nat].
Proof.
  destruct (analyze_ids_are_array_positions (parseOnly [missing; fooToBar])
              (answering [missing; fooToBar]) (setContent fooDocument blank)
              [mkSuggestion 2 (lit "foo") (lit "bar") (lit "x") (lit "clarity") 2 5])
    as (items & arr & Hr & Hp & Hs & _).
  - vm_compute. reflexivity.
  - vm_compute. reflexivity.
  - exists items, arr. split; [exact Hr|]. split; [exact Hp|]. by rewrite Hs.
Defined.

(** The scenario of the specification: one suggestion, anchored at the
    first "foo", offsets 2 to 5. *)
Lemma analyze_anchors_first_foo :
  let st' := analyzeContent (parseOnly [fooToBar]) (answering [fooToBar])
                            (setContent fooDocument blank) in
  suggestions st'
  = [mkSuggestion 1 (lit "foo") (lit "bar") (lit "x") (lit "clarity") 2 5]
  ∧ error st' = None
  ∧ (∀ T, T ∈ suggestions st' →
       slice fooDocument (s_start T) (s_end T) = s_original T).
Proof.
  destruct (analyze_anchors_first_occurrence (parseOnly [fooToBar]) [Some (jsonArray [fooToBar])]
              [fooToBar] (setContent fooDocument blank))
    as (He & _ & _ & Hall & _).
  - vm_compute. reflexivity.
  - vm_compute. discriminate.
  - vm_compute. discriminate.
  - vm_compute. reflexivity.
  - split; [vm_compute; reflexivity|]. split; [exact He|].
    intros T HT. apply (Hall T HT).
Defined.

(** C6 as stated fails: "abcd" and "cdef" overlap in "abcdef" and both are
    shown as highlights. *)
Lemma render_overlap_counterexample :
  ¬ (∀ a b, a ∈ suggestions overlapEditor → b ∈ suggestions overlapEditor →
            s_start a < s_start b < s_end a →
            ¬ (a ∈ highlighted (renderContentWithHighlights overlapEditor)
               ∧ b ∈ highlighted (renderContentWithHighlights overlapEditor))).
Proof.
  intros Hone.
  pose (a := mkSuggestion 1 (lit "abcd") (lit "ABCD") (lit "x") (lit "clarity") 0 4).
  pose (b := mkSuggestion 2 (lit "cdef") (lit "CDEF") (lit "y") (lit "tone") 2 6).
  assert (Hs : suggestions overlapEditor = [a; b]) by (vm_compute; reflexivity).
  assert (Hh : highlighted (renderContentWithHighlights overlapEditor) = [a; b])
    by (vm_compute; reflexivity).
  apply (Hone a b).
  - rewrite Hs. apply list_elem_of_here.
  - rewrite Hs. apply list_elem_of_further, list_elem_of_here.
  - vm_compute. split; reflexivity.
  - rewrite Hh. split; [apply list_elem_of_here|apply list_elem_of_further, list_elem_of_here].
Qed.

Lemma render_highlights_all_sorted_sample :
  displayedText (renderContentWithHighlights fooEditor) = fooDocument.
Proof.
  destruct (render_highlights_all_sorted fooEditor) as (_ & _ & _ & _ & Htext).
  apply Htext. vm_compute. repeat split; discriminate.
Defined.

(** The second of three requests fails: the document stays. *)
Lemma prepare_failure_is_atomic_sample :
  ∃ i chunk message progress,
    planChunks 2 plainParagraphs !! i = Some chunk
    ∧ failureOf (requestFallback 2 plainParagraphs i)
                (secondFails i (requestBody 2 plainParagraphs chunk)) = Some message
    ∧ (∀ j c, (j < i)%nat → planChunks 2 plainParagraphs !! j = Some c →
              failed (secondFails j (requestBody 2 plainParagraphs c)) = false)
    ∧ prepareDocumentWith 2 secondFails plainParagraphs = (progress, Throw message)
    ∧ length progress = (i + 1)%nat
    ∧ content (handlePrepareDocumentWith 2 (at_ 9) secondFails
                                         (setContent plainParagraphs blank))
      = plainParagraphs
    ∧ suggestions (handlePrepareDocumentWith 2 (at_ 9) secondFails
                                             (setContent plainParagraphs blank)) = []
    ∧ error (handlePrepareDocumentWith 2 (at_ 9) secondFails
                                       (setContent plainParagraphs blank))
      = Some (lit "Document preparation failed: " ++ message).
Proof.
  apply (prepare_failure_is_atomic secondFails 2 (at_ 9) (setContent plainParagraphs blank)).
  - vm_compute. reflexivity.
  - exists 1%nat, (lit "c d e f"). split; vm_compute; reflexivity.
Defined.

End Samples.

(** * Further properties *)

(** ** The word budget of the planner *)

Section Budget.
Local Open Scope nat_scope.

Lemma groupWords_app g1 g2 : groupWords (g1 ++ g2) = groupWords g1 + groupWords g2.
Proof. unfold groupWords. by rewrite fmap_app, sum_list_with_app. Qed.

Lemma packed_snoc W groups g g' :
  packed W (groups ++ [g]) →
  match g' with para :: _ => W < groupWords g + paraWords para | [] => True end →
  packed W (groups ++ [g; g']).
Proof.
  induction groups as [|a groups IH]; intros Hp Hfit.
  - cbn [app packed]. destruct g'; done.
  - cbn [app packed] in *. destruct Hp as [Ha Hp]. split; [|by apply IH].
    destruct groups; exact Ha.
Qed.

Lemma packed_grow W groups cur para :
  packed W (groups ++ [cur]) → (cur = [] → groups = []) →
  packed W (groups ++ [cur ++ [para]]).
Proof.
  induction groups as [|a groups IH]; intros Hp Hcur.
  - done.
  - cbn [app packed] in *. destruct Hp as [Ha Hp]. split.
    + destruct groups as [|b groups]; [|exact Ha].
      cbn [app] in *. destruct cur as [|c cur]; [by specialize (Hcur eq_refl)|exact Ha].
    + apply IH; [done|]. intros ->. by specialize (Hcur eq_refl).
Qed.

Lemma packed_lookup W groups : ∀ i g para rest,
  packed W groups → groups !! i = Some g → groups !! S i = Some (para :: rest) →
  W < groupWords g + paraWords para.
Proof.
  induction groups as [|a groups IH]; intros i g para rest Hp Hi HSi; [done|].
  destruct Hp as [Ha Hp]. destruct i as [|i].
  - injection Hi as <-. destruct groups as [|b groups]; [done|].
    injection HSi as ->. exact Ha.
  - by apply (IH i g para rest).
Qed.

(** What the loop keeps: the closed groups are whole, non-empty, within
    budget unless single, and packed; the counter is the word count of the
    open group. *)
Lemma groupWords_singleton para : groupWords [para] = paraWords para.
Proof. unfold groupWords. cbn. lia. Qed.

Lemma planStep_budget W paragraphs : ∀ p groups,
  chunks p = join blankLine <$> groups →
  currentWordCount p = groupWords (currentChunk p) →
  Forall (λ g, g ≠ [] ∧ (groupWords g ≤ W ∨ length g = 1)) groups →
  (groupWords (currentChunk p) ≤ W ∨ length (currentChunk p) ≤ 1) →
  (currentChunk p = [] → groups = []) →
  packed W (groups ++ [currentChunk p]) →
  ∃ groups',
    let p' := foldl (planStep W) p paragraphs in
    chunks p' = join blankLine <$> groups'
    ∧ Forall (λ g, g ≠ [] ∧ (groupWords g ≤ W ∨ length g = 1)) groups'
    ∧ (groupWords (currentChunk p') ≤ W ∨ length (currentChunk p') ≤ 1)
    ∧ (currentChunk p' = [] → groups' = [])
    ∧ packed W (groups' ++ [currentChunk p'])
    ∧ concat groups' ++ currentChunk p'
      = concat groups ++ currentChunk p ++ paragraphs.
Proof.
  induction paragraphs as [|para rest IH];
    intros p groups Hch Hcount Hall Hcur Hempty Hpacked.
  - exists groups. cbv zeta. cbn [foldl]. by rewrite app_nil_r.
  - cbn [foldl]. remember (planStep W p para) as p1 eqn:Hp1.
    unfold planStep in Hp1. cbv zeta in Hp1.
    destruct (Nat.ltb W (currentWordCount p + paraWords para)
              && Nat.ltb 0 (length (currentChunk p))) eqn:Hflush; subst p1.
    + apply andb_true_iff in Hflush as [Hover%Nat.ltb_lt Hne%Nat.ltb_lt].
      edestruct (IH {| chunks := chunks p ++ [join blankLine (currentChunk p)];
                       currentChunk := [para];
                       currentWordCount := paraWords para |}
                    (groups ++ [currentChunk p]))
        as (groups' & H1 & H2 & H3 & H4 & H5 & H6);
        cbn [chunks currentChunk currentWordCount].
      * by rewrite fmap_app, Hch.
      * by rewrite groupWords_singleton.
      * apply Forall_app. split; [done|]. apply Forall_singleton. split.
        -- destruct (currentChunk p); [simpl in Hne; lia|done].
        -- destruct Hcur as [Hcur|Hcur]; [by left|right; lia].
      * right. cbn [length]. lia.
      * done.
      * rewrite <- app_assoc. cbn [app]. apply packed_snoc; [done|].
        rewrite <- Hcount. exact Hover.
      * exists groups'. cbv zeta in *. do 5 (split; [done|]).
        rewrite H6, concat_app. cbn [chunks currentChunk currentWordCount concat].
        by rewrite app_nil_r, <- !app_assoc.
    + edestruct (IH {| chunks := chunks p;
                       currentChunk := currentChunk p ++ [para];
                       currentWordCount := currentWordCount p + paraWords para |}
                    groups)
        as (groups' & H1 & H2 & H3 & H4 & H5 & H6);
        cbn [chunks currentChunk currentWordCount].
      * done.
      * by rewrite groupWords_app, groupWords_singleton, Hcount.
      * done.
      * rewrite groupWords_app, groupWords_singleton, length_app. cbn [length].
        apply andb_false_iff in Hflush as [Hfits%Nat.ltb_ge|Hnone%Nat.ltb_ge].
        -- left. rewrite <- Hcount. lia.
        -- right. lia.
      * intros Heq. by destruct (currentChunk p).
      * by apply packed_grow.
      * exists groups'. cbv zeta in *. do 5 (split; [done|]).
        rewrite H6. cbn [chunks currentChunk currentWordCount].
        by rewrite <- !app_assoc.
Qed.

Lemma planChunks_budget_groups W text :
  ∃ groups,
    planChunks W text = join blankLine <$> groups
    ∧ concat groups = split reBlankLines text
    ∧ Forall (λ g, g ≠ [] ∧ (groupWords g ≤ W ∨ length g = 1)) groups
    ∧ packed W groups
    ∧ split reBlankLines <$> planChunks W text = groups.
Proof.
  unfold planChunks.
  destruct (planStep_budget W (split reBlankLines text) (mkPlanner [] [] 0) [])
    as (groups & H1 & H2 & H3 & H4 & H5 & H6);
    [done|done|done|right; cbn; lia|done|done|].
  cbv zeta in *. cbn [chunks currentChunk currentWordCount concat app] in H6.
  set (p := foldl (planStep W) (mkPlanner [] [] 0) (split reBlankLines text)) in *.
  assert (Hback : ∀ gs, concat gs = split reBlankLines text →
                        Forall (λ g, g ≠ [] ∧ (groupWords g ≤ W ∨ length g = 1)) gs →
                        split reBlankLines <$> (join blankLine <$> gs) = gs).
  { intros gs Hc Hgs. pose proof (split_joinable text) as Hj. rewrite <- Hc in Hj.
    apply joinable_groups in Hj. rewrite <- list_fmap_compose.
    rewrite <- (list_fmap_id gs) at 2. apply Forall_fmap_ext.
    eapply Forall_impl; [apply Forall_and; split; [exact Hgs|exact Hj]|].
    intros g [[Hg _] Hjg]. by apply split_join_joinable. }
  destruct (Nat.ltb_spec 0 (length (currentChunk p))) as [Hlt|Hge].
  - assert (Hall : Forall (λ g, g ≠ [] ∧ (groupWords g ≤ W ∨ length g = 1))
                          (groups ++ [currentChunk p])).
    { apply Forall_app. split; [done|]. apply Forall_singleton. split.
      - intros Heq. rewrite Heq in Hlt. simpl in Hlt. lia.
      - destruct H3 as [H3|H3]; [by left|right; lia]. }
    assert (Hc : concat (groups ++ [currentChunk p]) = split reBlankLines text).
    { rewrite concat_app. cbn [concat]. by rewrite app_nil_r. }
    exists (groups ++ [currentChunk p]). rewrite H1.
    change [join blankLine (currentChunk p)] with (join blankLine <$> [currentChunk p]).
    rewrite <- fmap_app. do 4 (split; [done|]). by apply Hback.
  - assert (Hnil : currentChunk p = [])
      by (destruct (currentChunk p); [done|simpl in Hge; lia]).
    rewrite Hnil, app_nil_r in H6. rewrite (H4 Hnil) in *.
    exists []. rewrite H1. done.
Qed.

(** X1. The planner always yields a segment; a segment of several paragraphs
    stays within the budget, counting each paragraph as the planner does;
    only a segment that is one paragraph may exceed it. *)
Theorem planChunks_within_budget (W : nat) (text : list N) :
  planChunks W text ≠ []
  ∧ Forall (λ c, groupWords (split reBlankLines c) ≤ W
                 ∨ length (split reBlankLines c) = 1)
           (planChunks W text).
Proof.
  destruct (planChunks_budget_groups W text) as (groups & Hch & Hc & Hall & _ & Hback).
  split.
  - intros Hnil. rewrite Hnil in Hch. symmetry in Hch. apply fmap_nil_inv in Hch.
    subst groups. cbn in Hc. symmetry in Hc. by apply splitLoop_nonempty in Hc.
  - apply Forall_fmap with (f := split reBlankLines)
                           (P := λ g, groupWords g ≤ W ∨ length g = 1).
    rewrite Hback. eapply Forall_impl; [exact Hall|]. by intros g [_ Hg].
Qed.

(** X2. A segment is closed only when the next paragraph would take it over the
    budget. *)
Theorem planChunks_packs_greedily (W : nat) (text : list N) (i : nat)
        (c c' para : list N) (rest : list (list N)) :
  planChunks W text !! i = Some c →
  planChunks W text !! S i = Some c' →
  split reBlankLines c' = para :: rest →
  W < groupWords (split reBlankLines c) + paraWords para.
Proof.
  intros Hi HSi Hsplit.
  destruct (planChunks_budget_groups W text) as (groups & _ & _ & _ & Hpacked & Hback).
  apply (packed_lookup W groups i _ para rest Hpacked).
  - rewrite <- Hback, list_lookup_fmap, Hi. done.
  - rewrite <- Hback, list_lookup_fmap, HSi. cbn. by rewrite Hsplit.
Qed.

Lemma planStep_fits W paragraphs : ∀ p,
  currentWordCount p + groupWords paragraphs ≤ W →
  foldl (planStep W) p paragraphs
  = {| chunks := chunks p;
       currentChunk := currentChunk p ++ paragraphs;
       currentWordCount := currentWordCount p + groupWords paragraphs |}.
Proof.
  induction paragraphs as [|para rest IH]; intros p Hfit.
  - destruct p. cbn. unfold groupWords. cbn. by rewrite app_nil_r, Nat.add_0_r.
  - change (para :: rest) with ([para] ++ rest) in Hfit.
    rewrite groupWords_app, groupWords_singleton in Hfit.
    cbn [foldl]. unfold planStep at 2. cbv zeta.
    replace (Nat.ltb W (currentWordCount p + paraWords para)) with false
      by (symmetry; apply Nat.ltb_ge; lia).
    cbn [andb]. rewrite IH; cbn [chunks currentChunk currentWordCount]; [|lia].
    change (para :: rest) with ([para] ++ rest).
    rewrite groupWords_app, groupWords_singleton. f_equal; [by rewrite <- app_assoc|lia].
Qed.

Lemma planChunks_fits (W : nat) (text : list N) :
  groupWords (split reBlankLines text) ≤ W →
  planChunks W text = [join blankLine (split reBlankLines text)].
Proof.
  intros Hfit. unfold planChunks. rewrite planStep_fits by (cbn; lia).
  cbn [chunks currentChunk app].
  pose proof (splitLoop_nonempty reBlankLines 0 [] text) as Hne.
  fold (split reBlankLines text) in Hne.
  destruct (split reBlankLines text); done.
Qed.

(** X3. A document whose paragraphs fit the budget together is planned as
    one segment, its paragraphs joined by blank lines.  The segment is not
    what is sent: there is then one request, announced by "Processing
    document...", and it carries the text as it was given, runs of blank
    lines included.  The result is the trimmed answer to that request, or
    its error, which names no section. *)
Theorem planChunks_small_document (W : nat) (fetch : nat → list N → response)
        (text : list N) :
  groupWords (split reBlankLines text) ≤ W →
  planChunks W text = [join blankLine (split reBlankLines text)]
  ∧ requestBody W text (join blankLine (split reBlankLines text)) = wholePrompt ++ text
  ∧ prepareDocumentWith W fetch text
    = ([lit "Processing document..."],
       match fetch 0 (wholePrompt ++ text) with
       | Rejected message => Throw message
       | HttpError status err => Throw (orElse err (lit "API error: " ++ ofNat status))
       | HttpOk items => Return (trim (itemsText [] items))
       end).
Proof.
  intros Hfit. pose proof (planChunks_fits W text Hfit) as Hplan.
  split; [done|]. split.
  - unfold requestBody. by rewrite Hplan.
  - unfold prepareDocumentWith. cbv zeta. rewrite Hplan. cbn [length Nat.eqb].
    by destruct (fetch 0 (wholePrompt ++ text)).
Qed.

End Budget.

(** ** Restoring and deleting versions *)

Section LedgerMore.
Import versioning.
Local Open Scope nat_scope.

Lemma restoreVersion_find id (ls : gmap string item) :
  restoreVersion id ls
  = v_content <$> find (λ v, bool_decide (v_id v = id)) (getVersions ls).
Proof. reflexivity. Qed.

Lemma find_id_None id (vs : list Version) :
  find (λ v, bool_decide (v_id v = id)) vs = None ↔ id ∉ v_id <$> vs.
Proof.
  induction vs as [|v vs IH]; cbn [find fmap list_fmap].
  - split; [intros _; apply not_elem_of_nil|done].
  - rewrite not_elem_of_cons. case_bool_decide as Hv.
    + split; [done|]. intros [Hne _]. by destruct Hne.
    + rewrite IH. split; [|by intros [_ ?]]. intros Hn. split; [congruence|done].
Qed.

Lemma find_id_Some id (vs : list Version) v :
  find (λ v, bool_decide (v_id v = id)) vs = Some v ↔
  ∃ i, vs !! i = Some v ∧ v_id v = id
       ∧ ∀ j w, j < i → vs !! j = Some w → v_id w ≠ id.
Proof.
  revert v. induction vs as [|u vs IH]; intros v; cbn [find].
  - split; [done|]. by intros (i & Hi & _).
  - case_bool_decide as Hu.
    + split.
      * intros [= <-]. exists 0. split; [done|]. split; [done|]. intros j w Hj. lia.
      * intros ([|i] & Hi & Hid & Hfirst).
        -- by injection Hi as <-.
        -- by destruct (Hfirst 0 u ltac:(lia) eq_refl).
    + rewrite IH. split.
      * intros (i & Hi & Hid & Hfirst). exists (S i). split; [done|]. split; [done|].
        intros [|j] w Hj Hw; [by injection Hw as <-|]. apply (Hfirst j w); [lia|done].
      * intros ([|i] & Hi & Hid & Hfirst).
        -- injection Hi as <-. done.
        -- exists i. split; [done|]. split; [done|].
           intros j w Hj Hw. apply (Hfirst (S j) w); [lia|done].
Qed.

(** X4. [restoreVersion] gives the content of the newest version that has the
    id, and nothing exactly when no version has it. *)
Theorem restoreVersion_newest_with_id (id : Z) (ls : gmap string item) :
  (restoreVersion id ls = None ↔ id ∉ v_id <$> getVersions ls)
  ∧ ∀ c, restoreVersion id ls = Some c ↔
         ∃ i v, getVersions ls !! i = Some v ∧ v_id v = id ∧ v_content v = c
                ∧ ∀ j w, j < i → getVersions ls !! j = Some w → v_id w ≠ id.
Proof.
  rewrite restoreVersion_find. split.
  - rewrite <- find_id_None.
    destruct (find (λ v, bool_decide (v_id v = id)) (getVersions ls)); split; done.
  - intros c. split.
    + destruct (find _ (getVersions ls)) as [v|] eqn:Hf; [|done].
      intros [= <-]. apply find_id_Some in Hf as (i & Hi & Hid & Hfirst).
      by exists i, v.
    + intros (i & v & Hi & Hid & <- & Hfirst).
      assert (find (λ v, bool_decide (v_id v = id)) (getVersions ls) = Some v) as ->
        by (apply find_id_Some; by exists i).
      done.
Qed.

Lemma restoreVersion_head id v (vs : list Version) (ls : gmap string item) :
  v_id v = id →
  restoreVersion id (<[VERSION_KEY := VersionsJson (take MAX_VERSIONS (v :: vs))]> ls)
  = Some (v_content v).
Proof.
  intros Hid. rewrite restoreVersion_find, getVersions_insert.
  change (take MAX_VERSIONS (v :: vs)) with (v :: take 4 vs).
  cbn [find]. by rewrite bool_decide_eq_true_2.
Qed.

Lemma restoreVersion_saved e (content label : list N) (ls : gmap string item) :
  setItemOk e = true →
  restoreVersion (now e) (saveVersion e content label ls).2 = Some content.
Proof.
  intros Hok. destruct (saveVersion_ok e content label ls Hok) as (v & -> & Hc & Hid).
  cbn [snd]. by rewrite restoreVersion_head, Hc.
Qed.

(** X5. A version that was saved can be restored under the id it was given,
    whatever the ledger held before; any other id that restores afterwards
    restored to the same content before. *)
Theorem saveVersion_then_restore e (content label : list N) (ls : gmap string item) :
  setItemOk e = true →
  let ls' := (saveVersion e content label ls).2 in
  restoreVersion (now e) ls' = Some content
  ∧ ∀ id c, id ≠ now e → restoreVersion id ls' = Some c → restoreVersion id ls = Some c.
Proof.
  intros Hok ls'. subst ls'. split; [by apply restoreVersion_saved|].
  intros id c Hne. destruct (saveVersion_ok e content label ls Hok) as (v & -> & Hc & Hid).
  cbn [snd]. rewrite !restoreVersion_find, getVersions_insert.
  change (take MAX_VERSIONS (v :: getVersions ls)) with (v :: take 4 (getVersions ls)).
  cbn [find]. rewrite bool_decide_eq_false_2 by congruence.
  generalize 4. induction (getVersions ls) as [|u vs IH]; intros n.
  - by rewrite take_nil.
  - destruct n as [|n]; [done|]. cbn [take find].
    destruct (bool_decide (v_id u = id)); [done|]. apply IH.
Qed.

(** X6. Deleting removes every version of that id and no other, keeping the
    order of the rest; the id can no longer be restored, every other id
    restores as before, nothing else in the store changes, and deleting
    again changes nothing.  When the write fails the store is as it was. *)
Theorem deleteVersion_removes_id (setOk : bool) (id : Z) (ls : gmap string item) :
  let r := deleteVersion setOk id ls in
  (setOk = true →
   r.1 = true
   ∧ getVersions r.2 = filter (λ v, v_id v ≠ id) (getVersions ls)
   ∧ restoreVersion id r.2 = None
   ∧ (∀ id', id' ≠ id → restoreVersion id' r.2 = restoreVersion id' ls)
   ∧ (∀ k, k ≠ VERSION_KEY → r.2 !! k = ls !! k)
   ∧ getVersions (deleteVersion true id r.2).2 = getVersions r.2)
  ∧ (setOk = false → r = (false, ls)).
Proof.
  intros r. subst r. split; intros ->; [|done].
  unfold deleteVersion. cbn [fst snd]. rewrite !getVersions_insert.
  split; [done|]. split; [done|]. split; [|split; [|split]].
  - rewrite restoreVersion_find, getVersions_insert.
    assert (find (λ v, bool_decide (v_id v = id))
                 (filter (λ v, v_id v ≠ id) (getVersions ls)) = None) as ->; [|done].
    apply find_id_None. intros (v & Hid & Hv)%list_elem_of_fmap.
    apply list_elem_of_filter in Hv as [Hne _]. congruence.
  - intros id' Hne. rewrite !restoreVersion_find, getVersions_insert. f_equal.
    induction (getVersions ls) as [|v vs IH]; [done|].
    rewrite filter_cons. case_decide as Hv; cbn [find].
    + by rewrite IH.
    + rewrite IH. rewrite bool_decide_eq_false_2; [done|]. congruence.
  - intros k Hk. by rewrite lookup_insert_ne.
  - rewrite list_filter_filter. apply list_filter_iff. intros v. tauto.
Qed.

Lemma take_app_take {A} n (l1 l2 : list A) :
  take n (l1 ++ take n l2) = take n (l1 ++ l2).
Proof.
  rewrite !take_app. f_equal. rewrite take_take. f_equal. lia.
Qed.

(** X7. After any run of successful saves, on a ledger within its bound, the
    ledger holds the five most recently saved contents, newest first, older
    entries making up the number when there are fewer saves. *)
Theorem saves_keep_the_latest (calls : list ledgerCall) (ls : gmap string item) :
  Forall savedOk calls →
  length (getVersions ls) ≤ MAX_VERSIONS →
  v_content <$> getVersions (runLedger calls ls)
  = take MAX_VERSIONS (rev (savedContents calls) ++ (v_content <$> getVersions ls)).
Proof.
  intros Hall. revert ls. induction Hall as [|c calls Hc Hall IH]; intros ls Hlen.
  - cbn [runLedger foldl savedContents omap list_omap rev app].
    symmetry. apply take_ge. by rewrite length_fmap.
  - destruct c as [e content label|]; [|done]. cbn in Hc.
    change (runLedger (CallSave e content label :: calls) ls)
      with (runLedger calls (saveVersion e content label ls).2).
    rewrite IH by (apply (ledgerStep_bound ls (CallSave e content label) Hlen)).
    destruct (saveVersion_ok e content label ls Hc) as (v & -> & Hv & _).
    cbn [snd]. rewrite getVersions_insert, fmap_take, fmap_cons, Hv.
    rewrite take_app_take.
    change (savedContents (CallSave e content label :: calls))
      with (content :: savedContents calls).
    cbn [rev]. by rewrite <- app_assoc.
Qed.

End LedgerMore.

(** ** Blank documents *)

Section Blank.
Local Open Scope nat_scope.

Lemma trimStart_nil s : trimStart s = [] ↔ Forall (λ c, isSpace c = true) s.
Proof.
  induction s as [|c s IH]; cbn [trimStart]; [by split|].
  destruct (isSpace c) eqn:Hc.
  - rewrite IH. split; [by constructor|]. by intros [_ ?]%Forall_cons.
  - split; [done|]. intros [? _]%Forall_cons. congruence.
Qed.

Lemma trimStart_head s c rest : trimStart s = c :: rest → isSpace c = false.
Proof.
  induction s as [|d s IH]; cbn [trimStart]; [done|].
  destruct (isSpace d) eqn:Hd; [exact IH|]. by intros [= <- _].
Qed.

Lemma trim_nil s : trim s = [] ↔ Forall (λ c, isSpace c = true) s.
Proof.
  unfold trim, trimEnd. split.
  - intros Hnil. apply trimStart_nil.
    assert (Hrev : trimStart (rev (trimStart s)) = []).
    { rewrite <- (rev_involutive (trimStart (rev (trimStart s)))). by rewrite Hnil. }
    apply trimStart_nil in Hrev. apply Forall_rev in Hrev. rewrite rev_involutive in Hrev.
    destruct (trimStart s) as [|c rest] eqn:Hs; [done|].
    apply trimStart_head in Hs. apply Forall_cons in Hrev as [Hc _]. congruence.
  - intros Hall. apply trimStart_nil in Hall. by rewrite Hall.
Qed.

(** The guard of analysis and preparation refuses exactly the documents
    made of white space only (the empty one included) and the sample
    text. *)
Lemma nothingToEdit_blank c :
  nothingToEdit c = true ↔ Forall (λ ch, isSpace ch = true) c ∨ c = SAMPLE_TEXT.
Proof.
  unfold nothingToEdit. rewrite orb_true_iff, !bool_decide_eq_true, trim_nil. done.
Qed.

(** X8. On a document that is empty, all white space or the sample text,
    analysis and preparation only set their error message: no request is
    made, no version is saved, and the document, the Suggestion Set, the
    chat and the stored data stay as they are. *)
Theorem blank_document_is_refused
        (JSON_parse : list N → outcome (list RawSuggestion)) (r : response)
        (W : nat) (e : versioning.env) (fetch : nat → list N → response)
        (st : Editor) :
  Forall (λ ch, isSpace ch = true) (content st) ∨ content st = SAMPLE_TEXT →
  analyzeContent JSON_parse r st
  = setError (Some (lit "Please paste your chapter content before analyzing.")) st
  ∧ handlePrepareDocumentWith W e fetch st
    = setError (Some (lit "Please paste your chapter content before preparing.")) st.
Proof.
  intros Hblank%nothingToEdit_blank.
  unfold analyzeContent, handlePrepareDocumentWith. by rewrite Hblank.
Qed.

End Blank.

(** ** A preparation that succeeds *)

Section PrepareMore.
Local Open Scope nat_scope.

Variable fetch : nat → list N → response.

Lemma processChunks_all_succeed total todo : ∀ i0 processed,
  (∀ k chunk, todo !! k = Some chunk →
              failed (fetch (i0 + k) (sectionPrompt ++ chunk)) = false) →
  ∃ progress,
    processChunks fetch total i0 todo processed
    = (progress,
       Return (join blankLine
                 (processed ++ imap (λ k chunk, answerOf (fetch (i0 + k) (sectionPrompt ++ chunk)))
                                    todo)))
    ∧ length progress = length todo.
Proof.
  induction todo as [|chunk rest IH]; intros i0 processed Hok.
  - exists []. cbn. by rewrite app_nil_r.
  - cbn [processChunks]. pose proof (Hok 0 chunk eq_refl) as H0.
    rewrite Nat.add_0_r in H0.
    destruct (fetch i0 (sectionPrompt ++ chunk)) as [m|status err|items] eqn:Hf;
      [done|done|].
    destruct (IH (i0 + 1) (processed ++ [trim (itemsText [] items)])) as (progress & Hrun & Hlen).
    { intros k c Hk. replace (i0 + 1 + k) with (i0 + S k) by lia. by apply Hok. }
    rewrite Hrun. eexists. split.
    + f_equal. do 2 f_equal. rewrite <- app_assoc. f_equal.
      rewrite imap_cons. rewrite Nat.add_0_r, Hf. cbn [app answerOf]. f_equal.
      apply imap_ext. intros k c _. cbn. do 2 f_equal. lia.
    + cbn [length]. by rewrite Hlen.
Qed.

(** X9. When every request succeeds there is one request per segment, made in
    order, and the result is the answers, trimmed, joined by blank lines in
    the order of the segments. *)
Theorem prepare_joins_answers_in_order (W : nat) (text : list N) :
  (∀ i chunk, planChunks W text !! i = Some chunk →
              failed (fetch i (requestBody W text chunk)) = false) →
  ∃ progress,
    prepareDocumentWith W fetch text
    = (progress,
       Return (join blankLine
                 (imap (λ i chunk, answerOf (fetch i (requestBody W text chunk)))
                       (planChunks W text))))
    ∧ length progress = length (planChunks W text).
Proof.
  unfold prepareDocumentWith, requestBody.
  destruct (Nat.eqb_spec (length (planChunks W text)) 1) as [Hone|Hmany]; intros Hok.
  - destruct (planChunks W text) as [|chunk [|]] eqn:Hch; try done.
    specialize (Hok 0 chunk eq_refl).
    destruct (fetch 0 (wholePrompt ++ text)) as [m|status err|items] eqn:Hf; [done|done|].
    eexists. split; [cbn [imap join]; by rewrite Hf|reflexivity].
  - destruct (processChunks_all_succeed (length (planChunks W text)) (planChunks W text) 0 [])
      as (progress & Hrun & Hlen); [exact Hok|].
    exists progress. by rewrite Hrun.
Qed.

Lemma onProgress_only_chat progress : ∀ st,
  ∃ h, foldl (λ st msg, onProgress msg st) st progress = setChatHistory (λ _, h) st.
Proof.
  induction progress as [|msg progress IH]; intros st.
  - exists (chatHistory st). by destruct st.
  - cbn [foldl]. destruct (IH (onProgress msg st)) as [h ->]. by exists h.
Qed.

(** X10. Preparation first saves the document as a version labelled "Before
    preparation": when that write goes through, the version heads the
    ledger whether the requests then succeed or fail, the version list shown
    is the ledger, and the saved text can be restored under the id given. *)
Theorem prepare_snapshots_first (W : nat) (e : versioning.env) (st : Editor) :
  nothingToEdit (content st) = false →
  versioning.setItemOk e = true →
  let st' := handlePrepareDocumentWith W e fetch st in
  ∃ v, versioning.getVersions (store st')
       = take MAX_VERSIONS (v :: versioning.getVersions (store st))
       ∧ v_content v = content st
       ∧ v_label v = lit "Before preparation"
       ∧ versions st' = versioning.getVersions (store st')
       ∧ versioning.restoreVersion (versioning.now e) (store st') = Some (content st)
       ∧ isPreparing st' = false.
Proof.
  intros Hguard Hok st'. subst st'.
  pose proof (restoreVersion_saved e (content st) (lit "Before preparation")
                (store st) Hok) as Hrestore.
  unfold handlePrepareDocumentWith. rewrite Hguard. cbv zeta.
  destruct (prepareDocumentWith W fetch (content st)) as [progress result].
  match goal with
  | |- context [foldl ?f ?s progress] =>
      destruct (onProgress_only_chat progress s) as [h ->]
  end.
  unfold versioning.saveVersion in *. rewrite Hok in *. cbn [snd] in *.
  rewrite popExcess_take in * by (cbn [length]; lia).
  eexists. destruct result; cbn; rewrite !getVersions_insert;
    (split; [reflexivity|]); repeat split; exact Hrestore.
Qed.

(** X11. When the requests succeed the document becomes the result, the
    Suggestion Set is emptied and no error is shown; this happens also when
    the version could not be written, and then without a backup. *)
Theorem prepare_replaces_document (W : nat) (e : versioning.env) (st : Editor)
        (progress : list (list N)) (prepared : list N) :
  nothingToEdit (content st) = false →
  prepareDocumentWith W fetch (content st) = (progress, Return prepared) →
  let st' := handlePrepareDocumentWith W e fetch st in
  content st' = prepared ∧ suggestions st' = [] ∧ error st' = None
  ∧ (versioning.setItemOk e = false → store st' = store st).
Proof.
  intros Hguard Hrun st'. subst st'.
  unfold handlePrepareDocumentWith. rewrite Hguard. cbv zeta. rewrite Hrun.
  match goal with
  | |- context [foldl ?f ?s progress] =>
      destruct (onProgress_only_chat progress s) as [h ->]
  end.
  cbn. repeat split. intros Hko. by rewrite saveVersion_failed.
Qed.

End PrepareMore.

(** ** Accepting and dismissing *)

Section AcceptMore.
Local Open Scope nat_scope.

Lemma acceptSuggestion_splice (S : Suggestion) (st : Editor) a b :
  s_start S = Z.of_nat a → s_end S = Z.of_nat b → a ≤ b → b ≤ length (content st) →
  content (acceptSuggestion S st)
  = take a (content st) ++ s_suggestion S ++ drop b (content st).
Proof.
  intros Ha Hb Hab Hlen. rewrite acceptSuggestion_content, Ha, Hb.
  by rewrite substring_prefix, substringFrom_drop by lia.
Qed.

(** X12. Accepting puts the replacement text where the region [start, end) was,
    whatever that region held: the text before it and the text after it are
    kept, and the length changes by the difference. *)
Theorem acceptSuggestion_replaces_region (S : Suggestion) (st : Editor) :
  (0 ≤ s_start S ≤ s_end S)%Z →
  (s_end S ≤ len (content st))%Z →
  let st' := acceptSuggestion S st in
  let stop := (s_start S + len (s_suggestion S))%Z in
  substring (content st') 0 (s_start S) = substring (content st) 0 (s_start S)
  ∧ substring (content st') (s_start S) stop = s_suggestion S
  ∧ substringFrom (content st') stop = substringFrom (content st) (s_end S)
  ∧ len (content st')
    = (len (content st) + len (s_suggestion S) - (s_end S - s_start S))%Z.
Proof.
  intros HS Hlen st' stop. subst st' stop. unfold len in *.
  remember (Z.to_nat (s_start S)) as a eqn:Ha.
  remember (Z.to_nat (s_end S)) as b eqn:Hb.
  assert (Hsa : s_start S = Z.of_nat a) by lia.
  assert (Hsb : s_end S = Z.of_nat b) by lia.
  rewrite (acceptSuggestion_splice S st a b) by lia.
  rewrite Hsa, Hsb.
  assert (Hla : length (take a (content st)) = a) by (rewrite length_take; lia).
  split; [|split; [|split]].
  - rewrite !substring_prefix by (rewrite ?length_app, ?Hla; lia).
    by rewrite take_app_le, take_take, Nat.min_id by lia.
  - rewrite substring_range by (rewrite !length_app, Hla; lia).
    rewrite drop_app_ge, Hla, Nat.sub_diag, drop_0 by lia.
    by rewrite take_app_length.
  - rewrite <- Nat2Z.inj_add.
    rewrite !substringFrom_drop by (rewrite ?length_app, ?Hla, ?length_drop; lia).
    rewrite drop_app_ge, Hla by lia.
    replace (a + length (s_suggestion S) - a) with (length (s_suggestion S)) by lia.
    by rewrite drop_app_length.
  - rewrite !length_app, Hla, length_drop. lia.
Qed.

(** X13. Accepting a later suggestion first leaves an earlier one anchored:
    its region still holds the same text at the same offsets, and accepting
    it next gives the document with both replacements in place. *)
Theorem accept_back_to_front (S T : Suggestion) (st : Editor) :
  (0 ≤ s_start S ≤ s_end S)%Z →
  (s_end S ≤ s_start T ≤ s_end T)%Z →
  (s_end T ≤ len (content st))%Z →
  s_id S ≠ s_id T →
  S ∈ suggestions st →
  S ∈ suggestions (acceptSuggestion T st)
  ∧ substring (content (acceptSuggestion T st)) (s_start S) (s_end S)
    = substring (content st) (s_start S) (s_end S)
  ∧ content (acceptSuggestion S (acceptSuggestion T st))
    = substring (content st) 0 (s_start S) ++ s_suggestion S
      ++ substring (content st) (s_end S) (s_start T) ++ s_suggestion T
      ++ substringFrom (content st) (s_end T).
Proof.
  intros HS HT Hlen Hid Hin. unfold len in *.
  remember (Z.to_nat (s_start S)) as a eqn:Ha.
  remember (Z.to_nat (s_end S)) as b eqn:Hb.
  remember (Z.to_nat (s_start T)) as p eqn:Hp.
  remember (Z.to_nat (s_end T)) as q eqn:Hq.
  assert (Hsa : s_start S = Z.of_nat a) by lia.
  assert (Hsb : s_end S = Z.of_nat b) by lia.
  assert (Htp : s_start T = Z.of_nat p) by lia.
  assert (Htq : s_end T = Z.of_nat q) by lia.
  assert (HcT := acceptSuggestion_splice T st p q Htp Htq ltac:(lia) ltac:(lia)).
  assert (Hlp : length (take p (content st)) = p) by (rewrite length_take; lia).
  split; [rewrite acceptSuggestion_suggestions; by apply list_elem_of_filter|].
  split.
  - rewrite HcT, Hsa, Hsb.
    replace (Z.of_nat b) with (Z.of_nat a + Z.of_nat (b - a))%Z by lia.
    rewrite !substring_range by (rewrite ?length_app, ?Hlp; lia).
    rewrite !take_drop_commute. f_equal. replace (a + (b - a)) with b by lia.
    by rewrite take_app_le, take_take, Nat.min_l by lia.
  - rewrite (acceptSuggestion_splice S (acceptSuggestion T st) a b Hsa Hsb)
      by (rewrite ?HcT, ?length_app, ?Hlp; lia).
    rewrite HcT, Hsa, Hsb, Htp, Htq.
    rewrite substring_prefix, substringFrom_drop by lia.
    rewrite (substring_Z (content st) (Z.of_nat b) (Z.of_nat p)) by (unfold len; lia).
    replace (Z.to_nat (Z.of_nat p - Z.of_nat b)) with (p - b) by lia.
    rewrite Nat2Z.id.
    rewrite take_app_le, take_take, Nat.min_l by lia. do 2 f_equal.
    rewrite drop_app_le by lia. f_equal.
    rewrite take_drop_commute. by replace (b + (p - b)) with p by lia.
Qed.

Lemma filter_other_ids (S : Suggestion) (l : list Suggestion) :
  s_id S ∉ s_id <$> l → filter (λ T, s_id T ≠ s_id S) l = l.
Proof.
  induction l as [|T l IH]; [done|]. rewrite fmap_cons, not_elem_of_cons.
  intros [Hne Hnot]. rewrite filter_cons, IH by done.
  case_decide as Hd; [done|]. by destruct Hd.
Qed.

Lemma filter_removes_one (S : Suggestion) (l : list Suggestion) :
  NoDup (s_id <$> l) → S ∈ l →
  ∃ l1 l2, l = l1 ++ S :: l2 ∧ filter (λ T, s_id T ≠ s_id S) l = l1 ++ l2.
Proof.
  induction l as [|T l IH]; intros Hnd Hin; [by apply elem_of_nil in Hin|].
  rewrite fmap_cons in Hnd. apply NoDup_cons in Hnd as [Hfresh Hnd].
  rewrite filter_cons. apply elem_of_cons in Hin as [->|Hin].
  - exists [], l. split; [done|].
    case_decide as Hd; [done|]. by rewrite filter_other_ids.
  - assert (Hne : s_id T ≠ s_id S).
    { intros Heq. apply Hfresh. rewrite Heq. apply list_elem_of_fmap. by exists S. }
    destruct (IH Hnd Hin) as (l1 & l2 & -> & Hf).
    exists (T :: l1), l2. split; [done|]. rewrite Hf.
    by case_decide.
Qed.

(** X14. While the ids of the pending suggestions are distinct, accepting or
    dismissing one that is pending takes exactly that one out of the set:
    the others stay, in their order, and their ids stay distinct. *)
Theorem removal_takes_exactly_one (S : Suggestion) (st : Editor) :
  NoDup (s_id <$> suggestions st) →
  S ∈ suggestions st →
  ∃ l1 l2,
    suggestions st = l1 ++ S :: l2
    ∧ suggestions (acceptSuggestion S st) = l1 ++ l2
    ∧ suggestions (dismissSuggestion S st) = l1 ++ l2
    ∧ NoDup (s_id <$> (l1 ++ l2))
    ∧ content (dismissSuggestion S st) = content st.
Proof.
  intros Hnd Hin. destruct (filter_removes_one S _ Hnd Hin) as (l1 & l2 & Heq & Hf).
  exists l1, l2. split; [done|]. split; [exact Hf|]. split; [exact Hf|].
  split; [|done]. rewrite Heq in Hnd. rewrite fmap_app, fmap_cons in Hnd.
  rewrite fmap_app. apply NoDup_app in Hnd as (H1 & H2 & H3).
  apply NoDup_cons in H3 as [_ H3]. apply NoDup_app. split; [done|]. split; [|done].
  intros x Hx Hx'. apply (H2 x Hx). by right.
Qed.

End AcceptMore.

(** ** More on analysis *)

Section AnalysisMore.
Local Open Scope nat_scope.

Variable JSON_parse : list N → outcome (list RawSuggestion).

Lemma StronglySorted_ids_NoDup (l : list Suggestion) :
  StronglySorted (λ a b, s_id a < s_id b) l → NoDup (s_id <$> l).
Proof.
  induction 1 as [|T l Hs IH Hall]; [constructor|].
  rewrite fmap_cons. constructor; [|done].
  intros (T' & Heq & Hin)%list_elem_of_fmap.
  rewrite Forall_forall in Hall. specialize (Hall T' Hin). lia.
Qed.

(** X15. What a successful analysis leaves in the Suggestion Set: suggestions
    with distinct ids, each within the document and covering its own
    text. *)
Theorem analysis_gives_distinct_anchored (r : response) (st : Editor)
        (l : list Suggestion) :
  nothingToEdit (content st) = false →
  requestSuggestions JSON_parse r (content st) = Return l →
  suggestions (analyzeContent JSON_parse r st) = l
  ∧ NoDup (s_id <$> l)
  ∧ Forall (λ T, (0 ≤ s_start T ≤ s_end T)%Z
                 ∧ (s_end T ≤ len (content st))%Z
                 ∧ substring (content st) (s_start T) (s_end T) = s_original T) l.
Proof.
  intros Hguard Hreq.
  split; [by rewrite (analyzeContent_Return _ _ _ _ Hguard Hreq)|].
  destruct (requestSuggestions_Return _ _ _ _ Hreq) as (items & arr & _ & _ & _ & _ & ->).
  rewrite processSuggestions_from. split.
  - apply StronglySorted_ids_NoDup, processFrom_sorted.
  - apply Forall_lookup. intros n T (idx & raw & _ & _ & Ha & _)%processFrom_lookup.
    apply anchor_first_occurrence in Ha as (H1 & H2 & _ & H3 & _). done.
Qed.

(** X16. Accepting a suggestion straight after the analysis that returned it
    replaces the first occurrence of its text in the document by the
    suggested text, and nothing else. *)
Theorem analysis_then_accept (r : response) (st : Editor) (l : list Suggestion)
        (T : Suggestion) :
  nothingToEdit (content st) = false →
  requestSuggestions JSON_parse r (content st) = Return l →
  T ∈ l →
  ∃ before after,
    content st = before ++ s_original T ++ after
    ∧ content (acceptSuggestion T (analyzeContent JSON_parse r st))
      = before ++ s_suggestion T ++ after
    ∧ ∀ j, j < length before → ¬ s_original T `prefix_of` drop j (content st).
Proof.
  intros Hguard Hreq Hin.
  rewrite (analyzeContent_Return _ _ _ _ Hguard Hreq).
  destruct (requestSuggestions_Return _ _ _ _ Hreq) as (items & arr & _ & _ & _ & _ & ->).
  apply list_elem_of_lookup in Hin as [n Hn]. rewrite processSuggestions_from in Hn.
  apply processFrom_lookup in Hn as (idx & raw & _ & _ & Ha & _).
  apply anchor_Some in Ha as (_ & Ho & _ & _ & _ & Hs & Hne & He).
  rewrite <- Ho in Hs, He. unfold indexOf in Hs.
  destruct (search (s_original T) (content st)) as [i|] eqn:Hsearch; [|lia].
  apply search_Some in Hsearch as (Hp & Hfirst & Hlen).
  exists (take i (content st)), (drop (i + length (s_original T)) (content st)).
  assert (Hli : length (take i (content st)) = i) by (rewrite length_take; lia).
  split; [|split].
  - rewrite <- (take_drop i (content st)) at 1. f_equal.
    rewrite <- (take_drop (length (s_original T)) (drop i (content st))) at 1.
    by rewrite take_prefix_eq, drop_drop.
  - rewrite acceptSuggestion_content.
    cbn [content setIsAnalyzing say setChatHistory setSuggestions setError].
    rewrite He, Hs. unfold len. rewrite <- Nat2Z.inj_add.
    by rewrite substring_prefix, substringFrom_drop by lia.
  - rewrite Hli. exact Hfirst.
Qed.

(** X17. Analysis never touches the document, the stored data or the version
    list.  Once past the guard it adds exactly one assistant message to the
    chat and ends with the busy flag down. *)
Theorem analysis_never_edits (r : response) (st : Editor) :
  let st' := analyzeContent JSON_parse r st in
  content st' = content st ∧ store st' = store st ∧ versions st' = versions st
  ∧ (nothingToEdit (content st) = false →
     isAnalyzing st' = false
     ∧ ∃ text, chatHistory st' = chatHistory st ++ [mkMessage assistant text]).
Proof.
  intros st'. subst st'.
  destruct (nothingToEdit (content st)) eqn:Hguard.
  - unfold analyzeContent. rewrite Hguard. done.
  - destruct (requestSuggestions JSON_parse r (content st)) as [l|message] eqn:Hreq.
    + rewrite (analyzeContent_Return _ _ _ _ Hguard Hreq). do 3 (split; [done|]).
      intros _. split; [done|]. by eexists.
    + rewrite (analyzeContent_Throw _ _ _ _ Hguard Hreq). do 3 (split; [done|]).
      intros _. split; [done|]. by eexists.
Qed.

(** X18. A request that fails, or an answer whose array does not parse, ends
    the analysis with an error that names the cause: the error of the
    service, or its status when it names none, or the message of the
    parser with at most 300 characters of the text it was given.  The
    Suggestion Set is then empty. *)
Theorem analysis_reports_failures (r : response) (st : Editor) :
  nothingToEdit (content st) = false →
  let st' := analyzeContent JSON_parse r st in
  (∀ message, r = Rejected message →
     error st' = Some (lit "Analysis failed: " ++ message) ∧ suggestions st' = [])
  ∧ (∀ status err, r = HttpError status err →
       error st' = Some (lit "Analysis failed: "
                         ++ orElse err (lit "API error: " ++ ofNat status))
       ∧ suggestions st' = [])
  ∧ (∀ items message,
       r = HttpOk items →
       indexOf (itemsText [NL] items) (lit "[") ≠ (-1)%Z →
       lastIndexOf (itemsText [NL] items) (lit "]") ≠ (-1)%Z →
       JSON_parse (jsonText (itemsText [NL] items)) = Throw message →
       error st' = Some (lit "Analysis failed: " ++ lit "JSON parse failed: " ++ message
                         ++ lit ". JSON started with: " ++ [QUOTE]
                         ++ preview (jsonText (itemsText [NL] items))
                         ++ lit "..." ++ [QUOTE])
       ∧ length (preview (jsonText (itemsText [NL] items))) ≤ 300
       ∧ suggestions st' = []).
Proof.
  intros Hguard st'. subst st'. split; [|split].
  - intros message ->. by rewrite (analyzeContent_Throw _ _ _ message Hguard).
  - intros status err ->.
    by rewrite (analyzeContent_Throw _ _ _
                  (orElse err (lit "API error: " ++ ofNat status)) Hguard).
  - intros items message -> H1 H2 Hp.
    erewrite analyzeContent_Throw; [|done|].
    2:{ unfold requestSuggestions. cbn [callClaudeAPI].
        rewrite extractSuggestions_array by done. by rewrite Hp. }
    split; [done|]. split; [apply preview_bounded|done].
Qed.

End AnalysisMore.

(** ** Stored content, chat history and backups *)

Section StorageMore.
Import storage.
Local Open Scope nat_scope.
Context {Message Preferences : Type} `{!Json Message Preferences}.

Lemma getItem_insert_Text (ls : gmap string item) k k' s :
  getItem (<[k := Text s]> ls) k' = if decide (k = k') then Some s else getItem ls k'.
Proof.
  unfold getItem. rewrite lookup_insert. by case_decide.
Qed.

Lemma getVersions_insert_ne (ls : gmap string item) k x :
  k ≠ VERSION_KEY → versioning.getVersions (<[k := x]> ls) = versioning.getVersions ls.
Proof. intros Hk. unfold versioning.getVersions. by rewrite lookup_insert_ne. Qed.

Lemma truthy_idemp v : truthy (truthy v) = truthy v.
Proof. by destruct v as [[|c s]|]. Qed.

Lemma saveContent_unfold w content (ls : gmap string item) :
  saveContent w content ls
  = if contentOk w
    then if lastSavedOk w
         then (true, <[STORAGE_KEYS.LAST_SAVED := Text (isoNow w)]>
                       (<[STORAGE_KEYS.CONTENT := Text content]> ls))
         else (false, <[STORAGE_KEYS.CONTENT := Text content]> ls)
    else (false, ls).
Proof. reflexivity. Qed.

Lemma saveContent_getVersions w content (ls : gmap string item) :
  versioning.getVersions (saveContent w content ls).2 = versioning.getVersions ls.
Proof.
  rewrite saveContent_unfold.
  destruct (contentOk w), (lastSavedOk w); cbn [snd];
    by rewrite ?getVersions_insert_ne.
Qed.

Lemma saveContent_loadContent w content (ls : gmap string item) :
  contentOk w = true → loadContent (saveContent w content ls).2 = truthy (Some content).
Proof.
  intros Hok. rewrite saveContent_unfold, Hok. unfold loadContent.
  destruct (lastSavedOk w); cbn [snd]; rewrite ?getItem_insert_Text;
    repeat case_decide; done.
Qed.

(** X19. Saved content is what is loaded next, an empty text loading as none.
    The content is stored as soon as its own write goes through, also when
    the call then reports a failure because the time stamp could not be
    written.  The ledger, the chat history and the preferences are not
    touched. *)
Theorem saveContent_then_load w (content : list N) (ls : gmap string item) :
  let r := saveContent w content ls in
  (r.1 = true ↔ contentOk w = true ∧ lastSavedOk w = true)
  ∧ (contentOk w = true → loadContent r.2 = truthy (Some content))
  ∧ (contentOk w = false → r.2 = ls)
  ∧ versioning.getVersions r.2 = versioning.getVersions ls
  ∧ loadChatHistory r.2 = loadChatHistory ls
  ∧ loadPreferences r.2 = loadPreferences ls.
Proof.
  intros r. subst r. rewrite saveContent_unfold.
  unfold loadContent, loadChatHistory, loadPreferences.
  destruct (contentOk w), (lastSavedOk w); cbn [fst snd];
    rewrite ?getItem_insert_Text, ?getVersions_insert_ne by done;
    repeat case_decide; try done; repeat split; try done; try tauto;
    by intros [? ?].
Qed.

(** X20. After [clearAll] nothing is loaded: no content, no chat history and no
    preferences. *)
Theorem clearAll_forgets (ls : gmap string item) :
  loadContent (clearAll ls).2 = None
  ∧ loadChatHistory (clearAll ls).2 = None
  ∧ loadPreferences (clearAll ls).2 = None.
Proof.
  unfold loadContent, loadChatHistory, loadPreferences, getItem.
  rewrite !clearAll_lookup.
  rewrite !bool_decide_eq_true_2; [done|..]; unfold STORAGE_KEYS.values;
    rewrite !elem_of_cons; auto.
Qed.

(** X21. Saving the chat history keeps its last fifty messages, in order: they
    are what is loaded next, provided [JSON.parse] gives back what
    [JSON.stringify] was given. *)
Theorem chat_history_keeps_last_fifty w (history : list Message)
        (ls : gmap string item) :
  let kept := drop (length history - 50) history in
  historyOk w = true →
  stringifyHistory kept ≠ [] →
  parseHistory (stringifyHistory kept) = Some kept →
  loadChatHistory (saveChatHistory w history ls).2 = Some kept
  ∧ length kept = length history `min` 50
  ∧ kept `suffix_of` history.
Proof.
  intros kept Hok Hne Hparse. unfold saveChatHistory, loadChatHistory.
  rewrite Hok. cbn [snd]. rewrite getItem_insert_Text.
  case_decide; [|done]. fold kept.
  destruct (stringifyHistory kept) as [|c text] eqn:Htext; [done|].
  cbn [truthy]. split; [done|]. split.
  - subst kept. rewrite length_drop. lia.
  - apply suffix_drop.
Qed.

(** X22. [importAll] reports success for every backup, whether or not anything
    could be written, and failure only for no backup at all.  A backup
    without content, or with an empty one, leaves the stored content as it
    is; importing what [exportAll] made of another store brings that
    store's content over.  The ledger is never touched. *)
Theorem importAll_content w (data : backup Message Preferences)
        (exportedAt : list N) (ls other : gmap string item) :
  (importAll w (Some data) ls).1 = true
  ∧ importAll w None ls = (false, ls)
  ∧ versioning.getVersions (importAll w (Some data) ls).2 = versioning.getVersions ls
  ∧ (truthy (b_content data) = None →
     loadContent (importAll w (Some data) ls).2 = loadContent ls)
  ∧ (contentOk w = true →
     loadContent (importAll w (Some (exportAll exportedAt other)) ls).2
     = match loadContent other with
       | Some content => Some content
       | None => loadContent ls
       end).
Proof.
  assert (Hframe : ∀ d : backup Message Preferences,
    loadContent (importAll w (Some d) ls).2
    = loadContent (match truthy (b_content d) with
                   | Some content => (saveContent w content ls).2
                   | None => ls
                   end)
    ∧ versioning.getVersions (importAll w (Some d) ls).2 = versioning.getVersions ls).
  { intros d. unfold importAll. cbn [snd].
    set (ls1 := match truthy (b_content d) with
                | Some content => (saveContent w content ls).2
                | None => ls
                end).
    assert (versioning.getVersions ls1 = versioning.getVersions ls) as <-.
    { subst ls1. destruct (truthy (b_content d)); [|done].
      apply saveContent_getVersions. }
    unfold loadContent, saveChatHistory, savePreferences.
    destruct (b_chatHistory d), (b_preferences d), (historyOk w), (preferencesOk w);
      cbn [snd]; rewrite ?getItem_insert_Text, ?getVersions_insert_ne by done;
      repeat case_decide; done. }
  split; [done|]. split; [done|].
  split; [apply (Hframe data)|]. split.
  - intros Hnone. destruct (Hframe data) as [-> _]. by rewrite Hnone.
  - intros Hok. destruct (Hframe (exportAll exportedAt other)) as [-> _].
    cbn [exportAll b_content]. unfold loadContent at 1 2. rewrite truthy_idemp.
    fold (loadContent other).
    destruct (loadContent other) as [content|] eqn:Hother; [|done].
    fold (loadContent (saveContent w content ls).2).
    rewrite (saveContent_loadContent w content ls Hok). unfold loadContent in Hother.
    destruct (getItem other STORAGE_KEYS.CONTENT) as [[|c text]|]; [done| |done].
    by injection Hother as <-.
Qed.

End StorageMore.

(** ** Focus areas *)

Section Modes.
Local Open Scope nat_scope.

(** X23. Toggling a focus area changes whether it is selected and leaves the
    others as they are; a selection without repeats stays so, and toggling
    twice gives back the same selection (the same list when the area was
    not selected). *)
Theorem toggled_flips (modeId : list N) (prev : list (list N)) :
  (modeId ∈ toggled modeId prev ↔ modeId ∉ prev)
  ∧ (∀ m, m ≠ modeId → (m ∈ toggled modeId prev ↔ m ∈ prev))
  ∧ (NoDup prev → NoDup (toggled modeId prev))
  ∧ (NoDup prev → toggled modeId (toggled modeId prev) ≡ₚ prev)
  ∧ (modeId ∉ prev → toggled modeId (toggled modeId prev) = prev).
Proof.
  assert (Hout : ∀ l : list (list N), modeId ∉ l → filter (λ m, m ≠ modeId) l = l).
  { intros l Hnot. induction l as [|m l IH]; [done|].
    apply not_elem_of_cons in Hnot as [Hne Hnot].
    rewrite filter_cons, IH by done. case_decide as Hd; [done|]. by destruct Hd. }
  assert (Hremoved : modeId ∉ filter (λ m, m ≠ modeId) prev).
  { rewrite list_elem_of_filter. by intros [? _]. }
  assert (Hadded : modeId ∈ prev ++ [modeId]) by set_solver.
  destruct (decide (modeId ∈ prev)) as [Hin|Hnot].
  - assert (Hfirst : toggled modeId prev = filter (λ m, m ≠ modeId) prev).
    { unfold toggled. by rewrite bool_decide_eq_true_2. }
    assert (Hsecond : toggled modeId (filter (λ m, m ≠ modeId) prev)
                      = filter (λ m, m ≠ modeId) prev ++ [modeId]).
    { unfold toggled. by rewrite bool_decide_eq_false_2. }
    rewrite Hfirst, Hsecond. split; [|split; [|split; [|split]]].
    + split; [done|]. by intros Hn.
    + intros m Hm. rewrite list_elem_of_filter. tauto.
    + apply NoDup_filter.
    + intros Hnd. clear Hfirst Hsecond Hremoved Hadded.
      induction Hnd as [|m l Hm Hnd IH]; [by apply elem_of_nil in Hin|].
      rewrite filter_cons. apply elem_of_cons in Hin as [<-|Hin].
      * case_decide as Hd; [done|]. rewrite Hout by done.
        symmetry. apply Permutation_cons_append.
      * case_decide as Hd; [|by subst m]. cbn [app]. by rewrite IH.
    + done.
  - assert (Hfirst : toggled modeId prev = prev ++ [modeId]).
    { unfold toggled. by rewrite bool_decide_eq_false_2. }
    assert (Hsecond : toggled modeId (prev ++ [modeId]) = prev).
    { unfold toggled. rewrite bool_decide_eq_true_2 by done.
      rewrite filter_app, Hout by done. rewrite filter_cons, filter_nil.
      case_decide as Hd; [by destruct Hd|]. by rewrite app_nil_r. }
    rewrite Hfirst, Hsecond. split; [|split; [|split; [|split]]].
    + done.
    + intros m Hm. rewrite elem_of_app, list_elem_of_singleton. tauto.
    + intros Hnd. apply NoDup_app. split; [done|]. split; [|apply NoDup_singleton].
      intros m Hm Heq%list_elem_of_singleton. by subst m.
    + done.
    + done.
Qed.

End Modes.

(** ** The session *)

Section SessionMore.
Local Open Scope nat_scope.
Context `{!Json ChatMessage Preferences}.

Lemma consistent_chat f st : consistent (setChatHistory f st) ↔ consistent st.
Proof. done. Qed.

Lemma NoDup_ids_filter (P : Suggestion → Prop) `{!∀ T, Decision (P T)}
      (l : list Suggestion) :
  NoDup (s_id <$> l) → NoDup (s_id <$> filter P l).
Proof.
  intros Hnd. eapply sublist_NoDup; [exact Hnd|].
  apply fmap_sublist, sublist_filter.
Qed.

Lemma saveVersion_length e content label (ls : gmap string item) :
  length (versioning.getVersions (versioning.saveVersion e content label ls).2)
  ≤ length (versioning.getVersions ls) `max` MAX_VERSIONS.
Proof.
  destruct (versioning.setItemOk e) eqn:Hok.
  - destruct (saveVersion_ok e content label ls Hok) as (v & -> & _).
    cbn [snd]. rewrite getVersions_insert, length_take. lia.
  - rewrite saveVersion_failed by done. cbn [snd]. lia.
Qed.

Lemma analyzeContent_consistent JSON_parse r st :
  consistent st → consistent (analyzeContent JSON_parse r st).
Proof.
  intros [Hv Hs]. destruct (nothingToEdit (content st)) eqn:Hguard.
  - unfold analyzeContent. rewrite Hguard. done.
  - destruct (requestSuggestions JSON_parse r (content st)) as [l|message] eqn:Hreq.
    + rewrite (analyzeContent_Return _ _ _ _ Hguard Hreq). split; [done|].
      destruct (requestSuggestions_Return _ _ _ _ Hreq)
        as (items & arr & _ & _ & _ & _ & ->).
      cbn. rewrite processSuggestions_from.
      apply StronglySorted_ids_NoDup, processFrom_sorted.
    + rewrite (analyzeContent_Throw _ _ _ _ Hguard Hreq). split; [done|]. constructor.
Qed.

Lemma handlePrepareDocument_consistent W e fetch st :
  consistent st → consistent (handlePrepareDocumentWith W e fetch st).
Proof.
  intros [Hv Hs]. unfold handlePrepareDocumentWith.
  destruct (nothingToEdit (content st)); [done|]. cbv zeta.
  destruct (prepareDocumentWith W fetch (content st)) as [progress result].
  match goal with
  | |- context [foldl ?f ?s progress] =>
      destruct (onProgress_only_chat progress s) as [h ->]
  end.
  destruct result; (split; [done|]); cbn; [constructor|done].
Qed.

Lemma handlePrepareDocument_versions W e fetch st :
  length (versions (handlePrepareDocumentWith W e fetch st))
  ≤ length (versions st) `max`
      (length (versioning.getVersions (store st)) `max` MAX_VERSIONS).
Proof.
  unfold handlePrepareDocumentWith.
  destruct (nothingToEdit (content st)); [cbn; lia|]. cbv zeta.
  destruct (prepareDocumentWith W fetch (content st)) as [progress result].
  match goal with
  | |- context [foldl ?f ?s progress] =>
      destruct (onProgress_only_chat progress s) as [h ->]
  end.
  pose proof (saveVersion_length e (content st) (lit "Before preparation") (store st)).
  destruct result; cbn; lia.
Qed.

Lemma saveVersion_consistent e label st :
  consistent st → consistent (saveVersion e label st).
Proof.
  intros [Hv Hs]. destruct label as [label|]; [|done]. unfold saveVersion.
  destruct (versioning.setItemOk e) eqn:Hok.
  - destruct (saveVersion_ok e (content st) label (store st) Hok) as (v & -> & _). done.
  - rewrite saveVersion_failed by done. done.
Qed.

Lemma saveVersion_versions e label st :
  length (versions (saveVersion e label st))
  ≤ length (versions st) `max`
      (length (versioning.getVersions (store st)) `max` MAX_VERSIONS).
Proof.
  destruct label as [label|]; [|cbn; lia]. unfold saveVersion.
  destruct (versioning.setItemOk e) eqn:Hok.
  - destruct (saveVersion_ok e (content st) label (store st) Hok) as (v & -> & _).
    cbn [versions say setChatHistory setVersions setStore store].
    rewrite getVersions_insert, length_take. lia.
  - rewrite saveVersion_failed by done. cbn. lia.
Qed.

Lemma startNewDocument_store confirmClear e w (st : Editor) :
  versioning.getVersions (store (startNewDocument confirmClear e w st))
  = (if negb (bool_decide (content st = SAMPLE_TEXT))
        && negb (bool_decide (trim (content st) = [])) && confirmClear
     then versioning.getVersions
            (versioning.saveVersion e (content st)
               (lit "Auto-save before new document") (store st)).2
     else versioning.getVersions (store st))
  ∧ versions (startNewDocument confirmClear e w st)
    = (if negb (bool_decide (content st = SAMPLE_TEXT))
          && negb (bool_decide (trim (content st) = [])) && confirmClear
       then versioning.getVersions
              (versioning.saveVersion e (content st)
                 (lit "Auto-save before new document") (store st)).2
       else versions st)
  ∧ (suggestions (startNewDocument confirmClear e w st) = []
     ∨ suggestions (startNewDocument confirmClear e w st) = suggestions st).
Proof.
  unfold startNewDocument, storage.saveChatHistory. rewrite saveContent_unfold.
  destruct (negb (bool_decide (content st = SAMPLE_TEXT))
            && negb (bool_decide (trim (content st) = []))), confirmClear;
    cbn [andb negb]; cbv zeta;
    destruct (storage.contentOk w), (storage.lastSavedOk w), (storage.historyOk w);
    cbn; rewrite ?getVersions_insert_ne by done; auto.
Qed.

Lemma restoreVersion_editor id (s : Session) :
  restoreVersion id s = s
  ∨ ∃ c h, editor (restoreVersion id s)
           = setChatHistory (λ _, h) (setSuggestions (λ _, []) (setContent c (editor s))).
Proof.
  unfold restoreVersion.
  destruct (versioning.restoreVersion id (store (editor s))) as [[|c rest]|]; auto.
  right. by eexists _, _.
Qed.

Lemma handleChatSubmit_editor service (s : Session) :
  ∃ h, editor (handleChatSubmit service s) = setChatHistory (λ _, h) (editor s).
Proof.
  unfold handleChatSubmit.
  destruct (bool_decide (trim (chatInput s) = []) || isChatLoading s).
  - exists (chatHistory (editor s)). by destruct s as [[]].
  - cbv zeta. destruct (callClaudeAPI _); by eexists.
Qed.

Lemma step_consistent (n : nat) (s : Session) (a : action) :
  consistent (editor s) ∧ length (versions (editor s)) ≤ n `max` MAX_VERSIONS →
  consistent (editor (step s a))
  ∧ length (versions (editor (step s a))) ≤ n `max` MAX_VERSIONS.
Proof.
  intros [Hc Hlen]. pose proof Hc as [Hv Hs].
  destruct a; cbn [step setEditor editor toggleMode setActiveModes].
  - done.
  - split; [|done]. split; [|done]. cbn. rewrite saveContent_unfold.
    destruct (storage.contentOk w), (storage.lastSavedOk w); cbn;
      by rewrite ?getVersions_insert_ne.
  - split; [|done]. split; [|done]. cbn. unfold storage.saveChatHistory.
    destruct (storage.historyOk w); cbn; by rewrite ?getVersions_insert_ne.
  - split; [|done]. split; [|done]. cbn. unfold storage.savePreferences.
    destruct (storage.preferencesOk w); cbn; by rewrite ?getVersions_insert_ne.
  - done.
  - split; [by apply analyzeContent_consistent|].
    destruct (nothingToEdit (content (editor s))) eqn:Hguard.
    + unfold analyzeContent. by rewrite Hguard.
    + destruct (requestSuggestions JSON_parse r (content (editor s))) eqn:Hreq.
      * by rewrite (analyzeContent_Return _ _ _ _ Hguard Hreq).
      * by rewrite (analyzeContent_Throw _ _ _ _ Hguard Hreq).
  - split; [by apply handlePrepareDocument_consistent|].
    pose proof (handlePrepareDocument_versions MAX_WORDS_PER_CHUNK e fetch (editor s)).
    unfold handlePrepareDocument. rewrite <- Hv in *. lia.
  - split; [|done]. split; [done|]. by apply NoDup_ids_filter.
  - split; [|done]. split; [done|]. by apply NoDup_ids_filter.
  - split; [|done]. split; [done|]. constructor.
  - destruct (handleChatSubmit_editor service (setChatInput text s)) as [h ->]. done.
  - split; [by apply saveVersion_consistent|].
    pose proof (saveVersion_versions e label (editor s)). rewrite <- Hv in *. lia.
  - destruct (restoreVersion_editor id s) as [->|(c & h & ->)]; [done|].
    split; [|done]. split; [done|]. constructor.
  - destruct (startNewDocument_store confirmClear e w (editor s)) as (Hstore & Hvs & Hsg).
    pose proof (saveVersion_length e (content (editor s))
                  (lit "Auto-save before new document") (store (editor s))).
    split; [split|].
    + rewrite Hstore, Hvs. by destruct (_ && _).
    + destruct Hsg as [->| ->]; [constructor|done].
    + rewrite Hvs. destruct (_ && _); [|done]. rewrite <- Hv in *. lia.
  - unfold exportContent. cbv zeta.
    destruct (bool_decide (format = lit "docx") || bool_decide (format = lit "gdocs"));
      [done|]. by destruct (bool_decide (format = lit "html")).
Qed.

(** X24. Whatever the user does, in whatever order and whatever the service and
    the browser answer, the version list shown is the stored ledger, no two
    suggestions share an id, and the ledger holds at most five versions (or
    as many as it held when the page was opened, if that was more). *)
Theorem session_stays_consistent (ls : gmap string item) (actions : list action) :
  let s := run actions (initialSession ls) in
  versions (editor s) = versioning.getVersions (store (editor s))
  ∧ NoDup (s_id <$> suggestions (editor s))
  ∧ length (versioning.getVersions (store (editor s)))
    ≤ length (versioning.getVersions ls) `max` MAX_VERSIONS.
Proof.
  intros s. subst s. unfold run.
  assert (Hrun : ∀ s0 : Session,
    consistent (editor s0)
    ∧ length (versions (editor s0))
      ≤ length (versioning.getVersions ls) `max` MAX_VERSIONS →
    consistent (editor (foldl step s0 actions))
    ∧ length (versions (editor (foldl step s0 actions)))
      ≤ length (versioning.getVersions ls) `max` MAX_VERSIONS).
  { induction actions as [|a actions IH]; intros s0 H0; [done|].
    cbn [foldl]. by apply IH, step_consistent. }
  destruct (Hrun (initialSession ls)) as [[Hv Hs] Hlen].
  - split; [split; [done|constructor]|]. cbn. lia.
  - rewrite <- Hv. done.
Qed.

(** ** The chat *)

(** X25. A chat submission is ignored when the input is blank or a request is
    under way.  Otherwise the chat grows by exactly two messages, the
    trimmed input and then the answer or the report of the failure; the
    input is cleared, the busy flag is down again, and nothing else (the
    document, the suggestions, the stored data, the focus areas) changes. *)
Theorem chat_submit_adds_two (service : list ChatMessage → list N → response)
        (s : Session) :
  let s' := handleChatSubmit service s in
  let userMessage := trim (chatInput s) in
  let request :=
    service (conversationMessages (chatHistory (editor s)) userMessage)
            (chatSystemPrompt (content (editor s)) (length (suggestions (editor s)))) in
  (userMessage = [] ∨ isChatLoading s = true → s' = s)
  ∧ (userMessage ≠ [] → isChatLoading s = false →
     s' = setChatInput []
            (setEditor (setChatHistory (λ prev,
               prev ++ [mkMessage user userMessage;
                        mkMessage assistant (chatAnswer (callClaudeAPI request))])) s)).
Proof.
  intros s' userMessage request. subst s' userMessage request.
  unfold handleChatSubmit. split.
  - intros [Hblank|Hbusy].
    + by rewrite bool_decide_eq_true_2.
    + rewrite Hbusy. by rewrite orb_true_r.
  - intros Hinput Hidle. rewrite bool_decide_eq_false_2, Hidle by done.
    cbn [orb]. cbv zeta.
    destruct (callClaudeAPI _); destruct s as [st modes input loading em vm];
      cbn in Hidle; subst loading;
      unfold setIsChatLoading, setEditor, setChatInput, setChatHistory;
      cbn [editor activeModes chatInput isChatLoading showExportMenu showVersionMenu
           content suggestions error chatHistory versions isAnalyzing isPreparing
           showPrepareConfirm store chatAnswer];
      by rewrite <- app_assoc.
Qed.

(** X26. The request of the chat carries the last ten messages of the history as
    they are, followed by the new one: never more than eleven, and the last
    is the user's.  (The messages of a history are the user's and the
    assistant's, the two roles the editor gives its messages.) *)
Theorem chat_request_last_ten (history : list ChatMessage) (userMessage : list N) :
  conversationMessages history userMessage
  = drop (length history - 10) history ++ [mkMessage user userMessage]
  ∧ length (conversationMessages history userMessage) = length history `min` 10 + 1
  ∧ last (conversationMessages history userMessage) = Some (mkMessage user userMessage).
Proof.
  assert (Hkept : filter (λ m, m_role m = user ∨ m_role m = assistant) history = history).
  { induction history as [|m history IH]; [done|].
    rewrite filter_cons, IH. case_decide as Hm; [done|].
    destruct Hm. destruct (m_role m); auto. }
  assert (Hmap : ∀ l : list ChatMessage,
    (λ m, mkMessage (m_role m) (m_content m)) <$> l = l).
  { intros l. induction l as [|[] l IH]; [done|]. by rewrite fmap_cons, IH. }
  assert (Heq : conversationMessages history userMessage
                = drop (length history - 10) history ++ [mkMessage user userMessage]).
  { unfold conversationMessages. cbv zeta. by rewrite Hkept, Hmap. }
  rewrite Heq. split; [done|]. split.
  - rewrite length_app, length_drop. cbn [length]. lia.
  - apply last_snoc.
Qed.

(** ** Versions in the session *)

(** X27. Saving a version, editing, then restoring the version by its id brings
    the saved document back and empties the Suggestion Set; the ledger is
    not altered by restoring.  A version of an empty document is saved all
    the same, but restoring it does nothing; so does restoring an id the
    ledger does not hold. *)
Theorem saved_version_comes_back (e : versioning.env) (label text : list N)
        (s : Session) :
  versioning.setItemOk e = true →
  let saved := setEditor (saveVersion e (Some label)) s in
  let edited := setEditor (setContent text) saved in
  let s' := restoreVersion (versioning.now e) edited in
  store (editor s') = store (editor saved)
  ∧ versions (editor s') = versions (editor saved)
  ∧ versioning.restoreVersion (versioning.now e) (store (editor saved))
    = Some (content (editor s))
  ∧ (content (editor s) = [] → s' = edited)
  ∧ (content (editor s) ≠ [] →
     content (editor s') = content (editor s)
     ∧ suggestions (editor s') = []
     ∧ showVersionMenu s' = false
     ∧ chatHistory (editor s')
       = chatHistory (editor saved)
         ++ [mkMessage assistant ([CHECK] ++ lit " Version restored.")])
  ∧ (∀ id, id ∉ v_id <$> versioning.getVersions (store (editor edited)) →
           restoreVersion id edited = edited).
Proof.
  intros Hok saved edited s'.
  assert (Hstore : store (editor edited)
                   = (versioning.saveVersion e (content (editor s)) label
                        (store (editor s))).2).
  { subst edited saved. cbn [setEditor editor]. unfold saveVersion.
    by destruct (saveVersion_ok e (content (editor s)) label (store (editor s)) Hok)
      as (v & -> & _). }
  assert (Hsaved : store (editor saved) = store (editor edited)) by done.
  pose proof (restoreVersion_saved e (content (editor s)) label (store (editor s)) Hok)
    as Hrestore.
  rewrite <- Hstore in Hrestore.
  assert (Hcases : ∀ id, restoreVersion id edited
    = match versioning.restoreVersion id (store (editor edited)) with
      | Some (c :: rest) =>
          setEditor (say ([CHECK] ++ lit " Version restored."))
            (setShowVersionMenu false
               (setEditor (λ st, setSuggestions (λ _, []) (setContent (c :: rest) st))
                          edited))
      | Some [] | None => edited
      end) by done.
  assert (Hs' : s' = restoreVersion (versioning.now e) edited) by done.
  rewrite Hcases, Hrestore in Hs'. rewrite Hsaved.
  split; [|split; [|split; [done|split; [|split]]]].
  - rewrite Hs'. by destruct (content (editor s)).
  - rewrite Hs'. by destruct (content (editor s)).
  - intros Hempty. rewrite Hs'. by rewrite Hempty.
  - intros Hne. rewrite Hs'. by destruct (content (editor s)).
  - intros id Hid. rewrite Hcases.
    assert (versioning.restoreVersion id (store (editor edited)) = None) as ->; [|done].
    rewrite restoreVersion_find. by apply fmap_None, find_id_None.
Qed.

(** ** A new document *)


End SessionMore.

(** ** Export *)

Section ExportMore.
Local Open Scope nat_scope.

Lemma replaceChar_app c by_ (x y : list N) :
  replaceChar c by_ (x ++ y) = replaceChar c by_ x ++ replaceChar c by_ y.
Proof. unfold replaceChar. apply bind_app. Qed.

Lemma replaceChar_cons c by_ d (s : list N) :
  replaceChar c by_ (d :: s) = (if (d =? c)%N then by_ else [d]) ++ replaceChar c by_ s.
Proof. reflexivity. Qed.

Lemma replaceChar_other c by_ d :
  d ≠ c → replaceChar c by_ [d] = [d].
Proof.
  intros Hne. rewrite replaceChar_cons. apply N.eqb_neq in Hne. by rewrite Hne.
Qed.

Lemma escapeRtf_app (x y : list N) : escapeRtf (x ++ y) = escapeRtf x ++ escapeRtf y.
Proof. unfold escapeRtf. by rewrite !replaceChar_app. Qed.

Lemma escapeRtf_single c : escapeRtf [c] = escapeChar c.
Proof.
  unfold escapeChar.
  destruct (N.eqb_spec c BACKSLASH) as [->|H1]; [by vm_compute|].
  destruct (N.eqb_spec c LBRACE) as [->|H2]; [by vm_compute|].
  destruct (N.eqb_spec c RBRACE) as [->|H3]; [by vm_compute|].
  destruct (N.eqb_spec c NL) as [->|H4]; [by vm_compute|].
  unfold escapeRtf. by rewrite !replaceChar_other.
Qed.

Lemma escapeRtf_cons c (t : list N) : escapeRtf (c :: t) = escapeChar c ++ escapeRtf t.
Proof. by rewrite <- escapeRtf_single, <- escapeRtf_app. Qed.

Lemma rtfScan_app (a b : list N) : ∀ escaped depth,
  rtfScan escaped depth (a ++ b)
  = match rtfScan escaped depth a with
    | Some (escaped', depth') => rtfScan escaped' depth' b
    | None => None
    end.
Proof.
  induction a as [|c a IH]; intros escaped depth; [done|].
  cbn [app rtfScan]. destruct escaped; [apply IH|].
  destruct (c =? BACKSLASH)%N; [apply IH|].
  destruct (c =? LBRACE)%N; [apply IH|].
  destruct (c =? RBRACE)%N; [|apply IH].
  destruct depth; [done|apply IH].
Qed.

Lemma rtfScan_deeper (s : list N) (d : nat) : ∀ escaped k escaped' k',
  rtfScan escaped k s = Some (escaped', k') →
  rtfScan escaped (k + d) s = Some (escaped', k' + d).
Proof.
  induction s as [|c s IH]; intros escaped k escaped' k'.
  - cbn [rtfScan]. by intros [= <- <-].
  - cbn [rtfScan]. destruct escaped; [apply IH|].
    destruct (c =? BACKSLASH)%N; [apply IH|].
    destruct (c =? LBRACE)%N; [apply (IH false (S k))|].
    destruct (c =? RBRACE)%N; [|apply IH].
    destruct k as [|k]; [done|]. apply IH.
Qed.

Lemma escapeChar_scan c d : rtfScan false d (escapeChar c) = Some (false, d).
Proof.
  unfold escapeChar.
  destruct (N.eqb_spec c BACKSLASH) as [->|H1]; [done|].
  destruct (N.eqb_spec c LBRACE) as [->|H2]; [done|].
  destruct (N.eqb_spec c RBRACE) as [->|H3]; [done|].
  destruct (N.eqb_spec c NL) as [->|H4]; [done|].
  cbn [rtfScan]. apply N.eqb_neq in H1, H2, H3. by rewrite H1, H2, H3.
Qed.

Lemma escapeRtf_scan (t : list N) d : rtfScan false d (escapeRtf t) = Some (false, d).
Proof.
  induction t as [|c t IH]; [done|].
  by rewrite escapeRtf_cons, rtfScan_app, escapeChar_scan.
Qed.

Lemma group_scan (pre body post : list N) d :
  rtfScan false 0 pre = Some (false, 1) →
  rtfScan false 1 post = Some (false, 0) →
  (∀ k, rtfScan false k body = Some (false, k)) →
  rtfScan false d (pre ++ body ++ post) = Some (false, d).
Proof.
  intros Hpre Hpost Hbody.
  pose proof (rtfScan_deeper pre d false 0 false 1 Hpre) as Hpre'.
  pose proof (rtfScan_deeper post d false 1 false 0 Hpost) as Hpost'.
  cbn [Nat.add] in Hpre', Hpost'.
  by rewrite rtfScan_app, Hpre', rtfScan_app, Hbody.
Qed.

Lemma rtfLine_scan (line : list N) d : rtfScan false d (rtfLine line) = Some (false, d).
Proof.
  unfold rtfLine. cbv zeta.
  repeat match goal with
         | |- context [if ?b then _ else _] => destruct b
         end;
    try (apply group_scan; [by vm_compute|by vm_compute|apply escapeRtf_scan]).
  apply (rtfScan_deeper _ d false 0 false 0). by vm_compute.
Qed.

Lemma rtfBody_scan (text : list N) d : rtfScan false d (rtfBody text) = Some (false, d).
Proof.
  unfold rtfBody.
  assert (Hfold : ∀ lines acc,
    rtfScan false d acc = Some (false, d) →
    rtfScan false d (foldl (λ rtfBody line, rtfBody ++ rtfLine line) acc lines)
    = Some (false, d)).
  { induction lines as [|line lines IH]; intros acc Hacc; [done|].
    cbn [foldl]. apply IH. by rewrite rtfScan_app, Hacc, rtfLine_scan. }
  by apply Hfold.
Qed.

(** X29. Whatever the document holds, the RTF file made of it is well formed as
    far as its groups go: read as RTF, where a backslash takes the next
    character with it, every opening brace has its closing brace, no brace
    closes a group that was not opened, and the file does not end on a
    pending backslash.  So a brace or a backslash of the document cannot
    break the file. *)
Theorem rtf_export_is_balanced (text : list N) :
  rtfScan false 0 (rtfContent text) = Some (false, 0)
  ∧ ∀ depth, rtfScan false depth (escapeRtf text) = Some (false, depth).
Proof.
  split; [|intros depth; apply escapeRtf_scan].
  unfold rtfContent.
  repeat (rewrite rtfScan_app;
          match goal with
          | |- context [rtfScan false ?d (lit ?l)] =>
              let r := eval vm_compute in (rtfScan false d (lit l)) in
              change (rtfScan false d (lit l)) with r
          | |- context [rtfScan false ?d [NL]] =>
              change (rtfScan false d [NL]) with (Some (false, d))
          | |- context [rtfScan false ?d (rtfBody text)] =>
              rewrite (rtfBody_scan text d)
          end; cbv beta iota).
  by vm_compute.
Qed.

(** X30. [escapeRtf] loses nothing: the document is read back from the escaped
    text, so two documents that differ give escaped texts that differ. *)
Theorem escapeRtf_loses_nothing (text : list N) :
  unescapeRtf (length (escapeRtf text)) (escapeRtf text) = text
  ∧ ∀ other, escapeRtf other = escapeRtf text → other = text.
Proof.
  assert (Hback : ∀ (t : list N) fuel,
    length (escapeRtf t) ≤ fuel → unescapeRtf fuel (escapeRtf t) = t).
  { induction t as [|c t IH]; intros fuel Hfuel; [by destruct fuel|].
    rewrite escapeRtf_cons in *. unfold escapeChar in *.
    change (lit "\par" ++ [NL]) with [BACKSLASH; 112; 97; 114; NL]%N in *.
    revert Hfuel.
    destruct (N.eqb_spec c BACKSLASH) as [->|H1];
      [|destruct (N.eqb_spec c LBRACE) as [->|H2];
        [|destruct (N.eqb_spec c RBRACE) as [->|H3];
          [|destruct (N.eqb_spec c NL) as [->|H4]]]];
      intros Hfuel; (destruct fuel as [|fuel]; [cbn in Hfuel; lia|]).
    - cbn. f_equal. apply IH. cbn in Hfuel. lia.
    - cbn. f_equal. apply IH. cbn in Hfuel. lia.
    - cbn. f_equal. apply IH. cbn in Hfuel. lia.
    - cbn. f_equal. apply IH. cbn in Hfuel. lia.
    - cbn [app unescapeRtf]. apply N.eqb_neq in H1. rewrite H1. f_equal.
      apply IH. cbn in Hfuel. lia. }
  split; [by apply Hback|].
  intros other Heq. rewrite <- (Hback other (length (escapeRtf other)) (le_n _)).
  rewrite Heq. by apply Hback.
Qed.

End ExportMore.

(** ** The further properties on sample data *)

Section FurtherSamples.
Import Sample Scenario.
Local Open Scope nat_scope.

(** With a budget of two words, "a b" is closed because "c d e f" did not
    fit. *)
Lemma planChunks_packs_greedily_sample :
  2 < groupWords (split reBlankLines (lit "a b")) + paraWords (lit "c d e f").
Proof.
  apply (planChunks_packs_greedily 2 plainParagraphs 0 (lit "a b") (lit "c d e f")
           (lit "c d e f") []); vm_compute; reflexivity.
Defined.

(** Seven words within a budget of ten, the first two paragraphs three
    newlines apart: the one segment has two newlines there, the request
    (which the service answers by its own text) has the three. *)
Lemma planChunks_small_document_sample :
  planChunks 10 Sample.threeParagraphs = [plainParagraphs]
  ∧ prepareDocumentWith 10 secondFails Sample.threeParagraphs
    = ([lit "Processing document..."], Return (wholePrompt ++ Sample.threeParagraphs)).
Proof.
  destruct (planChunks_small_document 10 secondFails Sample.threeParagraphs)
    as (Hplan & _ & Hrun).
  - vm_compute. lia.
  - split.
    + rewrite Hplan. vm_compute. reflexivity.
    + rewrite Hrun. vm_compute. reflexivity.
Defined.

(** The sixth version saved over five is restored under its id. *)
Lemma saveVersion_then_restore_sixth :
  versioning.restoreVersion 6
    (versioning.saveVersion (at_ 6) (lit "six") [] fiveSaved).2 = Some (lit "six").
Proof.
  destruct (saveVersion_then_restore (at_ 6) (lit "six") [] fiveSaved) as [Hback _].
  - reflexivity.
  - exact Hback.
Defined.

(** Five saves on an empty ledger: the five contents, newest first. *)
Lemma saves_keep_the_latest_five :
  v_content <$> versioning.getVersions (runLedger saves ∅)
  = [lit "five"; lit "four"; lit "three"; lit "one two"; lit "one"].
Proof.
  rewrite (saves_keep_the_latest saves ∅).
  - vm_compute. reflexivity.
  - repeat constructor.
  - vm_compute. lia.
Defined.

(** Three spaces are nothing to analyse or to prepare. *)
Lemma blank_document_is_refused_spaces :
  error (analyzeContent (parseOnly []) (answering []) spaces)
  = Some (lit "Please paste your chapter content before analyzing.")
  ∧ error (handlePrepareDocumentWith 2 (at_ 9) answersOk spaces)
    = Some (lit "Please paste your chapter content before preparing.").
Proof.
  destruct (blank_document_is_refused (parseOnly []) (answering []) 2 (at_ 9)
              answersOk spaces) as [-> ->].
  - left. repeat constructor.
  - split; reflexivity.
Defined.

(** Three segments, each answered "ok": the three answers joined by blank
    lines, after three progress messages. *)
Lemma prepare_joins_answers_in_order_sample :
  ∃ progress,
    prepareDocumentWith 2 answersOk plainParagraphs
    = (progress, Return (lit "ok" ++ blankLine ++ lit "ok" ++ blankLine ++ lit "ok"))
    ∧ length progress = 3.
Proof.
  destruct (prepare_joins_answers_in_order answersOk 2 plainParagraphs)
    as (progress & Hrun & Hlen).
  - intros i chunk _. reflexivity.
  - exists progress. split.
    + rewrite Hrun. f_equal.
    + rewrite Hlen. vm_compute. reflexivity.
Defined.

(** Preparing the three paragraphs saves them first, also when the second
    request then fails. *)
Lemma prepare_snapshots_first_sample :
  versioning.restoreVersion 9
    (store (handlePrepareDocumentWith 2 (at_ 9) secondFails threeParagraphs))
  = Some plainParagraphs.
Proof.
  destruct (prepare_snapshots_first secondFails 2 (at_ 9) threeParagraphs)
    as (v & _ & _ & _ & _ & Hback & _).
  - vm_compute. reflexivity.
  - reflexivity.
  - exact Hback.
Defined.

Lemma prepare_replaces_document_sample :
  content (handlePrepareDocumentWith 2 (at_ 9) answersOk threeParagraphs)
  = lit "ok" ++ blankLine ++ lit "ok" ++ blankLine ++ lit "ok"
  ∧ suggestions (handlePrepareDocumentWith 2 (at_ 9) answersOk threeParagraphs) = [].
Proof.
  destruct (prepare_replaces_document answersOk 2 (at_ 9) threeParagraphs
              (prepareDocumentWith 2 answersOk plainParagraphs).1
              (lit "ok" ++ blankLine ++ lit "ok" ++ blankLine ++ lit "ok"))
    as (Hc & Hs & _).
  - vm_compute. reflexivity.
  - vm_compute. reflexivity.
  - split; [exact Hc|exact Hs].
Defined.

(** Accepting "foo" -> "quux" at 2-5 of "A foo B foo C": "quux" stands at
    2-6 and the rest follows unchanged. *)
Lemma acceptSuggestion_replaces_region_sample :
  substring (content (acceptSuggestion fooToQuux fooEditor)) 2 6 = lit "quux"
  ∧ substringFrom (content (acceptSuggestion fooToQuux fooEditor)) 6
    = lit " B foo C".
Proof.
  destruct (acceptSuggestion_replaces_region fooToQuux fooEditor)
    as (_ & Hnew & Hrest & _).
  - vm_compute. split; discriminate.
  - vm_compute. discriminate.
  - split; [exact Hnew|].
    transitivity (substringFrom (content fooEditor) (s_end fooToQuux));
      [exact Hrest|vm_compute; reflexivity].
Defined.

(** Accepting the later suggestion first, then the earlier one. *)
Lemma accept_back_to_front_sample :
  content (acceptSuggestion fooToQuux (acceptSuggestion lastLetter fooEditor))
  = lit "A quux B foo D".
Proof.
  destruct (accept_back_to_front fooToQuux lastLetter fooEditor) as (_ & _ & Hboth).
  - vm_compute. split; discriminate.
  - vm_compute. split; discriminate.
  - vm_compute. discriminate.
  - vm_compute. discriminate.
  - apply list_elem_of_here.
  - rewrite Hboth. vm_compute. reflexivity.
Defined.

(** Dismissing the first of two suggestions leaves the second. *)
Lemma removal_takes_exactly_one_sample :
  suggestions (dismissSuggestion fooToQuux fooEditor) = [lastLetter]
  ∧ content (dismissSuggestion fooToQuux fooEditor) = fooDocument.
Proof.
  destruct (removal_takes_exactly_one fooToQuux fooEditor)
    as (l1 & l2 & _ & _ & _ & _ & Hc).
  - apply (bool_decide_unpack _). vm_compute. reflexivity.
  - apply list_elem_of_here.
  - split; [vm_compute; reflexivity|exact Hc].
Defined.

Lemma analysis_gives_distinct_anchored_sample :
  suggestions (analyzeContent (parseOnly [fooToBar]) (answering [fooToBar])
                              (setContent fooDocument blank))
  = [fooToBarAnchored].
Proof.
  destruct (analysis_gives_distinct_anchored (parseOnly [fooToBar]) (answering [fooToBar])
              (setContent fooDocument blank) [fooToBarAnchored]) as (Hs & _).
  - vm_compute. reflexivity.
  - vm_compute. reflexivity.
  - exact Hs.
Defined.

(** Analysing "A foo B foo C" and accepting "foo" -> "bar": the first
    "foo" is replaced. *)
Lemma analysis_then_accept_sample :
  ∃ before after,
    fooDocument = before ++ lit "foo" ++ after
    ∧ content (acceptSuggestion fooToBarAnchored
                 (analyzeContent (parseOnly [fooToBar]) (answering [fooToBar])
                                 (setContent fooDocument blank)))
      = before ++ lit "bar" ++ after.
Proof.
  destruct (analysis_then_accept (parseOnly [fooToBar]) (answering [fooToBar])
              (setContent fooDocument blank) [fooToBarAnchored] fooToBarAnchored)
    as (before & after & Hdoc & Hnew & _).
  - vm_compute. reflexivity.
  - vm_compute. reflexivity.
  - apply list_elem_of_here.
  - exists before, after. split; [exact Hdoc|exact Hnew].
Defined.

(** An overloaded service: the error shown names the status. *)
Lemma analysis_reports_failures_sample :
  error (analyzeContent (parseOnly []) (HttpError 529 None) (setContent fooDocument blank))
  = Some (lit "Analysis failed: API error: 529").
Proof.
  destruct (analysis_reports_failures (parseOnly []) (HttpError 529 None)
              (setContent fooDocument blank)) as (_ & Hstatus & _).
  - vm_compute. reflexivity.
  - destruct (Hstatus 529 None eq_refl) as [-> _]. vm_compute. reflexivity.
Defined.

(** Of fifty-one messages the first is not stored. *)
Lemma chat_history_keeps_last_fifty_sample :
  @storage.loadChatHistory _ _ (knowing (replicate 50 again) (lit "[...]"))
    (@storage.saveChatHistory _ _ (knowing (replicate 50 again) (lit "[...]"))
       allWrites longChat ∅).2
  = Some (replicate 50 again).
Proof.
  destruct (@chat_history_keeps_last_fifty _ _ (knowing (replicate 50 again) (lit "[...]"))
              allWrites longChat ∅) as (Hload & _).
  - reflexivity.
  - vm_compute. discriminate.
  - vm_compute. reflexivity.
  - rewrite Hload. vm_compute. reflexivity.
Defined.

(** Saving "A foo B foo C" as a version, replacing the text, then restoring
    the version. *)
Lemma saved_version_comes_back_sample :
  let saved := setEditor (saveVersion (at_ 7) (Some (lit "draft"))) shown in
  let edited := setEditor (setContent (lit "scratch")) saved in
  content (editor (restoreVersion 7 edited)) = fooDocument
  ∧ suggestions (editor (restoreVersion 7 edited)) = []
  ∧ showVersionMenu (restoreVersion 7 edited) = false.
Proof.
  intros saved edited.
  destruct (saved_version_comes_back (at_ 7) (lit "draft") (lit "scratch") shown)
    as (_ & _ & _ & _ & Hback & _).
  - reflexivity.
  - destruct Hback as (Hc & Hs & Hm & _).
    + vm_compute. discriminate.
    + split; [exact Hc|]. split; [exact Hs|exact Hm].
Defined.

End FurtherSamples.
